(** * acorn-db: the storage engine of [acorn-server/app.py]

    A shallow embedding of the B+ tree index ([BPlusTree]), the write-ahead
    log ([WriteAheadLog]), the snapshot store ([StorageManager]) and the
    statement operations of [PaymentRDBMS], with the properties of the
    engine's specification stated and settled against them.

    Conventions of the embedding.
    - A Python exception is a value of [exn]; code that can raise returns
      a [result], and code that raises after it has mutated an object
      returns an [outcome], which carries the mutated state in both cases.
    - A node object owned by one parent is a subterm of its parent.  The
      only non-owning reference of the tree, [next], is a handle: every
      leaf carries the number it was allocated under, and [next] holds
      such a number.
    - A list object that is shared (a bucket of an index) lives in a
      store and is named by its position there. *)

From Stdlib Require Import ZArith String Lia Bool.
From Stdlib Require Import Floats.SpecFloat.
From stdpp Require Import base tactics option list sorting gmap strings.

Set Warnings "-clear-no-such-hyp".

(** ** Exceptions and results *)

Inductive message : Type :=
| TableDoesNotExist (table : string)
| DuplicateValue (column : string).

Inductive exn : Type :=
| TypeError
| IndexError
| KeyError (key : string)
| ValueError (msg : message)
| Stuck.
(** [Stuck] is not a Python exception: it marks the two places where the
    embedding needs a bound the program does not have (the recursion of
    [_insert_non_full] and the walk along the leaf chain run on fuel, and
    a [next] handle is looked up among the leaves).  The theorems on the
    tree show that it is never produced. *)

Inductive result (A : Type) : Type :=
| Ok (a : A)
| Raise (e : exn).
Arguments Ok {A} a.
Arguments Raise {A} e.

#[export] Instance result_ret : MRet result := @Ok.
#[export] Instance result_bind : MBind result := fun A B f m =>
  match m with
  | Ok a => f a
  | Raise e => Raise e
  end.

Inductive outcome (S A : Type) : Type :=
| Done (a : A) (s : S)
| Raised (e : exn) (s : S).
Arguments Done {S A} a s.
Arguments Raised {S A} e s.

(** ** Python list operations *)

Section PyList.
Context {A : Type}.

(** [l[i]] *)
Definition py_get (l : list A) (i : nat) : result A :=
  match l !! i with
  | Some x => Ok x
  | None => Raise IndexError
  end.

(** [l.insert(i, x)]: an index past the end appends. *)
Definition py_insert (i : nat) (x : A) (l : list A) : list A :=
  take i l ++ x :: drop i l.

(** [l.pop()]: the list without its last element, and that element. *)
Definition py_pop (l : list A) : result (list A * A) :=
  match last l with
  | Some x => Ok (take (length l - 1) l, x)
  | None => Raise IndexError
  end.
End PyList.

(** ** Comparison of keys

    [<], [<=] and [==] as Python evaluates them on the keys of an index.
    Ordering two values of unrelated types raises [TypeError]; [==] never
    raises.  [a > b] on the built-in scalars is [b < a]. *)

Class PyOrd (K : Type) : Type := {
  py_lt : K → K → result bool;
  py_le : K → K → result bool;
  py_eq : K → K → bool
}.

Definition py_gt {K} `{PyOrd K} (a b : K) : result bool := py_lt b a.

#[export] Instance Z_PyOrd : PyOrd Z := {|
  py_lt a b := Ok (a <? b)%Z;
  py_le a b := Ok (a <=? b)%Z;
  py_eq a b := (a =? b)%Z
|}.

(** ** bisect.bisect_left

    The loop of the standard library: [lo, hi = 0, len(a)];
    [while lo < hi: mid = (lo + hi) // 2; if a[mid] < x: lo = mid + 1
    else: hi = mid].  The first argument bounds the number of rounds; it
    is [len(a)], which [hi - lo] never exceeds. *)

Section Bisect.
Context {K : Type} `{PyOrd K}.

Fixpoint bisect_loop (n : nat) (a : list K) (x : K) (lo hi : nat) : result nat :=
  match n with
  | O => Ok lo
  | S n' =>
      if lo <? hi then
        let mid := (lo + hi) / 2 in
        am ← py_get a mid;
        c ← py_lt am x;
        if c : bool then bisect_loop n' a x (mid + 1) hi
        else bisect_loop n' a x lo mid
      else Ok lo
  end.

Definition bisect_left (a : list K) (x : K) : result nat :=
  bisect_loop (length a) a x 0 (length a).

(** [a.index(x)]: the first position holding a value equal to [x];
    [None] stands for the [ValueError] that [search] catches. *)
Fixpoint py_index (a : list K) (x : K) : option nat :=
  match a with
  | [] => None
  | y :: a' => if py_eq y x then Some 0 else S <$> py_index a' x
  end.
End Bisect.

(** ** B+ tree nodes *)

Definition order : nat := 4.

Record leaf (K V : Type) : Type := Leaf {
  leaf_id : nat;
  leaf_keys : list K;
  leaf_values : list V;
  leaf_next : option nat
}.
Arguments Leaf {K V}.
Arguments leaf_id {K V}.
Arguments leaf_keys {K V}.
Arguments leaf_values {K V}.
Arguments leaf_next {K V}.

(** A [BPlusTreeNode] with [is_leaf] set uses [keys], [values] and [next];
    one without uses [keys] and [children]. *)
#[warnings="-register-all"]
Inductive BPlusTreeNode (K V : Type) : Type :=
| LeafNode (l : leaf K V)
| InnerNode (keys : list K) (children : list (BPlusTreeNode K V)).
Arguments LeafNode {K V}.
Arguments InnerNode {K V}.

(** [root] and the number the next leaf object is allocated under. *)
Record BPlusTree (K V : Type) : Type := Tree {
  root : BPlusTreeNode K V;
  fresh : nat
}.
Arguments Tree {K V}.
Arguments root {K V}.
Arguments fresh {K V}.

Section Nodes.
Context {K V : Type}.

Definition node_keys (n : BPlusTreeNode K V) : list K :=
  match n with
  | LeafNode l => leaf_keys l
  | InnerNode keys _ => keys
  end.

Definition node_children (n : BPlusTreeNode K V) : list (BPlusTreeNode K V) :=
  match n with
  | LeafNode _ => []
  | InnerNode _ children => children
  end.

(** The leaves of a subtree, left to right. *)
Fixpoint leaves (n : BPlusTreeNode K V) : list (leaf K V) :=
  match n with
  | LeafNode l => [l]
  | InnerNode _ children => concat (map leaves children)
  end.

Fixpoint height (n : BPlusTreeNode K V) : nat :=
  match n with
  | LeafNode _ => 0
  | InnerNode _ children => S (foldr Nat.max 0 (map height children))
  end.

(** Following a [next] handle. *)
Definition leaf_at (n : BPlusTreeNode K V) (id : nat) : option (leaf K V) :=
  snd <$> list_find (λ l, leaf_id l = id) (leaves n).

(** [BPlusTree(order=4)] *)
Definition empty_tree : BPlusTree K V :=
  Tree (LeafNode (Leaf 0 [] [] None)) 1.
End Nodes.

(** ** BPlusTree.search, BPlusTree.insert, BPlusTree.range_query *)

Section Operations.
Context {K V : Type} `{PyOrd K}.

Local Abbreviation node := (BPlusTreeNode K V).

(** [while not node.is_leaf: i = bisect.bisect_left(node.keys, key);
    node = node.children[i]] *)
Fixpoint descend (n : node) (key : K) : result (leaf K V) :=
  match n with
  | LeafNode l => Ok l
  | InnerNode keys children =>
      i ← bisect_left keys key;
      (fix child (cs : list node) (i : nat) : result (leaf K V) :=
         match cs, i with
         | [], _ => Raise IndexError
         | c :: _, O => descend c key
         | _ :: cs', S i' => child cs' i'
         end) children i
  end.

Definition search (t : BPlusTree K V) (key : K) : result (option V) :=
  l ← descend (root t) key;
  match py_index (leaf_keys l) key with
  | Some idx => v ← py_get (leaf_values l) idx; Ok (Some v)
  | None => Ok None
  end.

Definition mid : nat := order / 2.

(** [_split_child(parent, index)].  The state is the parent and the
    allocation counter; the new right sibling of a leaf is allocated
    under the counter. *)
Definition _split_child (parent : node) (index : nat) (fr : nat)
  : outcome (node * nat) unit :=
  match node_children parent !! index with
  | None => Raised IndexError (parent, fr)
  | Some (LeafNode full) =>
      let new_node :=
        Leaf fr (drop mid (leaf_keys full)) (drop mid (leaf_values full))
             (leaf_next full) in
      let full' :=
        Leaf (leaf_id full) (take mid (leaf_keys full))
             (take mid (leaf_values full)) (Some fr) in
      let children' := <[index := LeafNode full']> (node_children parent) in
      match leaf_keys new_node !! 0 with
      | None => Raised IndexError (InnerNode (node_keys parent) children', S fr)
      | Some k0 =>
          Done tt (InnerNode (py_insert index k0 (node_keys parent))
                             (py_insert (index + 1) (LeafNode new_node) children'),
                   S fr)
      end
  | Some (InnerNode fkeys fchildren) =>
      let new_node := InnerNode (drop mid fkeys) (drop mid fchildren) in
      match py_pop (take mid fkeys) with
      | Raise e =>
          Raised e (InnerNode (node_keys parent)
                      (<[index := InnerNode (take mid fkeys) (take mid fchildren)]>
                         (node_children parent)), fr)
      | Ok (fkeys', promoted_key) =>
          let full' := InnerNode fkeys' (take mid fchildren) in
          Done tt (InnerNode (py_insert index promoted_key (node_keys parent))
                             (py_insert (index + 1) new_node
                                (<[index := full']> (node_children parent))),
                   fr)
      end
  end.

(** [len(node.keys) >= self.order - 1] *)
Definition is_full (n : node) : bool := order - 1 <=? length (node_keys n).

(** A call [f(node.children[j], ...)] that mutates the child: the node
    holds the child as the call left it, also when the call raised. *)
Definition into_child (f : node → nat → outcome (node * nat) unit)
    (n : node) (fr : nat) (j : nat) : outcome (node * nat) unit :=
  match node_children n !! j with
  | None => Raised IndexError (n, fr)
  | Some cj =>
      match f cj fr with
      | Done _ (cj', fr') =>
          Done tt (InnerNode (node_keys n) (<[j := cj']> (node_children n)), fr')
      | Raised e (cj', fr') =>
          Raised e (InnerNode (node_keys n) (<[j := cj']> (node_children n)), fr')
      end
  end.

(** [_insert_non_full(node, key, value)].  The recursive call is on a
    child of the mutated node, so the recursion runs on fuel; [insert]
    passes more than the height of the tree. *)
Fixpoint _insert_non_full (fuel : nat) (n : node) (fr : nat) (key : K) (value : V)
  : outcome (node * nat) unit :=
  match fuel with
  | O => Raised Stuck (n, fr)
  | S fuel' =>
      match n with
      | LeafNode l =>
          match bisect_left (leaf_keys l) key with
          | Raise e => Raised e (n, fr)
          | Ok i =>
              Done tt (LeafNode (Leaf (leaf_id l)
                                      (py_insert i key (leaf_keys l))
                                      (py_insert i value (leaf_values l))
                                      (leaf_next l)), fr)
          end
      | InnerNode keys children =>
          match bisect_left keys key with
          | Raise e => Raised e (n, fr)
          | Ok i =>
              match children !! i with
              | None => Raised IndexError (n, fr)
              | Some c =>
                  let recurse cj fr1 := _insert_non_full fuel' cj fr1 key value in
                  if is_full c then
                    match _split_child n i fr with
                    | Raised e s => Raised e s
                    | Done _ (n1, fr1) =>
                        match py_get (node_keys n1) i ≫= py_gt key with
                        | Raise e => Raised e (n1, fr1)
                        | Ok c => into_child recurse n1 fr1 (if c : bool then i + 1 else i)
                        end
                    end
                  else into_child recurse n fr i
              end
          end
      end
  end.

(** The end of [insert]: [self._insert_non_full(self.root, key, value)] *)
Definition insert_at_root (r : node) (fr : nat) (key : K) (value : V)
  : outcome (BPlusTree K V) unit :=
  match _insert_non_full (S (height r)) r fr key value with
  | Done _ (r', fr') => Done tt (Tree r' fr')
  | Raised e (r', fr') => Raised e (Tree r' fr')
  end.

Definition insert (t : BPlusTree K V) (key : K) (value : V)
  : outcome (BPlusTree K V) unit :=
  if is_full (root t) then
    match _split_child (InnerNode [] [root t]) 0 (fresh t) with
    | Done _ (new_root, fr) => insert_at_root new_root fr key value
    | Raised e (new_root, fr) =>
        Raised e (Tree (default (root t) (node_children new_root !! 0)) fr)
    end
  else insert_at_root (root t) (fresh t) key value.

(** [range_query(min_key, max_key)].  [contents] reads the list object a
    value stands for. *)
Section RangeQuery.
Context {R : Type} (contents : V → list R).
Variables (t : BPlusTree K V) (min_key max_key : K).

(** The [for] loop over one leaf; the flag tells that [return results]
    was reached. *)
Fixpoint scan_keys (keys : list K) (i : nat) (values : list V) (results : list R)
  : result (list R * bool) :=
  match keys with
  | [] => Ok (results, false)
  | key :: keys' =>
      c1 ← py_le min_key key;
      c2 ← (if c1 : bool then py_le key max_key else Ok false);
      if c2 : bool then
        v ← py_get values i;
        scan_keys keys' (S i) values (results ++ contents v)
      else
        c3 ← py_gt key max_key;
        if c3 : bool then Ok (results, true)
        else scan_keys keys' (S i) values results
  end.

(** [while node: ...; node = node.next] *)
Fixpoint walk (fuel : nat) (l : leaf K V) (results : list R) : result (list R) :=
  match fuel with
  | O => Raise Stuck
  | S fuel' =>
      '(results', returned) ← scan_keys (leaf_keys l) 0 (leaf_values l) results;
      if returned : bool then Ok results'
      else match leaf_next l with
           | None => Ok results'
           | Some id =>
               match leaf_at (root t) id with
               | None => Raise Stuck
               | Some l' => walk fuel' l' results'
               end
           end
  end.

Definition range_query : result (list R) :=
  l ← descend (root t) min_key;
  walk (length (leaves (root t))) l [].
End RangeQuery.
End Operations.

(** ** Scalars

    A value of a row is an [int], a [float] or a [str].  A float is given
    by its IEEE value; a text by its UTF-8 bytes, whose order is the order
    of the code points. *)

Inductive scalar : Type :=
| VInt (z : Z)
| VFloat (f : spec_float)
| VText (s : string).

(** The exact value of a number: [m * 2 ^ e], an infinity, or no number. *)
Inductive number : Type :=
| NaN
| NegInf
| Finite (m e : Z)
| PosInf.

Definition number_of (v : scalar) : option number :=
  match v with
  | VInt z => Some (Finite z 0)
  | VFloat S754_nan => Some NaN
  | VFloat (S754_infinity s) => Some (if s then NegInf else PosInf)
  | VFloat (S754_zero _) => Some (Finite 0 0)
  | VFloat (S754_finite s m e) => Some (Finite (if s then Z.neg m else Z.pos m) e)
  | VText _ => None
  end.

(** Python compares an [int] with a [float] by their exact values. *)
Definition number_compare (a b : number) : option comparison :=
  match a, b with
  | NaN, _ | _, NaN => None
  | NegInf, NegInf | PosInf, PosInf => Some Eq
  | NegInf, _ | _, PosInf => Some Lt
  | _, NegInf | PosInf, _ => Some Gt
  | Finite m1 e1, Finite m2 e2 =>
      let e := Z.min e1 e2 in
      Some (m1 * 2 ^ (e1 - e) ?= m2 * 2 ^ (e2 - e))%Z
  end.

Definition scalar_lt (a b : scalar) : result bool :=
  match a, b with
  | VText s1, VText s2 => Ok (String.ltb s1 s2)
  | VText _, _ | _, VText _ => Raise TypeError
  | _, _ =>
      match number_of a, number_of b with
      | Some x, Some y =>
          Ok (match number_compare x y with Some Lt => true | _ => false end)
      | _, _ => Raise TypeError
      end
  end.

Definition scalar_le (a b : scalar) : result bool :=
  match a, b with
  | VText s1, VText s2 => Ok (String.leb s1 s2)
  | VText _, _ | _, VText _ => Raise TypeError
  | _, _ =>
      match number_of a, number_of b with
      | Some x, Some y =>
          Ok (match number_compare x y with Some Lt | Some Eq => true | _ => false end)
      | _, _ => Raise TypeError
      end
  end.

Definition scalar_eq (a b : scalar) : bool :=
  match a, b with
  | VText s1, VText s2 => String.eqb s1 s2
  | VText _, _ | _, VText _ => false
  | _, _ =>
      match number_of a, number_of b with
      | Some x, Some y =>
          match number_compare x y with Some Eq => true | _ => false end
      | _, _ => false
      end
  end.

#[export] Instance scalar_PyOrd : PyOrd scalar := {|
  py_lt := scalar_lt;
  py_le := scalar_le;
  py_eq := scalar_eq
|}.

(** ** Dictionaries

    A [dict] with text keys, in insertion order. *)

Definition dict (A : Type) : Type := list (string * A).

Section Dict.
Context {A : Type}.

(** [d.get(k)] *)
Fixpoint dict_get (k : string) (d : dict A) : option A :=
  match d with
  | [] => None
  | (k', v) :: d' => if String.eqb k' k then Some v else dict_get k d'
  end.

(** [k in d] *)
Definition dict_has (k : string) (d : dict A) : bool :=
  match dict_get k d with Some _ => true | None => false end.

(** [d[k] = v]: a key that is present keeps its place. *)
Fixpoint dict_set (k : string) (v : A) (d : dict A) : dict A :=
  match d with
  | [] => [(k, v)]
  | (k', v') :: d' =>
      if String.eqb k' k then (k, v) :: d' else (k', v') :: dict_set k v d'
  end.
End Dict.

(** ** Rows and tables *)

(** No operation modelled here writes into a row once it is built
    ([_update] alone does), so a row is given by its contents. *)
Definition row : Type := dict scalar.

(** [row.get(column) == value] *)
Definition holds (r : row) (column : string) (value : scalar) : bool :=
  match dict_get column r with
  | Some v => scalar_eq v value
  | None => false
  end.

Record column : Type := Column {
  col_name : string;
  col_type : string;
  is_primary : bool;
  is_unique : bool
}.

Record Table : Type := MkTable {
  name : string;
  columns : list column;
  rows : list row;
  primary_key : option string;
  unique_columns : gset string;
  next_id : Z
}.

(** [Table(name, columns, primary_key)] *)
Definition new_table (nm : string) (cols : list column) (pk : option string) : Table :=
  {| name := nm;
     columns := cols;
     rows := [];
     primary_key := pk;
     unique_columns :=
       foldl (λ s c, if is_unique c then s ∪ {[col_name c]} else s) ∅ cols;
     next_id := 1 |}.

(** ** WriteAheadLog *)

(** The [data] of an entry: [{'columns': columns}] for [CREATE_TABLE], the
    row for [INSERT]. *)
Inductive payload : Type :=
| PColumns (cols : list column)
| PRow (r : row).

Record WALEntry : Type := MkEntry {
  operation : string;
  entry_table : string;
  data : payload;
  timestamp : string;
  lsn : Z
}.

(** [wal_file] is the content of the file of that name: [None] while it
    does not exist, else its lines.  It is what a restart finds. *)
Record WriteAheadLog : Type := MkWal {
  wal_file : option (list WALEntry);
  entries : list WALEntry;
  lsn_counter : Z;
  checkpoint_lsn : Z
}.

(** [checkpoint()] *)
Definition checkpoint (w : WriteAheadLog) : WriteAheadLog :=
  {| wal_file := wal_file w;
     entries := entries w;
     lsn_counter := lsn_counter w;
     checkpoint_lsn := Z.of_nat (length (entries w)) |}.

(** [append(operation, table, data)]; [now] is the reading of the clock. *)
Definition append (w : WriteAheadLog) (now : string)
    (op table : string) (d : payload) : Z * WriteAheadLog :=
  let entry := MkEntry op table d now (lsn_counter w) in
  let w1 :=
    {| wal_file := Some (default [] (wal_file w) ++ [entry]);
       entries := entries w ++ [entry];
       lsn_counter := lsn_counter w + 1;
       checkpoint_lsn := checkpoint_lsn w |} in
  (lsn entry,
   if (100 <? Z.of_nat (length (entries w1)) - checkpoint_lsn w1)%Z
   then checkpoint w1 else w1).

(** [_load_wal()]: every line becomes an entry again, stamped with the
    time of loading. *)
Definition _load_wal (w : WriteAheadLog) (now : string) : WriteAheadLog :=
  match wal_file w with
  | None => w
  | Some lines =>
      foldl (λ w line,
               {| wal_file := wal_file w;
                  entries := entries w ++
                    [MkEntry (operation line) (entry_table line) (data line) now (lsn line)];
                  lsn_counter := Z.max (lsn_counter w) (lsn line + 1);
                  checkpoint_lsn := checkpoint_lsn w |})
            w lines
  end.

(** [WriteAheadLog()] over the file left by an earlier process. *)
Definition open_wal (file : option (list WALEntry)) (now : string) : WriteAheadLog :=
  _load_wal {| wal_file := file; entries := []; lsn_counter := 0; checkpoint_lsn := 0 |} now.

(** [clear()] *)
Definition clear (w : WriteAheadLog) : WriteAheadLog :=
  {| wal_file := None;
     entries := [];
     lsn_counter := lsn_counter w;
     checkpoint_lsn := checkpoint_lsn w |}.

(** ** Indexes

    An entry of [self.indexes].  The values of the tree are bucket
    objects: [buckets] holds the list objects made for this index, and a
    value of the tree is a position in it. *)
Record Index : Type := MkIndex {
  idx_table : string;
  idx_column : string;
  tree : BPlusTree scalar nat;
  buckets : list (list row)
}.

Definition bucket (bk : list (list row)) (ref : nat) : list row :=
  default [] (bk !! ref).

(** [existing = tree.search(value) or []; existing.append(row);
    tree.insert(value, existing)] *)
Definition add_row (tr : BPlusTree scalar nat) (bk : list (list row))
    (value : scalar) (r : row)
  : outcome (BPlusTree scalar nat * list (list row)) unit :=
  match search tr value with
  | Raise e => Raised e (tr, bk)
  | Ok found =>
      let '(existing, bk1) :=
        match found with
        | Some ref =>
            match bucket bk ref with
            | [] => (length bk, bk ++ [[]])
            | _ :: _ => (ref, bk)
            end
        | None => (length bk, bk ++ [[]])
        end in
      let bk2 := alter (λ b, b ++ [r]) existing bk1 in
      match insert tr value existing with
      | Done _ tr' => Done tt (tr', bk2)
      | Raised e tr' => Raised e (tr', bk2)
      end
  end.

(** The loop of [_create_index] over [table.rows]. *)
Fixpoint scan_rows (tr : BPlusTree scalar nat) (bk : list (list row))
    (column_name : string) (rs : list row)
  : result (BPlusTree scalar nat * list (list row)) :=
  match rs with
  | [] => Ok (tr, bk)
  | r :: rs' =>
      match dict_get column_name r with
      | None => scan_rows tr bk column_name rs'
      | Some value =>
          match add_row tr bk value r with
          | Done _ (tr', bk') => scan_rows tr' bk' column_name rs'
          | Raised e _ => Raise e
          end
      end
  end.

(** ** StorageManager *)

Record table_image : Type := MkImage {
  img_columns : list column;
  img_rows : list row;
  img_primary_key : option string;
  img_unique_columns : list string;
  img_next_id : Z
}.

(** The snapshot and the content of the snapshot file.  [json.dump] and
    [json.load] are taken to return what was written: the values stored
    are dictionaries with text keys, lists, texts, numbers, booleans and
    [None], which JSON carries unchanged. *)
Record snapshot : Type := MkSnapshot {
  snap_timestamp : string;
  snap_tables : dict table_image
}.

(** The entry of [snapshot['tables']] for a table. *)
Definition image_of (t : Table) : table_image :=
  {| img_columns := columns t;
     img_rows := rows t;
     img_primary_key := primary_key t;
     img_unique_columns := elements (unique_columns t);
     img_next_id := next_id t |}.

(** [create_snapshot(tables)]: the snapshot returned, which is also the
    new content of the file. *)
Definition storage_create_snapshot (now : string) (tbls : dict Table) : snapshot :=
  {| snap_timestamp := now;
     snap_tables := foldl (λ acc '(nm, t), dict_set nm (image_of t) acc) [] tbls |}.

(** ** PaymentRDBMS *)

Record PaymentRDBMS : Type := MkEngine {
  tables : dict Table;
  indexes : dict Index;
  wal : WriteAheadLog;
  storage : option snapshot
}.

Definition set_tables (e : PaymentRDBMS) (ts : dict Table) : PaymentRDBMS :=
  {| tables := ts; indexes := indexes e; wal := wal e; storage := storage e |}.
Definition set_indexes (e : PaymentRDBMS) (ix : dict Index) : PaymentRDBMS :=
  {| tables := tables e; indexes := ix; wal := wal e; storage := storage e |}.
Definition set_wal (e : PaymentRDBMS) (w : WriteAheadLog) : PaymentRDBMS :=
  {| tables := tables e; indexes := indexes e; wal := w; storage := storage e |}.
Definition set_storage (e : PaymentRDBMS) (f : option snapshot) : PaymentRDBMS :=
  {| tables := tables e; indexes := indexes e; wal := wal e; storage := f |}.

(** [f"{table_name}_{column_name}_idx"] *)
Definition default_index_key (table_name column_name : string) : string :=
  (table_name ++ "_" ++ column_name ++ "_idx")%string.

(** Python's truth value of a text. *)
Definition truthy (s : string) : bool := negb (String.eqb s "").

(** [_create_index(table_name, column_name, index_name=None)] *)
Definition _create_index (e : PaymentRDBMS) (table_name column_name : string)
    (index_name : option string) : outcome PaymentRDBMS unit :=
  let key :=
    match index_name with
    | Some nm => if truthy nm then nm else default_index_key table_name column_name
    | None => default_index_key table_name column_name
    end in
  let built :=
    match dict_get table_name (tables e) with
    | Some table => scan_rows empty_tree [] column_name (rows table)
    | None => Ok (empty_tree, [])
    end in
  match built with
  | Raise ex => Raised ex e
  | Ok (tr, bk) =>
      Done tt (set_indexes e
                 (dict_set key (MkIndex table_name column_name tr bk) (indexes e)))
  end.

(** What a statement returns: the message of [CREATE TABLE], and
    [inserted_id] of [INSERT]. *)
Inductive response : Type :=
| TableCreated (table : string)
| IndexCreated (index : string)
| RowInserted (inserted_id : option scalar).

(** The loop of [_create_table] over the parsed column definitions; it
    carries [primary_key]. *)
Fixpoint create_table_columns (e : PaymentRDBMS) (table_name : string)
    (defs : list column) (pk : option string)
  : outcome PaymentRDBMS (option string) :=
  match defs with
  | [] => Done pk e
  | c :: defs' =>
      match (if is_primary c then _create_index e table_name (col_name c) None
             else Done tt e) with
      | Raised ex e1 => Raised ex e1
      | Done _ e1 =>
          let pk1 := if is_primary c then Some (col_name c) else pk in
          match (if is_unique c then _create_index e1 table_name (col_name c) None
                 else Done tt e1) with
          | Raised ex e2 => Raised ex e2
          | Done _ e2 => create_table_columns e2 table_name defs' pk1
          end
      end
  end.

(** [_create_table], from the table name and the column definitions the
    statement parses into. *)
Definition _create_table (e : PaymentRDBMS) (now : string)
    (table_name : string) (defs : list column)
  : outcome PaymentRDBMS response :=
  match create_table_columns e table_name defs None with
  | Raised ex e1 => Raised ex e1
  | Done pk e1 =>
      let table := new_table table_name defs pk in
      let e2 := set_tables e1 (dict_set table_name table (tables e1)) in
      let '(_, w) := append (wal e2) now "CREATE_TABLE" table_name (PColumns defs) in
      Done (TableCreated table_name) (set_wal e2 w)
  end.

(** The unique-constraint check of [_insert]: the first unique column, in
    the order the set is iterated, under which an existing row holds the
    value of the new row. *)
Fixpoint find_duplicate (unique_cols : list string) (r : row) (existing : list row)
  : option string :=
  match unique_cols with
  | [] => None
  | unique_col :: rest =>
      match dict_get unique_col r with
      | Some v =>
          if existsb (λ existing_row, holds existing_row unique_col v) existing
          then Some unique_col
          else find_duplicate rest r existing
      | None => find_duplicate rest r existing
      end
  end.

(** The loop of [_insert] over [self.indexes.items()]. *)
Fixpoint update_indexes (ix : dict Index) (table_name : string) (r : row)
  : outcome (dict Index) unit :=
  match ix with
  | [] => Done tt []
  | (index_key, index_data) :: ix' =>
      let rest (d : Index) :=
        match update_indexes ix' table_name r with
        | Done _ ix'' => Done tt ((index_key, d) :: ix'')
        | Raised ex ix'' => Raised ex ((index_key, d) :: ix'')
        end in
      if String.eqb (idx_table index_data) table_name then
        match dict_get (idx_column index_data) r with
        | None => rest index_data
        | Some value =>
            match add_row (tree index_data) (buckets index_data) value r with
            | Raised ex (tr, bk) =>
                Raised ex ((index_key,
                            MkIndex (idx_table index_data) (idx_column index_data) tr bk)
                           :: ix')
            | Done _ (tr, bk) =>
                rest (MkIndex (idx_table index_data) (idx_column index_data) tr bk)
            end
        end
      else rest index_data
  end.

Definition with_next_id (t : Table) (n : Z) : Table :=
  {| name := name t; columns := columns t; rows := rows t;
     primary_key := primary_key t; unique_columns := unique_columns t;
     next_id := n |}.

Definition with_rows (t : Table) (rs : list row) : Table :=
  {| name := name t; columns := columns t; rows := rs;
     primary_key := primary_key t; unique_columns := unique_columns t;
     next_id := next_id t |}.

(** The start of the new row in [_insert]: [row = {}], and the key the
    table assigns when it has a primary key that the statement does not
    name; with it the table, whose counter the assignment advances. *)
Definition auto_key (table : Table) (cols : list string) : row * Table :=
  match primary_key table with
  | Some pk =>
      if truthy pk && negb (existsb (String.eqb pk) cols)
      then ([(pk, VInt (next_id table))], with_next_id table (next_id table + 1))
      else ([], table)
  | None => ([], table)
  end.

(** [for col, val in zip(columns, values): row[col] = val] *)
Definition fill_row (row0 : row) (cols : list string) (values : list scalar) : row :=
  foldl (λ r '(col, val), dict_set col val r) row0 (zip cols values).

(** [_insert], from the table name, the column names and the parsed
    values of the statement. *)
Definition _insert (e : PaymentRDBMS) (now : string)
    (table_name : string) (cols : list string) (values : list scalar)
  : outcome PaymentRDBMS response :=
  match dict_get table_name (tables e) with
  | None => Raised (ValueError (TableDoesNotExist table_name)) e
  | Some table =>
      let '(row0, table1) := auto_key table cols in
      let e1 := set_tables e (dict_set table_name table1 (tables e)) in
      let r := fill_row row0 cols values in
      match find_duplicate (elements (unique_columns table1)) r (rows table1) with
      | Some unique_col => Raised (ValueError (DuplicateValue unique_col)) e1
      | None =>
          let table2 := with_rows table1 (rows table1 ++ [r]) in
          let e2 := set_tables e1 (dict_set table_name table2 (tables e1)) in
          match update_indexes (indexes e2) table_name r with
          | Raised ex ix => Raised ex (set_indexes e2 ix)
          | Done _ ix =>
              let e3 := set_indexes e2 ix in
              let '(_, w) := append (wal e3) now "INSERT" table_name (PRow r) in
              Done (RowInserted (primary_key table2 ≫= λ pk, dict_get pk r))
                   (set_wal e3 w)
          end
      end
  end.

(** The full scan: [[row for row in rows if row.get(column) == value]] *)
Definition table_scan (rs : list row) (col : string) (value : scalar) : list row :=
  filter (λ r, holds r col value = true) rs.

(** [_filter_rows(table, rows, where_clause)], from the column and the
    value the clause parses into. *)
Definition _filter_rows (e : PaymentRDBMS) (table : Table) (rs : list row)
    (col : string) (value : scalar) : result (list row) :=
  match dict_get (default_index_key (name table) col) (indexes e) with
  | Some index_data =>
      results ← search (tree index_data) value;
      Ok (match results with
          | Some ref => bucket (buckets index_data) ref
          | None => []
          end)
  | None => Ok (table_scan rs col value)
  end.

(** The body of the loop of [_load_from_snapshot] *)
Fixpoint rebuild_indexes (e : PaymentRDBMS) (table_name : string) (cols : list string)
  : outcome PaymentRDBMS unit :=
  match cols with
  | [] => Done tt e
  | col :: cols' =>
      match _create_index e table_name col None with
      | Raised ex e1 => Raised ex e1
      | Done _ e1 => rebuild_indexes e1 table_name cols'
      end
  end.

(** The table [_load_from_snapshot] makes of an entry: the constructor,
    then [rows], [unique_columns] and [next_id] assigned. *)
Definition table_of_image (nm : string) (table_data : table_image) : Table :=
  let table := new_table nm (img_columns table_data) (img_primary_key table_data) in
  {| name := name table;
     columns := columns table;
     rows := img_rows table_data;
     primary_key := primary_key table;
     unique_columns := list_to_set (img_unique_columns table_data);
     next_id := img_next_id table_data |}.

(** The columns it then builds an index for: the primary key, if Python
    takes it for true, and the unique columns in the order the set is
    iterated. *)
Definition index_columns (table : Table) : list string :=
  match primary_key table with
  | Some pk => if truthy pk then [pk] else []
  | None => []
  end ++ elements (unique_columns table).

Fixpoint load_tables (e : PaymentRDBMS) (images : dict table_image)
  : outcome PaymentRDBMS unit :=
  match images with
  | [] => Done tt e
  | (nm, table_data) :: images' =>
      let table := table_of_image nm table_data in
      let e1 := set_tables e (dict_set nm table (tables e)) in
      match rebuild_indexes e1 nm (index_columns table) with
      | Raised ex e2 => Raised ex e2
      | Done _ e2 => load_tables e2 images'
      end
  end.

(** [_load_from_snapshot()] *)
Definition _load_from_snapshot (e : PaymentRDBMS) : outcome PaymentRDBMS unit :=
  match storage e with
  | None => Done tt e
  | Some snap => load_tables e (snap_tables snap)
  end.

(** [PaymentRDBMS()], over the files left by an earlier process. *)
Definition new_engine (wal_lines : option (list WALEntry)) (snap : option snapshot)
    (now : string) : outcome PaymentRDBMS unit :=
  _load_from_snapshot
    {| tables := []; indexes := []; wal := open_wal wal_lines now; storage := snap |}.

(** [create_snapshot()] *)
Definition create_snapshot (e : PaymentRDBMS) (now : string) : snapshot * PaymentRDBMS :=
  let snap := storage_create_snapshot now (tables e) in
  (snap, set_storage e (Some snap)).

(** [_create_index_sql], from the names the statement parses into. *)
Definition _create_index_sql (e : PaymentRDBMS)
    (index_name table_name column_name : string) : outcome PaymentRDBMS response :=
  match _create_index e table_name column_name (Some index_name) with
  | Raised ex e1 => Raised ex e1
  | Done _ e1 => Done (IndexCreated index_name) e1
  end.

(** Three of the statements of [execute], as it receives them once
    parsed: [CREATE TABLE], [CREATE INDEX] and [INSERT INTO], and
    [execute] on them.  [UPDATE] and [DELETE FROM] have no constructor
    here; [SELECT], [SHOW TABLES] and [DESCRIBE], which leave the engine
    as it is, are functions of their own. *)
Inductive statement : Type :=
| CreateTable (table_name : string) (defs : list column)
| CreateIndex (index_name table_name column_name : string)
| InsertInto (table_name : string) (cols : list string) (values : list scalar).

Definition execute (e : PaymentRDBMS) (now : string) (st : statement)
  : outcome PaymentRDBMS response :=
  match st with
  | CreateTable table_name defs => _create_table e now table_name defs
  | CreateIndex index_name table_name column_name =>
      _create_index_sql e index_name table_name column_name
  | InsertInto table_name cols values => _insert e now table_name cols values
  end.

Definition state_of {S A : Type} (o : outcome S A) : S :=
  match o with
  | Done _ s => s
  | Raised _ s => s
  end.

(** The engine after a sequence of statements; a statement that raises is
    answered with its error and the engine goes on from the state the
    statement left. *)
Definition run (e : PaymentRDBMS) (now : string) (sts : list statement) : PaymentRDBMS :=
  foldl (λ e st, state_of (execute e now st)) e sts.

(** * Definitions used by the statements of the properties *)

(** ** Sample data *)

Definition empty_engine : PaymentRDBMS :=
  {| tables := []; indexes := []; wal := open_wal None "09:00"; storage := None |}.

Definition customers_columns : list column :=
  [Column "id" "INTEGER" true false; Column "email" "TEXT" false true].

Definition four_customers : list statement :=
  [CreateTable "customers" customers_columns;
   InsertInto "customers" ["email"] [VText "alice@example.com"];
   InsertInto "customers" ["email"] [VText "bob@example.com"];
   InsertInto "customers" ["email"] [VText "charlie@example.com"];
   InsertInto "customers" ["email"] [VText "dave@example.com"]].

Definition customer (id : Z) (email : string) : row :=
  [("id", VInt id); ("email", VText email)].

(** The row [_insert] builds and checks against the unique columns. *)
Definition new_row (table : Table) (cols : list string) (values : list scalar) : row :=
  fill_row (fst (auto_key table cols)) cols values.

(** What [_create_index] builds for a column when it is called without an
    index name: the scan of the rows of the table registered under the
    name, or an empty tree when none is. *)
Definition scanned_index (tbls : dict Table) (table_name col : string) : result Index :=
  match dict_get table_name tbls with
  | Some table =>
      '(tr, bk) ← scan_rows empty_tree [] col (rows table);
      Ok (MkIndex table_name col tr bk)
  | None => Ok (MkIndex table_name col empty_tree [])
  end.

(** A column definition that [_create_table] builds an index for. *)
Definition indexed (c : column) : bool := is_primary c || is_unique c.

(** The primary key [_create_table] ends with: the last column so flagged. *)
Definition declared_primary_key (defs : list column) (pk : option string) : option string :=
  foldl (λ pk c, if is_primary c then Some (col_name c) else pk) pk defs.

(** A table holding a text and a number under one column. *)
Definition mixed_notes : list statement :=
  [CreateTable "notes" [Column "body" "TEXT" false false];
   InsertInto "notes" ["body"] [VText "x"];
   InsertInto "notes" ["body"] [VInt 5]].

(** A dictionary holds a key once. *)
Definition dict_wf {A : Type} (d : dict A) : Prop := NoDup (d.*1).

(** A table with a unique column that holds a text and a number: the
    second insert raises [TypeError] out of the index, after the row is
    appended. *)
Definition mixed_unique_notes : list statement :=
  [CreateTable "notes" [Column "body" "TEXT" false true];
   InsertInto "notes" ["body"] [VText "x"];
   InsertInto "notes" ["body"] [VInt 5]].

(** ** Histories of a log

    The calls made on a [WriteAheadLog] over its life, a restart of the
    process among them: the new process opens the file the old one left. *)
Inductive wal_call : Type :=
| Append (op table : string) (d : payload)
| Clear
| Restart.

Definition wal_step (w : WriteAheadLog) (now : string) (c : wal_call)
  : option Z * WriteAheadLog :=
  match c with
  | Append op table d => let '(l, w') := append w now op table d in (Some l, w')
  | Clear => (None, clear w)
  | Restart => (None, open_wal (wal_file w) now)
  end.

(** The LSNs the appends of a history return, in order, and the log it
    leaves. *)
Fixpoint wal_run (w : WriteAheadLog) (now : string) (cs : list wal_call)
  : list Z * WriteAheadLog :=
  match cs with
  | [] => ([], w)
  | c :: cs' =>
      let '(l, w') := wal_step w now c in
      let '(ls, w'') := wal_run w' now cs' in
      (match l with Some l => l :: ls | None => ls end, w'')
  end.

(** No restart finds the file removed by [clear()]: between a [Clear] and
    the next [Restart] there is an [Append].  [cleared] tells that the
    last call other than a restart was a [Clear]. *)
Fixpoint appends_before_restarts (cleared : bool) (cs : list wal_call) : bool :=
  match cs with
  | [] => true
  | Append _ _ _ :: cs' => appends_before_restarts false cs'
  | Clear :: cs' => appends_before_restarts true cs'
  | Restart :: cs' => negb cleared && appends_before_restarts cleared cs'
  end.

(** The largest LSN among persisted lines. *)
Definition max_lsn (lines : list WALEntry) : option Z :=
  foldr (λ line acc, Some (match acc with
                           | Some m => Z.max (lsn line) m
                           | None => lsn line
                           end)) None lines.

(** The counter a process starts with over persisted lines. *)
Definition resume_point (lines : list WALEntry) : Z :=
  foldl (λ c line, Z.max c (lsn line + 1)) 0%Z lines.

(** What holds of a log between the calls of a history. *)
Record wal_inv (cleared : bool) (w : WriteAheadLog) : Prop := {
  inv_lines : Forall (λ line, 0 ≤ lsn line)%Z (default [] (wal_file w));
  inv_bound : (resume_point (default [] (wal_file w)) ≤ lsn_counter w)%Z;
  inv_synced : cleared = false → lsn_counter w = resume_point (default [] (wal_file w))
}.

(** ** Sample index *)

(** Four rows under the keys 1 to 4, and a fifth under the key 3. *)
Definition numbered (n : Z) (label : string) : row :=
  [("n", VInt n); ("label", VText label)].

Definition four_rows : list row :=
  [numbered 1 "a"; numbered 2 "b"; numbered 3 "c"; numbered 4 "d"].

(** ** Keys in a total order

    The index of a column whose values are all numbers of one kind, or all
    texts, compares keys that are totally ordered: no comparison raises,
    [<=] is the negation of the converse of [<], and [==] is identity. *)

Section KeyOrder.
Context {K : Type} `{PyOrd K}.

Definition ltK (a b : K) : bool :=
  match py_lt a b with
  | Ok true => true
  | _ => false
  end.

Definition klt (a b : K) : Prop := ltK a b = true.
Definition kle (a b : K) : Prop := ltK b a = false.

(** The order of the keys of a node: strict when no key is inserted
    twice, else not. *)
Definition rel (strict : bool) (a b : K) : Prop :=
  if strict then klt a b else kle a b.

Definition above (lo : option K) (k : K) : Prop := from_option (λ l, kle l k) True lo.
Definition past (lo : option K) (k : K) : Prop := from_option (λ l, klt l k) True lo.
Definition rel_lo (strict : bool) (lo : option K) (k : K) : Prop :=
  from_option (λ l, rel strict l k) True lo.
Definition rel_hi (strict : bool) (k : K) (hi : option K) : Prop :=
  from_option (λ h, rel strict k h) True hi.

Class TotalKeys : Prop := {
  lt_ok : ∀ a b : K, py_lt a b = Ok (ltK a b);
  le_ok : ∀ a b : K, py_le a b = Ok (negb (ltK b a));
  eq_ok : ∀ a b : K, py_eq a b = true ↔ a = b;
  ltK_irrefl : ∀ a : K, ltK a a = false;
  ltK_trans : ∀ a b c : K, klt a b → klt b c → klt a c;
  ltK_total : ∀ a b : K, kle a b → kle b a → a = b
}.
End KeyOrder.
Arguments TotalKeys K {_}.

(** ** The shape of a tree *)

Section Shape.
Context {K V : Type} `{PyOrd K}.

(** [wf strict h lo hi n]: [n] is a subtree of height [h] whose keys lie
    between [lo] and [hi].  Every node has at most [order - 1] keys, in
    order; a leaf has a value for each key; a node that is not a leaf has
    one child more than keys, the keys of the child before a key are
    below it and those of the child after it are not. *)
Inductive wf (strict : bool) : nat → option K → option K → BPlusTreeNode K V → Prop :=
| wf_leaf lo hi l :
    length (leaf_keys l) = length (leaf_values l) →
    length (leaf_keys l) ≤ order - 1 →
    StronglySorted (rel strict) (leaf_keys l) →
    Forall (λ k, above lo k ∧ rel_hi strict k hi) (leaf_keys l) →
    wf strict 0 lo hi (LeafNode l)
| wf_inner h lo hi keys children :
    length keys ≤ order - 1 →
    wf_kids strict h lo hi keys children →
    wf strict (S h) lo hi (InnerNode keys children)
with wf_kids (strict : bool)
  : nat → option K → option K → list K → list (BPlusTreeNode K V) → Prop :=
| wf_kids_last h lo hi c :
    wf strict h lo hi c →
    wf_kids strict h lo hi [] [c]
| wf_kids_cons h lo hi k ks c cs :
    rel_lo strict lo k →
    rel_hi strict k hi →
    wf strict h lo (Some k) c →
    wf_kids strict h (Some k) hi ks cs →
    wf_kids strict h lo hi (k :: ks) (c :: cs).

(** The key-value pairs of the leaves, left to right. *)
Definition leaf_pairs (l : leaf K V) : list (K * V) :=
  zip (leaf_keys l) (leaf_values l).

Definition pairs (n : BPlusTreeNode K V) : list (K * V) :=
  leaves n ≫= leaf_pairs.

(** All the nodes of a subtree, and all the keys in them. *)
Fixpoint nodes (n : BPlusTreeNode K V) : list (BPlusTreeNode K V) :=
  n :: match n with
       | LeafNode _ => []
       | InnerNode _ children => concat (map nodes children)
       end.

Definition keys_of (n : BPlusTreeNode K V) : list K := nodes n ≫= node_keys.

(** The leaf chain: every leaf of the list points to the one after it,
    and the last one to [exit]. *)
Fixpoint chained (ls : list (leaf K V)) (exit : option nat) : Prop :=
  match ls with
  | [] => True
  | l :: ls' =>
      leaf_next l = match ls' with
                    | [] => exit
                    | l' :: _ => Some (leaf_id l')
                    end ∧
      chained ls' exit
  end.

Definition first_id (ls : list (leaf K V)) : option nat := leaf_id <$> head ls.

(** The bounds of a child: the key before it, the key after it. *)
Definition bound_before (lo : option K) (KA : list K) : option K :=
  match last KA with
  | Some k => Some k
  | None => lo
  end.

Definition bound_after (KB : list K) (hi : option K) : option K :=
  match KB with
  | k :: _ => Some k
  | [] => hi
  end.

(** What an insertion does to the leaves of a subtree: the first leaf
    keeps its handle, the chain runs through the new leaves and leaves
    the subtree where it did, and the handles of the new leaves are those
    allocated meanwhile. *)
Record grows (fr fr' : nat) (ls ls' : list (leaf K V)) : Prop := {
  grows_fresh : fr ≤ fr';
  grows_first : first_id ls' = first_id ls;
  grows_chain : ∀ exit, chained ls exit → chained ls' exit;
  grows_ids : leaf_id <$> ls' ≡ₚ (leaf_id <$> ls) ++ seq fr (fr' - fr)
}.

Record tree_inv (strict : bool) (t : BPlusTree K V) : Prop := {
  inv_wf : ∃ h, wf strict h None None (root t);
  inv_chain : chained (leaves (root t)) None;
  inv_ids : NoDup (leaf_id <$> leaves (root t));
  inv_fresh : Forall (λ l, leaf_id l < fresh t) (leaves (root t))
}.

(** A pair put in its place among pairs in key order: before the first
    pair whose key is not below its own. *)
Fixpoint ins_pair (k : K) (v : V) (es : list (K * V)) : list (K * V) :=
  match es with
  | [] => [(k, v)]
  | e :: es' => if ltK e.1 k then e :: ins_pair k v es' else (k, v) :: es
  end.

(** What [_insert_non_full] leaves of a subtree. *)
Record inserted (strict : bool) (h : nat) (lo hi : option K) (k : K) (v : V)
    (n : BPlusTreeNode K V) (fr : nat) (n' : BPlusTreeNode K V) (fr' : nat) : Prop := {
  ins_wf : wf strict h lo hi n';
  ins_pairs : pairs n' = ins_pair k v (pairs n);
  ins_grows : grows fr fr' (leaves n) (leaves n');
  ins_keys : ∀ x, x ∈ keys_of n' → x = k ∨ x ∈ keys_of n
}.

(** The pairs inserted, in key order. *)
Definition sort_pairs (ops : list (K * V)) : list (K * V) :=
  foldl (λ es '(k, v), ins_pair k v es) [] ops.

(** The tree a sequence of inserts builds. *)
Definition build (ops : list (K * V)) : outcome (BPlusTree K V) unit :=
  foldl (λ o '(k, v),
           match o with
           | Done _ t => insert t k v
           | Raised e t => Raised e t
           end)
        (Done tt empty_tree) ops.

(** The rows of the pairs whose key lies within the bounds. *)
Definition select {R : Type} (contents : V → list R) (min_key max_key : K)
    (es : list (K * V)) : list R :=
  es ≫= λ e, if negb (ltK e.1 min_key) && negb (ltK max_key e.1)
             then contents e.2 else [].
End Shape.

(** * The exceptions of the tree operations *)

Definition is_tree_exn (ex : exn) : bool :=
  match ex with
  | TypeError | IndexError | Stuck => true
  | _ => false
  end.

(** * Induction on nodes *)

Section NodeInduction.
Context {K V : Type}.
Variable P : BPlusTreeNode K V → Prop.
Hypothesis P_leaf : ∀ l, P (LeafNode l).
Hypothesis P_inner : ∀ keys children, Forall P children → P (InnerNode keys children).

Fixpoint node_induction (n : BPlusTreeNode K V) : P n :=
  match n with
  | LeafNode l => P_leaf l
  | InnerNode keys children =>
      P_inner keys children
        ((fix all (cs : list (BPlusTreeNode K V)) : Forall P cs :=
            match cs with
            | [] => @List.Forall_nil _ P
            | c :: cs' => @List.Forall_cons _ P c cs' (node_induction c) (all cs')
            end) children)
  end.
End NodeInduction.

(** * The statements that read the engine *)

(** ** _select *)

(** The column list of a [SELECT]: [*], or the names between the commas. *)
Inductive selector : Type :=
| Star
| Cols (select_cols : list string).

(** A row of a result: a column that the row of the table lacks is there
    with [None]. *)
Definition selected_row : Type := dict (option scalar).

(** What [_select] and [_select_join] return: [rows] and [columns]. *)
Record selection : Type := MkSelection {
  sel_rows : list selected_row;
  sel_columns : list string
}.

(** A row of a table as a row of a result. *)
Definition as_selected (r : row) : selected_row := prod_map id Some <$> r.

(** [{col: row.get(col) for col in select_cols}] *)
Definition project {A : Type} (get : string → A → option scalar)
    (select_cols : list string) (r : A) : selected_row :=
  foldl (λ d col, dict_set col (get col r) d) [] select_cols.

(** [_select] without [JOIN], from the column list, the table name and
    the column and value of the [WHERE] clause, if the statement has
    one. *)
Definition _select (e : PaymentRDBMS) (cols : selector) (table_name : string)
    (where_clause : option (string * scalar)) : result selection :=
  match dict_get table_name (tables e) with
  | None => Raise (ValueError (TableDoesNotExist table_name))
  | Some table =>
      rs ← match where_clause with
           | Some (col, value) => _filter_rows e table (rows table) col value
           | None => Ok (rows table)
           end;
      Ok (match cols with
          | Star =>
              {| sel_rows := as_selected <$> rs;
                 sel_columns := col_name <$> columns table |}
          | Cols select_cols =>
              {| sel_rows := project dict_get select_cols <$> rs;
                 sel_columns := select_cols |}
          end)
  end.

(** ** _select_join *)

(** [row1.get(col1) == row2.get(col2)]: [None] equals [None] alone. *)
Definition get_eq (a b : option scalar) : bool :=
  match a, b with
  | Some x, Some y => scalar_eq x y
  | None, None => true
  | _, _ => false
  end.

(** The characters [.], ['] and the double quote, by their codes. *)
Definition dot : Ascii.ascii := Ascii.ascii_of_nat 46.
Definition single_quote : Ascii.ascii := Ascii.ascii_of_nat 39.
Definition double_quote : Ascii.ascii := Ascii.ascii_of_nat 34.

(** [s.split('.')[-1]]: what follows the last dot; [cur] is what was read
    since the last dot. *)
Fixpoint last_segment (cur s : string) : string :=
  match s with
  | EmptyString => cur
  | String c s' =>
      if Ascii.eqb c dot then last_segment EmptyString s'
      else last_segment (cur ++ String c EmptyString) s'
  end.

(** [for k, v in row.items(): joined_row[f"{table_name}.{k}"] = v] *)
Definition prefixed (table_name : string) (r : row) (joined_row : row) : row :=
  foldl (λ j '(k, v), dict_set (table_name ++ "." ++ k)%string v j) joined_row r.

Definition joined (table1_name table2_name : string) (row1 row2 : row) : row :=
  prefixed table2_name row2 (prefixed table1_name row1 []).

(** The nested loop. *)
Definition nested_loop_join (table1_name table2_name col1 col2 : string)
    (rows1 rows2 : list row) : list row :=
  row1 ← rows1;
  row2 ← rows2;
  if get_eq (dict_get col1 row1) (dict_get col2 row2)
  then [joined table1_name table2_name row1 row2] else [].

(** [_select_join], from the groups of the match.  It raises one
    exception, the [ValueError] of a table that does not exist, for which
    [None] stands. *)
Definition _select_join (e : PaymentRDBMS) (cols : selector)
    (table1_name table2_name join_col1 join_col2 : string) : option selection :=
  match dict_get table1_name (tables e), dict_get table2_name (tables e) with
  | Some table1, Some table2 =>
      let col1 := last_segment EmptyString join_col1 in
      let col2 := last_segment EmptyString join_col2 in
      let result :=
        nested_loop_join table1_name table2_name col1 col2 (rows table1) (rows table2) in
      Some (match cols with
            | Star =>
                {| sel_rows := as_selected <$> result;
                   sel_columns := match result with
                                  | first :: _ => first.*1
                                  | [] => []
                                  end |}
            | Cols select_cols =>
                {| sel_rows := project dict_get select_cols <$> result;
                   sel_columns := select_cols |}
            end)
  | _, _ => None
  end.

(** ** _show_tables, _describe, get_stats *)

(** [list(self.tables.keys())] *)
Definition _show_tables (e : PaymentRDBMS) : list string := (tables e).*1.

(** [_describe], from the table name: [columns] and [primary_key]. *)
Definition _describe (e : PaymentRDBMS) (table_name : string)
  : result (list column * option string) :=
  match dict_get table_name (tables e) with
  | None => Raise (ValueError (TableDoesNotExist table_name))
  | Some table => Ok (columns table, primary_key table)
  end.

Record stats : Type := MkStats {
  stat_tables : nat;
  stat_indexes : nat;
  stat_wal_entries : nat;
  stat_total_rows : nat
}.

(** [get_stats()] *)
Definition get_stats (e : PaymentRDBMS) : stats :=
  {| stat_tables := length (tables e);
     stat_indexes := length (indexes e);
     stat_wal_entries := length (entries (wal e));
     stat_total_rows := foldr (λ '(_, table) n, length (rows table) + n) 0 (tables e) |}.

(** ** _parse_value

    [int] and [float] on a text are the built-in conversions; [None] is
    their [ValueError]. *)
Section ParseValue.
Variable py_int : string → option Z.
Variable py_float : string → option spec_float.

Definition starts_with (c : Ascii.ascii) (val : string) : bool :=
  match val with
  | String c' _ => Ascii.eqb c' c
  | EmptyString => false
  end.

Fixpoint ends_with (c : Ascii.ascii) (val : string) : bool :=
  match val with
  | EmptyString => false
  | String c' EmptyString => Ascii.eqb c' c
  | String _ val' => ends_with c val'
  end.

(** [c in val] *)
Fixpoint has_char (c : Ascii.ascii) (val : string) : bool :=
  match val with
  | EmptyString => false
  | String c' val' => Ascii.eqb c' c || has_char c val'
  end.

(** [val[1:-1]] *)
Definition strip_ends (val : string) : string :=
  String.substring 1 (String.length val - 2) val.

Definition _parse_value (val : string) : scalar :=
  if starts_with single_quote val && ends_with single_quote val
  then VText (strip_ends val)
  else if starts_with double_quote val && ends_with double_quote val
  then VText (strip_ends val)
  else if has_char dot val then
    match py_float val with
    | Some f => VFloat f
    | None => VText val
    end
  else
    match py_int val with
    | Some z => VInt z
    | None => VText val
    end.
End ParseValue.

(** * More on the tree and the log *)

(** The keys of the nodes that are not leaves. *)
Fixpoint separators {K V : Type} (n : BPlusTreeNode K V) : list K :=
  match n with
  | LeafNode _ => []
  | InnerNode keys children => keys ++ concat (map separators children)
  end.

(** The depth of every leaf, left to right. *)
Fixpoint leaf_depths {K V : Type} (n : BPlusTreeNode K V) : list nat :=
  match n with
  | LeafNode _ => [0]
  | InnerNode _ children => S <$> concat (map leaf_depths children)
  end.

(** A call of [append]: the reading of the clock, then the arguments. *)
Definition append_call : Type := string * string * string * payload.

(** A sequence of appends on a log. *)
Definition append_all (w : WriteAheadLog) (calls : list append_call) : WriteAheadLog :=
  foldl (λ w '(now, op, table, d), snd (append w now op table d)) w calls.

(** An entry as [_load_wal] makes it again at a later time. *)
Definition reloaded (now : string) (line : WALEntry) : WALEntry :=
  MkEntry (operation line) (entry_table line) (data line) now (lsn line).

(** The entry [append] makes of the call numbered [i]. *)
Definition logged (i : nat) (c : append_call) : WALEntry :=
  let '(now, op, table, d) := c in MkEntry op table d now (Z.of_nat i).

(** * What an insert does to an index *)

(** [idx'] is [idx] after the insert of the row [r] into the table
    [table_name]: it is an index on the same column of the same table;
    its buckets hold the rows they held, and [r] besides if the index is
    on that table and [r] has a value under the column. *)
Record index_grown (table_name : string) (r : row) (idx idx' : Index) : Prop := {
  grown_table : idx_table idx' = idx_table idx;
  grown_column : idx_column idx' = idx_column idx;
  grown_keeps : ∀ ref r', r' ∈ bucket (buckets idx) ref → r' ∈ bucket (buckets idx') ref;
  grown_only : ∀ ref r', r' ∈ bucket (buckets idx') ref →
                         r' = r ∨ r' ∈ bucket (buckets idx) ref;
  grown_adds : idx_table idx = table_name → is_Some (dict_get (idx_column idx) r) →
               ∃ ref, r ∈ bucket (buckets idx') ref;
  grown_same : idx_table idx ≠ table_name ∨ dict_get (idx_column idx) r = None →
               idx' = idx
}.

(** * Sample engine *)

(** The engine after the four inserts into [customers], and the table it
    holds. *)
Definition sample_engine : PaymentRDBMS := run empty_engine "09:01" four_customers.

Definition sample_customers : Table :=
  MkTable "customers" customers_columns
    [customer 1 "alice@example.com"; customer 2 "bob@example.com";
     customer 3 "charlie@example.com"; customer 4 "dave@example.com"]
    (Some "id") {["email"]} 5.

(** The state of an outcome, changed by [f]. *)
Definition on_state {S A : Type} (f : S → S) (o : outcome S A) : outcome S A :=
  match o with
  | Done a s => Done a (f s)
  | Raised ex s => Raised ex (f s)
  end.

(** * What an index of the engine keeps *)

(** Every leaf has a value for each key. *)
Definition leaves_paired {K V : Type} (n : BPlusTreeNode K V) : Prop :=
  Forall (λ l, length (leaf_keys l) = length (leaf_values l)) (leaves n).

(** The row has, under the column, the key itself or a value equal to
    it. *)
Definition filed_under (col : string) (k : scalar) (r : row) : Prop :=
  ∃ v, dict_get col r = Some v ∧ (v = k ∨ scalar_eq v k = true).

(** The tree and the buckets of an index on [col]: every value of the
    tree names a bucket, and the rows of the bucket of a key are filed
    under that key. *)
Record index_ok (col : string) (tr : BPlusTree scalar nat) (bk : list (list row)) : Prop := {
  ok_paired : leaves_paired (root tr);
  ok_refs : ∀ k ref, (k, ref) ∈ pairs (root tr) → ref < length bk;
  ok_rows : ∀ k ref r, (k, ref) ∈ pairs (root tr) → r ∈ bucket bk ref →
                       filed_under col k r
}.


(** * Results and exceptions *)

Lemma bind_Ok {A B : Type} (m : result A) (f : A → result B) (b : B) :
  m ≫= f = Ok b ↔ ∃ a, m = Ok a ∧ f a = Ok b.
Proof.
  destruct m as [a|e]; simpl; split.
  - intros Hf. by exists a.
  - by intros (a' & [= <-] & Hf).
  - done.
  - by intros (a' & [=] & _).
Qed.

Lemma bind_Raise {A B : Type} (m : result A) (f : A → result B) (ex : exn) :
  m ≫= f = Raise ex ↔ m = Raise ex ∨ ∃ a, m = Ok a ∧ f a = Raise ex.
Proof.
  destruct m as [a|e]; simpl; split.
  - intros Hf. right. by exists a.
  - intros [Hf|(a' & Ha & Hf)]; [done|]. by injection Ha as <-.
  - intros [= <-]. by left.
  - intros [[= <-]|(a' & Ha & _)]; done.
Qed.

Lemma py_get_Raise {A : Type} (l : list A) (i : nat) (ex : exn) :
  py_get l i = Raise ex → ex = IndexError.
Proof. unfold py_get. destruct (l !! i); congruence. Qed.

(** * The exceptions of the tree *)

Section TreeExceptions.
Context {K V : Type} `{PyOrd K}.
Hypothesis lt_raises : ∀ (a b : K) ex, py_lt a b = Raise ex → is_tree_exn ex = true.

Lemma descend_inner (keys : list K) (children : list (BPlusTreeNode K V)) (key : K) :
  descend (InnerNode keys children) key =
  i ← bisect_left keys key; c ← py_get children i; descend c key.
Proof.
  simpl. destruct (bisect_left keys key) as [i|]; [simpl|done].
  revert i. induction children as [|c cs IH]; intros [|i]; done.
Qed.

Lemma bisect_loop_raises n (a : list K) x lo hi ex :
  bisect_loop n a x lo hi = Raise ex → is_tree_exn ex = true.
Proof.
  revert lo hi. induction n as [|n IH]; intros lo hi; simpl; [done|].
  destruct (lo <? hi); [|done].
  destruct (py_get a _) as [am|ex'] eqn:Hget; simpl.
  - destruct (py_lt am x) as [[]|ex'] eqn:Hlt; simpl; eauto.
    intros [= <-]. eauto.
  - intros [= <-]. by apply py_get_Raise in Hget as ->.
Qed.

Lemma bisect_left_raises (a : list K) x ex :
  bisect_left a x = Raise ex → is_tree_exn ex = true.
Proof. apply bisect_loop_raises. Qed.

Lemma descend_raises (n : BPlusTreeNode K V) key ex :
  descend n key = Raise ex → is_tree_exn ex = true.
Proof.
  induction n as [l|keys children IH] using node_induction; [done|].
  rewrite descend_inner.
  intros [Hb|(i & _ & [Hg|(c & Hg & Hd)]%bind_Raise)]%bind_Raise.
  - by eapply bisect_left_raises.
  - by apply py_get_Raise in Hg as ->.
  - unfold py_get in Hg. destruct (children !! i) as [c'|] eqn:Hc; [|done].
    injection Hg as ->. rewrite Forall_forall in IH.
    eapply IH; [|done]. by eapply list_elem_of_lookup_2.
Qed.

Lemma search_raises (t : BPlusTree K V) key ex :
  search t key = Raise ex → is_tree_exn ex = true.
Proof.
  unfold search. intros [Hd|(l & _ & Hl)]%bind_Raise.
  - by eapply descend_raises.
  - destruct (py_index _ _); [|done].
    apply bind_Raise in Hl as [Hg|(? & _ & ?)]; [|done].
    by apply py_get_Raise in Hg as ->.
Qed.

Lemma split_child_raises (parent : BPlusTreeNode K V) index fr ex s :
  _split_child parent index fr = Raised ex s → ex = IndexError.
Proof.
  unfold _split_child. destruct (node_children parent !! index) as [[full|fkeys fchildren]|].
  - destruct (leaf_keys _ !! 0); [done|]. by intros [= <- _].
  - destruct (py_pop _) as [[]|ex'] eqn:Hp; [done|]. intros [= <- _].
    unfold py_pop in Hp. destruct (last _); congruence.
  - by intros [= <- _].
Qed.

Lemma into_child_raises (f : BPlusTreeNode K V → nat → outcome (BPlusTreeNode K V * nat) unit)
    n fr j ex s :
  (∀ c fr1 s1, f c fr1 = Raised ex s1 → is_tree_exn ex = true) →
  into_child f n fr j = Raised ex s → is_tree_exn ex = true.
Proof.
  intros Hf. unfold into_child.
  destruct (node_children n !! j) as [cj|]; [|by intros [= <- _]].
  destruct (f cj fr) as [[] []|e []] eqn:Hc; [done|].
  intros [= <- _]. eauto.
Qed.

Lemma insert_non_full_raises fuel (n : BPlusTreeNode K V) fr key value ex s :
  _insert_non_full fuel n fr key value = Raised ex s → is_tree_exn ex = true.
Proof.
  revert n fr s. induction fuel as [|fuel IH]; intros n fr s.
  { by intros [= <- _]. }
  destruct n as [l|keys children]; cbn [_insert_non_full].
  - destruct (bisect_left _ _) eqn:Hb; [done|]. intros [= <- _].
    by eapply bisect_left_raises.
  - destruct (bisect_left _ _) as [i|] eqn:Hb.
    2:{ intros [= <- _]. by eapply bisect_left_raises. }
    destruct (children !! i) as [c|]; [|by intros [= <- _]].
    destruct (is_full c); [|apply into_child_raises; eauto].
    destruct (_split_child _ _ _) as [[] [n1 fr1]|e s'] eqn:Hs.
    + destruct (py_get (node_keys n1) i ≫= py_gt key) as [b|e] eqn:Hg;
        [apply into_child_raises; eauto|].
      intros [= <- _]. apply bind_Raise in Hg as [Hg|(k & _ & Hg)].
      * by apply py_get_Raise in Hg as ->.
      * by eapply lt_raises.
    + intros [= <- _]. by apply split_child_raises in Hs as ->.
Qed.

Lemma insert_at_root_raises (r : BPlusTreeNode K V) fr key value ex t' :
  insert_at_root r fr key value = Raised ex t' → is_tree_exn ex = true.
Proof.
  unfold insert_at_root.
  destruct (_insert_non_full _ r fr key value) as [[] []|e []] eqn:Hi; [done|].
  intros [= <- _]. by eapply insert_non_full_raises.
Qed.

Lemma insert_raises (t : BPlusTree K V) key value ex t' :
  insert t key value = Raised ex t' → is_tree_exn ex = true.
Proof.
  unfold insert. destruct (is_full _); [|apply insert_at_root_raises].
  destruct (_split_child _ _ _) as [[] []|e []] eqn:Hs; [apply insert_at_root_raises|].
  intros [= <- _]. by apply split_child_raises in Hs as ->.
Qed.
End TreeExceptions.

Lemma scalar_lt_raises (a b : scalar) ex :
  py_lt a b = Raise ex → is_tree_exn ex = true.
Proof.
  simpl. unfold scalar_lt.
  destruct a as [z|f|s], b as [z'|f'|s']; simpl; try (by intros [= <-]);
    repeat case_match; try done; by intros [= <-].
Qed.

Lemma add_row_raises tr bk value r ex s :
  add_row tr bk value r = Raised ex s → is_tree_exn ex = true.
Proof.
  unfold add_row. destruct (search tr value) as [found|e] eqn:Hs.
  - destruct (match found with Some _ => _ | None => _ end) as [existing bk1].
    destruct (insert tr value existing) as [[] tr'|e tr'] eqn:Hi; [done|].
    intros [= <- _]. eapply (insert_raises scalar_lt_raises), Hi.
  - intros [= <- _]. eapply (search_raises scalar_lt_raises), Hs.
Qed.

Lemma update_indexes_raises ix table_name r ex ix' :
  update_indexes ix table_name r = Raised ex ix' → is_tree_exn ex = true.
Proof.
  revert ix'. induction ix as [|[index_key index_data] ix IH]; intros ix'; simpl; [done|].
  assert (Hrest : ∀ d,
    match update_indexes ix table_name r with
    | Done _ ix'' => Done tt ((index_key, d) :: ix'')
    | Raised ex0 ix'' => Raised ex0 ((index_key, d) :: ix'')
    end = Raised ex ix' → is_tree_exn ex = true).
  { intros d. destruct (update_indexes ix table_name r); [done|].
    intros [= <- _]. eauto. }
  destruct (String.eqb _ _); [|apply Hrest].
  destruct (dict_get _ r) as [value|]; [|apply Hrest].
  destruct (add_row _ _ value r) as [[] []|e []] eqn:Ha; [apply Hrest|].
  intros [= <- _]. by eapply add_row_raises.
Qed.

Lemma scan_rows_raises tr bk column_name rs ex :
  scan_rows tr bk column_name rs = Raise ex → is_tree_exn ex = true.
Proof.
  revert tr bk. induction rs as [|r rs IH]; intros tr bk; simpl; [done|].
  destruct (dict_get column_name r) as [value|]; [|apply IH].
  destruct (add_row tr bk value r) as [[] []|e []] eqn:Ha; [apply IH|].
  intros [= <-]. by eapply add_row_raises.
Qed.

(** * Keys in a total order *)

Section OrderFacts.
Context {K : Type} `{TotalKeys K}.
Implicit Types (a b c k : K) (s : bool).

Lemma kle_refl a : kle a a.
Proof. apply ltK_irrefl. Qed.

Lemma klt_kle a b : klt a b → kle a b.
Proof.
  intros Hab. unfold kle. destruct (ltK b a) eqn:Hba; [|done].
  pose proof (ltK_trans a b a Hab Hba) as Haa. unfold klt in Haa.
  by rewrite ltK_irrefl in Haa.
Qed.

Lemma klt_or_kle a b : klt a b ∨ kle b a.
Proof. unfold klt, kle. destruct (ltK a b); auto. Qed.

Lemma kle_klt_trans a b c : kle a b → klt b c → klt a c.
Proof.
  intros Hab Hbc. destruct (klt_or_kle a b) as [Hlt|Hge].
  - by eapply ltK_trans.
  - by rewrite (ltK_total a b Hab Hge).
Qed.

Lemma klt_kle_trans a b c : klt a b → kle b c → klt a c.
Proof.
  intros Hab Hbc. destruct (klt_or_kle b c) as [Hlt|Hge].
  - by eapply ltK_trans.
  - by rewrite <- (ltK_total b c Hbc Hge).
Qed.

Lemma kle_trans a b c : kle a b → kle b c → kle a c.
Proof.
  intros Hab Hbc. destruct (klt_or_kle c a) as [Hlt|Hge]; [|done].
  pose proof (klt_kle_trans _ _ _ Hlt Hab) as Hcb. unfold klt, kle in *. congruence.
Qed.

Lemma kle_neq_klt a b : kle a b → a ≠ b → klt a b.
Proof.
  intros Hab Hne. destruct (klt_or_kle a b) as [Hlt|Hge]; [done|].
  by destruct Hne; apply ltK_total.
Qed.

Lemma klt_neq a b : klt a b → a ≠ b.
Proof. intros Hab ->. unfold klt in Hab. by rewrite ltK_irrefl in Hab. Qed.

Lemma rel_kle s a b : rel s a b → kle a b.
Proof. destruct s; simpl; [apply klt_kle|done]. Qed.

Lemma klt_rel s a b : klt a b → rel s a b.
Proof. destruct s; simpl; [done|apply klt_kle]. Qed.

Lemma kle_rel s a b : kle a b → (s = true → a ≠ b) → rel s a b.
Proof. destruct s; simpl; [|done]. intros ? Hne. apply kle_neq_klt; auto. Qed.

Lemma rel_trans s a b c : rel s a b → rel s b c → rel s a c.
Proof. destruct s; simpl; [apply ltK_trans|apply kle_trans]. Qed.

Lemma kle_rel_trans s a b c : kle a b → rel s b c → rel s a c.
Proof. destruct s; simpl; [apply kle_klt_trans|apply kle_trans]. Qed.

Lemma rel_kle_trans s a b c : rel s a b → kle b c → rel s a c.
Proof. destruct s; simpl; [apply klt_kle_trans|apply kle_trans]. Qed.

Lemma klt_rel_trans s a b c : klt a b → rel s b c → rel s a c.
Proof.
  intros Hab Hbc. apply klt_rel. eapply klt_kle_trans; [done|]. by eapply rel_kle.
Qed.

Lemma rel_klt_trans s a b c : rel s a b → klt b c → rel s a c.
Proof.
  intros Hab Hbc. apply klt_rel. eapply kle_klt_trans; [|done]. by eapply rel_kle.
Qed.

Global Instance rel_transitive s : Transitive (rel (K:=K) s).
Proof. intros a b c. apply rel_trans. Qed.

Lemma rel_strict_NoDup (l : list K) : StronglySorted (rel true) l → NoDup l.
Proof.
  induction 1 as [|a l Hl IH Ha]; constructor; [|done].
  intros Hin. rewrite Forall_forall in Ha. specialize (Ha a Hin).
  by apply klt_neq in Ha.
Qed.

Lemma sorted_rel_kle s (l : list K) : StronglySorted (rel s) l → StronglySorted kle l.
Proof.
  induction 1 as [|a l Hl IH Ha]; constructor; [done|].
  eapply Forall_impl; [done|]. intros b. apply rel_kle.
Qed.

Lemma sorted_lookup (R : relation K) (l : list K) i j a b :
  StronglySorted R l → i < j → l !! i = Some a → l !! j = Some b → R a b.
Proof.
  intros Hl. revert i j. induction Hl as [|x l Hl IH Hx]; intros i j Hij Ha Hb; [done|].
  destruct j as [|j]; [lia|]. destruct i as [|i]; simpl in *.
  - injection Ha as <-. rewrite Forall_forall in Hx. apply Hx.
    by eapply list_elem_of_lookup_2.
  - eapply (IH i j); [lia|done..].
Qed.

(** ** [bisect_left] on keys in order *)

Lemma bisect_loop_spec n (a : list K) k lo hi :
  StronglySorted kle a →
  hi - lo ≤ n → lo ≤ hi → hi ≤ length a →
  Forall (λ x, klt x k) (take lo a) →
  Forall (λ x, kle k x) (drop hi a) →
  ∃ i, bisect_loop n a k lo hi = Ok i ∧ i ≤ length a ∧
       Forall (λ x, klt x k) (take i a) ∧ Forall (λ x, kle k x) (drop i a).
Proof.
  intros Hsorted. revert lo hi.
  induction n as [|n IH]; intros lo hi Hn Hlohi Hhi Hbelow Habove.
  { assert (lo = hi) as -> by lia. exists hi. simpl. done. }
  cbn [bisect_loop]. destruct (Nat.ltb_spec lo hi) as [Hlt|Hge].
  2:{ assert (lo = hi) as -> by lia. by exists hi. }
  assert (lo ≤ (lo + hi) / 2 < hi) as Hmid.
  { split; [apply Nat.div_le_lower_bound|apply Nat.Div0.div_lt_upper_bound]; lia. }
  set (mid := (lo + hi) / 2) in *.
  destruct (lookup_lt_is_Some_2 a mid) as [am Ham]; [lia|].
  unfold py_get. rewrite Ham. cbn [mbind result_bind]. rewrite lt_ok.
  destruct (ltK am k) eqn:Hcmp.
  - apply IH; [lia..| |done].
    apply Forall_lookup. intros i x Hx.
    apply lookup_take_Some in Hx as [Hx Hi].
    destruct (decide (i = mid)) as [->|Hne]; [by simplify_eq|].
    eapply kle_klt_trans; [|exact Hcmp].
    eapply (sorted_lookup kle a i mid); [done|lia|done..].
  - apply IH; [lia..|done|].
    apply Forall_lookup. intros i x Hx. rewrite lookup_drop in Hx.
    destruct (decide (i = 0)) as [->|Hne].
    + rewrite Nat.add_0_r in Hx. by simplify_eq.
    + eapply kle_trans; [exact Hcmp|].
      eapply (sorted_lookup kle a mid (mid + i)); [done|lia|done..].
Qed.

(** The keys split at the position [bisect_left] returns: those below the
    key, then the others. *)
Lemma bisect_left_spec s (keys : list K) k :
  StronglySorted (rel s) keys →
  ∃ KA KB, bisect_left keys k = Ok (length KA) ∧ keys = KA ++ KB ∧
           Forall (λ x, klt x k) KA ∧ Forall (λ x, kle k x) KB.
Proof.
  intros Hsorted%sorted_rel_kle.
  destruct (bisect_loop_spec (length keys) keys k 0 (length keys))
    as (i & Hrun & Hi & Hbelow & Habove); [done|lia..| | |].
  { by rewrite take_0. }
  { by rewrite drop_all. }
  exists (take i keys), (drop i keys). unfold bisect_left.
  rewrite length_take_le by done. by rewrite take_drop.
Qed.
End OrderFacts.

#[export] Instance Z_TotalKeys : TotalKeys Z.
Proof.
  split; unfold klt, kle, ltK; simpl; intros.
  - by destruct (_ <? _)%Z.
  - f_equal. destruct (Z.ltb_spec b a), (Z.leb_spec a b); simpl; try done; lia.
  - apply Z.eqb_eq.
  - destruct (Z.ltb_spec a a); [lia|done].
  - destruct (Z.ltb_spec a b), (Z.ltb_spec b c), (Z.ltb_spec a c); try done; lia.
  - destruct (Z.ltb_spec a b), (Z.ltb_spec b a); try done; lia.
Qed.

(** * Lists at a position *)

Section ListAt.
Context {A : Type}.
Implicit Types (l : list A) (x y : A).

Lemma py_insert_app l1 l2 x : py_insert (length l1) x (l1 ++ l2) = l1 ++ x :: l2.
Proof. unfold py_insert. by rewrite take_app_length, drop_app_length. Qed.

Lemma py_insert_app_S l1 l2 x y :
  py_insert (length l1 + 1) y (l1 ++ x :: l2) = l1 ++ x :: y :: l2.
Proof.
  unfold py_insert.
  replace (length l1 + 1) with (length (l1 ++ [x])) by (rewrite length_app; simpl; lia).
  replace (l1 ++ x :: l2) with ((l1 ++ [x]) ++ l2) by by rewrite <- app_assoc.
  rewrite take_app_length, drop_app_length. by rewrite <- app_assoc.
Qed.

Lemma insert_middle l1 l2 x y : <[length l1 := y]> (l1 ++ x :: l2) = l1 ++ y :: l2.
Proof. induction l1 as [|z l1 IH]; simpl; [done|]. by rewrite IH. Qed.

Lemma lookup_middle l1 l2 x : (l1 ++ x :: l2) !! length l1 = Some x.
Proof. by apply list_lookup_middle. Qed.

Lemma concat_bind {B : Type} (f : A → list B) (ls : list (list A)) :
  concat ls ≫= f = concat (map (λ l, l ≫= f) ls).
Proof.
  induction ls as [|l ls IH]; simpl; [done|]. by rewrite bind_app, IH.
Qed.

Lemma elem_of_concat (x : A) (ls : list (list A)) :
  x ∈ concat ls ↔ ∃ l, x ∈ l ∧ l ∈ ls.
Proof.
  induction ls as [|l ls IH]; simpl.
  - split; [by intros ?%elem_of_nil|by intros (l & _ & ?%elem_of_nil)].
  - rewrite elem_of_app, IH. split.
    + intros [Hx|(l' & Hx & Hl')]; [exists l|exists l']; split; try done;
        [by left|by right].
    + intros (l' & Hx & [->|Hl']%elem_of_cons); [by left|right; by exists l'].
Qed.
End ListAt.

(** * The shape of a tree *)

Section ShapeFacts.
Context {K V : Type} `{TotalKeys K}.
Implicit Types (n c : BPlusTreeNode K V) (k : K) (s : bool) (lo hi : option K).

Local Abbreviation node := (BPlusTreeNode K V).

Lemma pairs_inner keys (children : list node) :
  pairs (InnerNode keys children) = concat (map pairs children).
Proof. unfold pairs. simpl. by rewrite concat_bind, map_map. Qed.

Lemma keys_of_inner keys (children : list node) :
  keys_of (InnerNode keys children) = keys ++ concat (map keys_of children).
Proof.
  unfold keys_of. cbn [nodes]. rewrite bind_cons. cbn [node_keys]. f_equal.
  by rewrite concat_bind, map_map.
Qed.

Lemma keys_of_leaf (l : leaf K V) : keys_of (LeafNode l) = leaf_keys l.
Proof. unfold keys_of. cbn [nodes]. by rewrite bind_cons, app_nil_r. Qed.

Lemma node_keys_in_keys_of n : node_keys n ⊆ keys_of n.
Proof.
  destruct n as [l|keys children]; [by rewrite keys_of_leaf|].
  rewrite keys_of_inner. intros x Hx. apply elem_of_app. by left.
Qed.

Lemma wf_kids_nil_inv s h lo hi (cs : list node) :
  wf_kids s h lo hi [] cs → ∃ c, cs = [c] ∧ wf s h lo hi c.
Proof. inversion 1; subst. by eexists. Qed.

Lemma wf_kids_cons_inv s h lo hi k ks (cs : list node) :
  wf_kids s h lo hi (k :: ks) cs →
  ∃ c cs', cs = c :: cs' ∧ rel_lo s lo k ∧ rel_hi s k hi ∧
           wf s h lo (Some k) c ∧ wf_kids s h (Some k) hi ks cs'.
Proof. inversion 1; subst. by eexists _, _. Qed.

Lemma wf_kids_length s h lo hi ks (cs : list node) :
  wf_kids s h lo hi ks cs → length cs = S (length ks).
Proof. induction 1; simpl; congruence. Qed.

Lemma bound_before_cons lo k (KA : list K) :
  bound_before lo (k :: KA) = bound_before (Some k) KA.
Proof.
  unfold bound_before. destruct KA as [|k' KA]; [done|]. rewrite last_cons_cons.
  destruct (last (k' :: KA)) eqn:E; [done|]. by apply last_None in E.
Qed.

Lemma bound_before_snoc lo (KA : list K) k : bound_before lo (KA ++ [k]) = Some k.
Proof. unfold bound_before. by rewrite last_snoc. Qed.

Lemma rel_hi_trans s k k' hi : rel s k k' → rel_hi s k' hi → rel_hi s k hi.
Proof. destruct hi as [h|]; simpl; [apply rel_trans|done]. Qed.

Lemma rel_lo_trans s lo k k' : rel_lo s lo k → rel s k k' → rel_lo s lo k'.
Proof. destruct lo as [l|]; simpl; [apply rel_trans|done]. Qed.

Lemma wf_kids_lower s h k0 hi ks (cs : list node) :
  wf_kids s h (Some k0) hi ks cs →
  Forall (λ b, ∃ kk hi0, kk ∈ k0 :: ks ∧ wf s h (Some kk) hi0 b) cs.
Proof.
  remember (Some k0) as lo eqn:Hlo. intros Hkids. revert k0 Hlo.
  induction Hkids as [h lo hi c Hc|h lo hi k ks c cs Hlo Hhi Hc Hkids IH];
    intros k0 ->.
  - constructor; [|done]. exists k0, hi. split; [by left|done].
  - constructor.
    + exists k0, (Some k). split; [by left|done].
    + eapply Forall_impl; [by apply IH|].
      intros b (kk & hi0 & Hkk & Hb). exists kk, hi0. split; [by right|done].
Qed.

(** The child at a position, its bounds, and the children list with the
    child replaced or split. *)
Lemma wf_kids_focus s h lo hi KA KB (A : list node) c B :
  length KA = length A →
  wf_kids s h lo hi (KA ++ KB) (A ++ c :: B) →
  wf s h (bound_before lo KA) (bound_after KB hi) c ∧
  length KB = length B ∧
  Forall (λ a, ∃ kk lo0, kk ∈ KA ∧ wf s h lo0 (Some kk) a) A ∧
  Forall (λ b, ∃ kk hi0, kk ∈ KB ∧ wf s h (Some kk) hi0 b) B ∧
  (∀ c', wf s h (bound_before lo KA) (bound_after KB hi) c' →
         wf_kids s h lo hi (KA ++ KB) (A ++ c' :: B)) ∧
  (∀ k cl cr,
     rel_lo s (bound_before lo KA) k → rel_hi s k (bound_after KB hi) →
     wf s h (bound_before lo KA) (Some k) cl →
     wf s h (Some k) (bound_after KB hi) cr →
     wf_kids s h lo hi (KA ++ k :: KB) (A ++ cl :: cr :: B)).
Proof.
  revert lo KA. induction A as [|a A IH]; intros lo KA Hlen Hkids.
  - destruct KA; [|done]. simpl in *. unfold bound_before. simpl.
    destruct KB as [|k0 KB].
    + apply wf_kids_nil_inv in Hkids as (c0 & [= -> ->] & Hc).
      split; [done|]. split; [done|]. split; [done|]. split; [done|]. split.
      * intros c' Hc'. by constructor.
      * intros k cl cr Hlo Hhi Hcl Hcr. constructor; try done. by constructor.
    + apply wf_kids_cons_inv in Hkids as (c0 & cs' & [= -> ->] & Hlo & Hhi & Hc & Hkids).
      split; [done|]. split; [apply wf_kids_length in Hkids; simpl; lia|].
      split; [done|]. split; [by apply wf_kids_lower in Hkids|]. split.
      * intros c' Hc'. by constructor.
      * intros k cl cr Hlo' Hhi' Hcl Hcr. simpl in *.
        constructor; try done; [by eapply rel_hi_trans|].
        by constructor.
  - destruct KA as [|ka KA]; [done|]. simpl in *.
    apply wf_kids_cons_inv in Hkids as (c0 & cs' & [= -> Hcs] & Hlo & Hhi & Ha & Hkids).
    subst cs'.
    rewrite bound_before_cons.
    destruct (IH (Some ka) KA) as (Hc & HlenB & HA & HB & Hput & Hsplit); [lia|done|].
    split; [done|]. split; [done|]. split; [|split; [done|split]].
    + constructor.
      * exists ka, lo. split; [by left|done].
      * eapply Forall_impl; [done|].
        intros b (kk & lo0 & Hkk & Hb). exists kk, lo0. split; [by right|done].
    + intros c' Hc'. constructor; try done. by apply Hput.
    + intros k cl cr Hlo' Hhi' Hcl Hcr. constructor; try done. by apply Hsplit.
Qed.

(** The keys and pairs of a subtree lie within its bounds. *)
Lemma wf_kids_keys s h lo hi ks (cs : list node) :
  wf_kids s h lo hi ks cs →
  Forall (λ k, rel_lo s lo k ∧ rel_hi s k hi) ks ∧ StronglySorted (rel s) ks.
Proof.
  induction 1 as [h lo hi c Hc|h lo hi k ks c cs Hlo Hhi Hc Hkids [IHb IHs]].
  - split; constructor.
  - split.
    + constructor; [done|]. eapply Forall_impl; [done|].
      intros k' [Hk1 Hk2]. split; [|done]. by eapply rel_lo_trans.
    + constructor; [done|]. eapply Forall_impl; [done|]. by intros k' [Hk1 _].
Qed.

Lemma wf_height s h lo hi n : wf s h lo hi n → height n = h.
Proof.
  revert h lo hi. induction n as [l|keys children IH] using node_induction;
    intros h lo hi Hwf; inversion Hwf as [|h' ? ? ? ? Hlen Hkids]; subst; [done|].
  simpl. f_equal. clear Hlen Hwf.
  induction Hkids as [h lo hi c Hc|h lo hi k ks c cs Hlo Hhi Hc Hkids IHk];
    apply Forall_cons in IH as [IHc IH]; simpl.
  - rewrite (IHc _ _ _ Hc). lia.
  - rewrite (IHc _ _ _ Hc), (IHk IH). lia.
Qed.

(** ** The leaf chain *)

Lemma chained_app (X Y : list (leaf K V)) exit :
  chained (X ++ Y) exit ↔
  chained X (match Y with [] => exit | y :: _ => Some (leaf_id y) end) ∧ chained Y exit.
Proof.
  induction X as [|x X IH]; simpl; [tauto|].
  rewrite IH. destruct X as [|x' X]; simpl; [|tauto].
  destruct Y; tauto.
Qed.

Lemma first_id_app (X Y : list (leaf K V)) :
  first_id (X ++ Y) = match first_id X with Some i => Some i | None => first_id Y end.
Proof. by destruct X. Qed.

Lemma first_id_exit (Y : list (leaf K V)) exit :
  match Y with [] => exit | y :: _ => Some (leaf_id y) end =
  match first_id Y with Some i => Some i | None => exit end.
Proof. by destruct Y. Qed.

Lemma grows_refl fr (ls : list (leaf K V)) : grows fr fr ls ls.
Proof.
  split; [done..|]. by rewrite Nat.sub_diag, app_nil_r.
Qed.

Lemma grows_trans (a b d : nat) (l1 l2 l3 : list (leaf K V)) :
  grows a b l1 l2 → grows b d l2 l3 → grows a d l1 l3.
Proof.
  intros [Hab1 Hf1 Hc1 Hi1] [Hbc2 Hf2 Hc2 Hi2]. split.
  - lia.
  - congruence.
  - auto.
  - rewrite Hi2, Hi1, <- app_assoc. apply Permutation_app_head.
    replace (d - a) with ((b - a) + (d - b)) by lia.
    rewrite seq_app. by replace (a + (b - a)) with b by lia.
Qed.

Lemma grows_ctx fr fr' (A ls ls' B : list (leaf K V)) :
  grows fr fr' ls ls' → ls ≠ [] →
  grows fr fr' (A ++ ls ++ B) (A ++ ls' ++ B).
Proof.
  intros [Hfr Hfirst Hchain Hids] Hne.
  assert (is_Some (first_id ls)) as [i Hi] by (destruct ls; [done|by eexists]).
  split.
  - done.
  - rewrite !first_id_app, Hfirst. done.
  - intros exit. rewrite !chained_app, !first_id_exit, !first_id_app, Hfirst.
    intros (HA & Hls & HB). auto.
  - rewrite !fmap_app, Hids. rewrite <- !app_assoc.
    apply Permutation_app_head, Permutation_app_head, Permutation_app_comm.
Qed.

Lemma grows_inv fr fr' (ls ls' : list (leaf K V)) :
  grows fr fr' ls ls' →
  NoDup (leaf_id <$> ls) → Forall (λ l, leaf_id l < fr) ls →
  NoDup (leaf_id <$> ls') ∧ Forall (λ l, leaf_id l < fr') ls'.
Proof.
  intros [Hfr Hfirst Hchain Hids] Hnodup Hbound.
  assert (Forall (λ i, i < fr) (leaf_id <$> ls)) as Hb by by apply Forall_fmap.
  split.
  - rewrite Hids. apply NoDup_app. split; [done|]. split; [|apply NoDup_seq].
    intros i Hi Hseq. rewrite Forall_forall in Hb. apply Hb in Hi.
    apply elem_of_seq in Hseq. lia.
  - apply (Forall_fmap leaf_id (λ i, i < fr')). rewrite Hids. apply Forall_app. split.
    + eapply Forall_impl; [done|]. simpl. lia.
    + apply Forall_forall. intros i Hseq%elem_of_seq. simpl. lia.
Qed.

Lemma leaves_nonempty s h lo hi n : wf s h lo hi n → leaves n ≠ [].
Proof.
  revert h lo hi. induction n as [l|keys children IH] using node_induction;
    intros h lo hi Hwf; [done|].
  inversion Hwf as [|h' ? ? ? ? Hlen Hkids]; subst. simpl.
  destruct Hkids as [h' lo hi c Hc|h' lo hi k ks c cs Hlo Hhi Hc Hkids];
    apply Forall_cons in IH as [IHc _]; simpl;
    specialize (IHc _ _ _ Hc); by destruct (leaves c).
Qed.

Lemma leaves_middle keys (A : list node) c B :
  leaves (InnerNode keys (A ++ c :: B)) =
  concat (map leaves A) ++ leaves c ++ concat (map leaves B).
Proof. simpl. by rewrite map_app, concat_app. Qed.

Lemma pairs_middle keys (A : list node) c B :
  pairs (InnerNode keys (A ++ c :: B)) =
  concat (map pairs A) ++ pairs c ++ concat (map pairs B).
Proof. rewrite pairs_inner. by rewrite map_app, concat_app. Qed.

Lemma keys_of_middle keys (A : list node) c B x :
  x ∈ keys_of (InnerNode keys (A ++ c :: B)) ↔
  x ∈ keys ∨ x ∈ concat (map keys_of A) ∨ x ∈ keys_of c ∨ x ∈ concat (map keys_of B).
Proof.
  rewrite keys_of_inner, map_app, concat_app. simpl.
  rewrite !elem_of_app. tauto.
Qed.
End ShapeFacts.

(** * Insertion *)

Section InsertFacts.
Context {K V : Type} `{TotalKeys K}.
Implicit Types (n c : BPlusTreeNode K V) (k : K) (v : V) (s : bool) (lo hi : option K).

Local Abbreviation node := (BPlusTreeNode K V).

(** ** Pairs in key order *)

Lemma ins_pair_app_l k v (X Y : list (K * V)) :
  Forall (λ e, klt e.1 k) X → ins_pair k v (X ++ Y) = X ++ ins_pair k v Y.
Proof.
  induction 1 as [|e X He HX IH]; simpl; [done|]. by rewrite He, IH.
Qed.

Lemma ins_pair_head k v (Y : list (K * V)) :
  Forall (λ e, kle k e.1) Y → ins_pair k v Y = (k, v) :: Y.
Proof. destruct 1 as [|e Y He HY]; simpl; [done|]. by rewrite He. Qed.

Lemma ins_pair_app_r k v (X Y : list (K * V)) :
  Forall (λ e, kle k e.1) Y → ins_pair k v (X ++ Y) = ins_pair k v X ++ Y.
Proof.
  intros HY. induction X as [|e X IH]; simpl; [by apply ins_pair_head|].
  destruct (ltK e.1 k); [|done]. by rewrite IH.
Qed.

Lemma ins_pair_zip k v (KA KB : list K) (VA VB : list V) :
  length KA = length VA →
  Forall (λ x, klt x k) KA → Forall (λ x, kle k x) KB →
  ins_pair k v (zip (KA ++ KB) (VA ++ VB)) = zip (KA ++ k :: KB) (VA ++ v :: VB).
Proof.
  intros Hlen HA HB. rewrite !zip_with_app by done.
  rewrite ins_pair_app_l.
  - f_equal. simpl. apply ins_pair_head.
    clear -HB. revert VB. induction HB as [|x KB Hx HB IH]; intros [|y VB]; simpl;
      constructor; auto.
  - clear -HA. revert VA. induction HA as [|x KA Hx HA IH]; intros [|y VA]; simpl;
      constructor; auto.
Qed.

(** ** The pairs of a subtree lie within its bounds *)

Lemma above_trans2 s lo k x : rel_lo s lo k → kle k x → above lo x.
Proof.
  destruct lo as [l|]; simpl; [|done]. intros Hl Hk.
  eapply kle_trans; [|done]. by eapply rel_kle.
Qed.

Lemma wf_pairs_bounds s h lo hi n :
  wf s h lo hi n → Forall (λ e, above lo e.1 ∧ rel_hi s e.1 hi) (pairs n).
Proof.
  revert h lo hi. induction n as [l|keys children IH] using node_induction;
    intros h lo hi Hwf.
  - inversion Hwf as [? ? ? Hlen Hsize Hsorted Hbounds|]; subst.
    unfold pairs. simpl. rewrite app_nil_r. unfold leaf_pairs.
    revert Hbounds. clear. generalize (leaf_values l).
    induction (leaf_keys l) as [|x ks IHk]; intros [|y vs] Hb; simpl; try constructor.
    + by apply Forall_cons in Hb as [? _].
    + apply IHk. by apply Forall_cons in Hb as [_ ?].
  - inversion Hwf as [|h' ? ? ? ? Hlen Hkids]; subst. rewrite pairs_inner.
    clear Hlen Hwf.
    induction Hkids as [h lo hi c Hc|h lo hi k ks c cs Hlo Hhi Hc Hkids IHk];
      apply Forall_cons in IH as [IHc IH]; simpl.
    + rewrite app_nil_r. by eapply IHc.
    + apply Forall_app. split.
      * eapply Forall_impl; [by eapply IHc|]. intros e [He1 He2].
        split; [done|]. simpl in He2. by eapply rel_hi_trans.
      * eapply Forall_impl; [by apply IHk|]. intros e [He1 He2].
        split; [|done]. simpl in He1. by eapply above_trans2.
Qed.

Lemma siblings_below s h k (KA : list K) (A : list node) :
  Forall (λ x, klt x k) KA →
  Forall (λ a, ∃ kk lo0, kk ∈ KA ∧ wf s h lo0 (Some kk) a) A →
  Forall (λ e, klt e.1 k) (concat (map pairs A)).
Proof.
  intros HKA HA. induction HA as [|a A (kk & lo0 & Hkk & Ha) HA IH]; simpl; [done|].
  apply Forall_app. split; [|done].
  eapply Forall_impl; [by eapply wf_pairs_bounds|]. intros e [_ He]. simpl in He.
  rewrite Forall_forall in HKA.
  eapply kle_klt_trans; [by eapply rel_kle|]. by apply HKA.
Qed.

Lemma siblings_above s h k (KB : list K) (B : list node) :
  Forall (λ x, kle k x) KB →
  Forall (λ b, ∃ kk hi0, kk ∈ KB ∧ wf s h (Some kk) hi0 b) B →
  Forall (λ e, kle k e.1) (concat (map pairs B)).
Proof.
  intros HKB HB. induction HB as [|b B (kk & hi0 & Hkk & Hb) HB IH]; simpl; [done|].
  apply Forall_app. split; [|done].
  eapply Forall_impl; [by eapply wf_pairs_bounds|]. intros e [He _]. simpl in He.
  rewrite Forall_forall in HKB.
  eapply kle_trans; [|done]. by apply HKB.
Qed.

(** ** [_split_child] *)

Lemma is_full_spec n : is_full n = true ↔ order - 1 ≤ length (node_keys n).
Proof. unfold is_full. apply Nat.leb_le. Qed.

Lemma is_full_false n : is_full n = false ↔ length (node_keys n) < order - 1.
Proof. unfold is_full. apply Nat.leb_gt. Qed.

Lemma split_child_leaf keys (cs : list node) index fr id k1 k2 k3 v1 v2 v3 next :
  cs !! index = Some (LeafNode (Leaf id [k1; k2; k3] [v1; v2; v3] next)) →
  _split_child (InnerNode keys cs) index fr =
  Done tt (InnerNode (py_insert index k3 keys)
             (py_insert (index + 1) (LeafNode (Leaf fr [k3] [v3] next))
                (<[index := LeafNode (Leaf id [k1; k2] [v1; v2] (Some fr))]> cs)),
           S fr).
Proof. intros Hc. unfold _split_child. cbn [node_children]. by rewrite Hc. Qed.

Lemma split_child_inner keys (cs : list node) index fr k0 k1 k2 d0 d1 d2 d3 :
  cs !! index = Some (InnerNode [k0; k1; k2] [d0; d1; d2; d3]) →
  _split_child (InnerNode keys cs) index fr =
  Done tt (InnerNode (py_insert index k1 keys)
             (py_insert (index + 1) (InnerNode [k2] [d2; d3])
                (<[index := InnerNode [k0] [d0; d1]]> cs)),
           fr).
Proof. intros Hc. unfold _split_child. cbn [node_children]. by rewrite Hc. Qed.

Lemma split_child_halves s h lo hi (KA KB : list K) (A : list node) c B fr :
  length KA = length A →
  wf s h lo hi c → is_full c = true →
  ∃ kp cl cr fr1,
    _split_child (InnerNode (KA ++ KB) (A ++ c :: B)) (length A) fr
      = Done tt (InnerNode (KA ++ kp :: KB) (A ++ cl :: cr :: B), fr1) ∧
    wf s h lo (Some kp) cl ∧ wf s h (Some kp) hi cr ∧
    rel_lo s lo kp ∧ rel_hi s kp hi ∧
    kp ∈ keys_of c ∧
    is_full cl = false ∧ is_full cr = false ∧
    pairs cl ++ pairs cr = pairs c ∧
    grows fr fr1 (leaves c) (leaves cl ++ leaves cr) ∧
    (∀ x, x ∈ keys_of cl ∨ x ∈ keys_of cr → x ∈ keys_of c).
Proof.
  intros HlenA Hwf Hfull. apply is_full_spec in Hfull.
  inversion Hwf as [? ? l Hlen Hsize Hsorted Hbounds|h' ? ? fkeys fchildren Hsize Hkids];
    subst; cbn [node_keys] in Hfull.
  - destruct l as [id keys values next]. cbn [leaf_keys leaf_values leaf_id leaf_next] in *.
    destruct keys as [|k1 [|k2 [|k3 [|]]]]; unfold order in *; simpl in Hfull, Hsize; try lia.
    destruct values as [|v1 [|v2 [|v3 [|]]]]; simpl in Hlen; try lia.
    rewrite (split_child_leaf _ _ _ _ _ _ _ _ _ _ _ _ (lookup_middle _ _ _)).
    rewrite insert_middle, <- HlenA, py_insert_app, HlenA, py_insert_app_S.
    eexists k3, _, _, _. split; [done|].
    apply StronglySorted_inv in Hsorted as [Hsorted H1].
    apply StronglySorted_inv in Hsorted as [Hsorted H2].
    apply Forall_cons in H1 as [H12 [H13 _]%Forall_cons].
    apply Forall_cons in H2 as [H23 _].
    apply Forall_cons in Hbounds as [[Hl1 Hh1] [[Hl2 Hh2] [[Hl3 Hh3] _]%Forall_cons]%Forall_cons].
    split; [|split; [|split; [|split; [|split; [|split; [|split; [|split; [|split]]]]]]]].
    + constructor; cbn; [done|lia| |].
      * repeat constructor; done.
      * repeat constructor; done.
    + constructor; cbn; [done|lia| |].
      * repeat constructor.
      * repeat constructor; [apply kle_refl|done].
    + destruct lo as [l0|]; [|done]. exact (kle_rel_trans s l0 k1 k3 Hl1 H13).
    + done.
    + rewrite keys_of_leaf. cbn. set_solver.
    + done.
    + done.
    + reflexivity.
    + split; cbn.
      * lia.
      * done.
      * intros exit [Hnext _]. by repeat split.
      * by replace (S fr - fr) with 1 by lia.
    + rewrite !keys_of_leaf. cbn. set_solver.
  - destruct fkeys as [|k0 [|k1 [|k2 [|]]]]; unfold order in *; simpl in Hfull, Hsize; try lia.
    apply wf_kids_cons_inv in Hkids as (d0 & cs0 & -> & Hlo0 & Hhi0 & Hd0 & Hkids).
    apply wf_kids_cons_inv in Hkids as (d1 & cs1 & -> & Hlo1 & Hhi1 & Hd1 & Hkids).
    apply wf_kids_cons_inv in Hkids as (d2 & cs2 & -> & Hlo2 & Hhi2 & Hd2 & Hkids).
    apply wf_kids_nil_inv in Hkids as (d3 & -> & Hd3).
    rewrite (split_child_inner _ _ _ _ _ _ _ _ _ _ _ (lookup_middle _ _ _)).
    rewrite insert_middle, <- HlenA, py_insert_app, HlenA, py_insert_app_S.
    eexists k1, _, _, _. split; [done|]. simpl in Hlo1, Hlo2.
    split; [|split; [|split; [|split; [|split; [|split; [|split; [|split; [|split]]]]]]]].
    + constructor; [cbn; lia|]. constructor; try done. by constructor.
    + constructor; [cbn; lia|]. constructor; try done. by constructor.
    + by eapply rel_lo_trans.
    + done.
    + rewrite keys_of_inner. set_solver.
    + done.
    + done.
    + rewrite !pairs_inner. cbn. by rewrite !app_nil_r, <- !app_assoc.
    + cbn. rewrite !app_nil_r, <- !app_assoc. apply grows_refl.
    + rewrite !keys_of_inner. cbn. rewrite !app_nil_r. set_solver.
Qed.

Lemma split_child_spec s h lo hi (KA KB : list K) (A : list node) c B fr :
  length KA = length A →
  wf s (S h) lo hi (InnerNode (KA ++ KB) (A ++ c :: B)) →
  is_full (InnerNode (KA ++ KB) (A ++ c :: B)) = false →
  is_full c = true →
  ∃ kp cl cr fr1,
    _split_child (InnerNode (KA ++ KB) (A ++ c :: B)) (length A) fr
      = Done tt (InnerNode (KA ++ kp :: KB) (A ++ cl :: cr :: B), fr1) ∧
    wf s (S h) lo hi (InnerNode (KA ++ kp :: KB) (A ++ cl :: cr :: B)) ∧
    is_full cl = false ∧ is_full cr = false ∧
    kp ∈ keys_of c ∧
    pairs (InnerNode (KA ++ kp :: KB) (A ++ cl :: cr :: B)) =
      pairs (InnerNode (KA ++ KB) (A ++ c :: B)) ∧
    grows fr fr1 (leaves (InnerNode (KA ++ KB) (A ++ c :: B)))
                 (leaves (InnerNode (KA ++ kp :: KB) (A ++ cl :: cr :: B))) ∧
    (∀ x, x ∈ keys_of (InnerNode (KA ++ kp :: KB) (A ++ cl :: cr :: B)) →
          x ∈ keys_of (InnerNode (KA ++ KB) (A ++ c :: B))).
Proof.
  intros HlenA Hwf Hroom Hfull.
  inversion Hwf as [|h' ? ? ? ? Hsize Hkids]; subst.
  destruct (wf_kids_focus _ _ _ _ _ _ _ _ _ HlenA Hkids)
    as (Hc & HlenB & HA & HB & Hput & Hsplit).
  destruct (split_child_halves s h _ _ KA KB A c B fr HlenA Hc Hfull)
    as (kp & cl & cr & fr1 & Hrun & Hcl & Hcr & Hlo & Hhi & Hkp & Hfl & Hfr & Hpairs
        & Hgrows & Hkeys).
  exists kp, cl, cr, fr1. split; [done|].
  apply is_full_false in Hroom. cbn [node_keys] in Hroom.
  split; [|split; [done|split; [done|split; [done|split; [|split]]]]].
  - constructor; [|by apply Hsplit].
    rewrite length_app in *. unfold order in *. simpl. lia.
  - rewrite !pairs_middle. cbn [map concat].
    by rewrite <- Hpairs, <- !app_assoc.
  - rewrite !leaves_middle. cbn [map concat]. rewrite (app_assoc (leaves cl)).
    apply grows_ctx; [done|]. by eapply leaves_nonempty.
  - intros x. rewrite !keys_of_middle. cbn [map concat].
    rewrite !elem_of_app, elem_of_cons.
    intros [[?|[->|?]]|[?|[?|[?|?]]]]; auto 10.
Qed.

(** ** [_insert_non_full] *)

(** The call on the child the key belongs to, when the child has room. *)
Lemma into_child_spec s h lo hi (KA KB : list K) (A : list node) c B fr k v
    (f : node → nat → outcome (node * nat) unit) :
  length KA = length A →
  wf s (S h) lo hi (InnerNode (KA ++ KB) (A ++ c :: B)) →
  Forall (λ x, klt x k) KA → Forall (λ x, kle k x) KB →
  past lo k → rel_hi s k hi →
  (s = true → k ∉ keys_of (InnerNode (KA ++ KB) (A ++ c :: B))) →
  (∀ lo' hi', wf s h lo' hi' c → past lo' k → rel_hi s k hi' →
     ∃ c' fr', f c fr = Done tt (c', fr') ∧ inserted s h lo' hi' k v c fr c' fr') →
  ∃ n' fr',
    into_child f (InnerNode (KA ++ KB) (A ++ c :: B)) fr (length A) = Done tt (n', fr') ∧
    inserted s (S h) lo hi k v (InnerNode (KA ++ KB) (A ++ c :: B)) fr n' fr'.
Proof.
  intros HlenA Hwf HKA HKB Hlo Hhi Hnew Hf.
  inversion Hwf as [|h' ? ? ? ? Hsize Hkids]; subst.
  destruct (wf_kids_focus _ _ _ _ _ _ _ _ _ HlenA Hkids)
    as (Hc & HlenB & HA & HB & Hput & _).
  destruct (Hf _ _ Hc) as (c' & fr' & Hrun & [Hwf' Hpairs Hgrows Hkeys]).
  { unfold bound_before. destruct (last KA) as [ka|] eqn:Hlast; [|done].
    simpl. rewrite Forall_forall in HKA. apply HKA.
    apply last_Some in Hlast as [KA' ->]. apply elem_of_app. right. by left. }
  { unfold bound_after. destruct KB as [|kb KB']; [done|]. simpl.
    apply Forall_cons in HKB as [Hkb _]. apply kle_rel; [done|].
    intros -> ->. apply Hnew; [done|]. apply keys_of_middle. left.
    apply elem_of_app. right. by left. }
  unfold into_child. cbn [node_children node_keys]. rewrite lookup_middle, Hrun.
  rewrite insert_middle. eexists _, _. split; [done|]. split.
  - constructor; [done|]. by apply Hput.
  - rewrite !pairs_middle, Hpairs.
    rewrite ins_pair_app_l by by eapply siblings_below.
    by rewrite ins_pair_app_r by by eapply siblings_above.
  - rewrite !leaves_middle. apply grows_ctx; [done|]. by eapply leaves_nonempty.
  - intros x. rewrite !keys_of_middle. intros [?|[?|[[->|?]%Hkeys|?]]]; auto.
Qed.

Lemma insert_non_full_spec fuel s h lo hi n fr k v :
  h < fuel →
  wf s h lo hi n → is_full n = false →
  past lo k → rel_hi s k hi →
  (s = true → k ∉ keys_of n) →
  ∃ n' fr', _insert_non_full fuel n fr k v = Done tt (n', fr') ∧
            inserted s h lo hi k v n fr n' fr'.
Proof.
  revert s h lo hi n fr.
  induction fuel as [|fuel IH]; intros s h lo hi n fr Hfuel Hwf Hroom Hlo Hhi Hnew; [lia|].
  inversion Hwf as [? ? l Hlen Hsize Hsorted Hbounds|h' ? ? keys children Hsize Hkids]; subst.
  - cbn [_insert_non_full].
    destruct (bisect_left_spec s (leaf_keys l) k Hsorted) as (KA & KB & -> & Hkeys & HKA & HKB).
    eexists _, _. split; [done|].
    set (VA := take (length KA) (leaf_values l)).
    set (VB := drop (length KA) (leaf_values l)).
    assert (leaf_values l = VA ++ VB) as HV by (symmetry; apply take_drop).
    assert (length KA = length VA) as HlenA.
    { unfold VA. rewrite length_take_le; [done|]. rewrite <- Hlen, Hkeys, length_app. lia. }
    rewrite keys_of_leaf in Hnew.
    split.
    + constructor; cbn [leaf_keys leaf_values].
      * unfold py_insert. fold VA VB. rewrite Hkeys, take_app_length, drop_app_length.
        rewrite Hkeys, HV, !length_app in Hlen. rewrite !length_app. simpl. lia.
      * apply is_full_false in Hroom. cbn [node_keys] in Hroom.
        unfold py_insert. rewrite length_app, length_take, length_cons, length_drop.
        unfold order in *. lia.
      * rewrite Hkeys, py_insert_app. rewrite Hkeys in Hsorted.
        apply StronglySorted_app in Hsorted as (HAB & HsA & HsB).
        apply StronglySorted_app. split; [|split; [done|]].
        -- intros x y Hx [->|Hy]%elem_of_cons; [|by apply HAB].
           rewrite Forall_forall in HKA. by apply klt_rel, HKA.
        -- constructor; [done|]. rewrite Forall_forall in HKB |- *.
           intros x Hx. apply kle_rel; [by apply HKB|].
           intros -> ->. apply Hnew; [done|]. rewrite Hkeys. apply elem_of_app. by right.
      * rewrite Hkeys, py_insert_app. rewrite Hkeys in Hbounds.
        apply Forall_app in Hbounds as [HbA HbB].
        apply Forall_app. split; [done|]. constructor; [|done].
        split; [|done]. destruct lo as [l0|]; [|done]. by apply klt_kle.
    + unfold pairs. cbn [leaves]. rewrite !bind_cons, !app_nil_r. unfold leaf_pairs.
      cbn [leaf_keys leaf_values]. unfold py_insert at 2. fold VA VB.
      rewrite Hkeys, py_insert_app, HV. symmetry. by apply ins_pair_zip.
    + cbn [leaves]. split; cbn; [lia|done|done|].
      by rewrite Nat.sub_diag.
    + intros x. rewrite !keys_of_leaf. cbn [leaf_keys]. rewrite Hkeys, py_insert_app.
      rewrite !elem_of_app, elem_of_cons. tauto.
  - cbn [_insert_non_full].
    destruct (wf_kids_keys _ _ _ _ _ _ Hkids) as [_ Hsorted].
    destruct (bisect_left_spec s keys k Hsorted) as (KA & KB & -> & -> & HKA & HKB).
    pose proof (wf_kids_length _ _ _ _ _ _ Hkids) as Hlen.
    destruct (lookup_lt_is_Some_2 children (length KA)) as [c Hc].
    { rewrite Hlen, length_app. lia. }
    rewrite Hc.
    pose proof (take_drop_middle _ _ _ Hc) as Hsplit.
    set (A := take (length KA) children) in *.
    set (B := drop (S (length KA)) children) in *.
    assert (length KA = length A) as HlenA.
    { unfold A. rewrite length_take_le; [done|]. apply lookup_lt_Some in Hc. lia. }
    clearbody A B. subst children. rewrite HlenA.
    assert (∀ KA' KB' A' c' B' fr',
              length KA' = length A' →
              wf s (S h') lo hi (InnerNode (KA' ++ KB') (A' ++ c' :: B')) →
              Forall (λ x, klt x k) KA' → Forall (λ x, kle k x) KB' →
              (s = true → k ∉ keys_of (InnerNode (KA' ++ KB') (A' ++ c' :: B'))) →
              is_full c' = false →
              ∃ n' fr'',
                into_child (λ cj fr1, _insert_non_full fuel cj fr1 k v)
                  (InnerNode (KA' ++ KB') (A' ++ c' :: B')) fr' (length A')
                = Done tt (n', fr'') ∧
                inserted s (S h') lo hi k v (InnerNode (KA' ++ KB') (A' ++ c' :: B')) fr' n' fr'')
      as Hinto.
    { intros KA' KB' A' c' B' fr' HlenA' Hwf' HKA' HKB' Hnew' Hroom'.
      eapply into_child_spec; try done.
      intros lo' hi' Hc' Hlo' Hhi'. apply IH; try done; [lia|].
      intros Hs Hin. apply (Hnew' Hs). apply keys_of_middle. auto. }
    destruct (is_full c) eqn:Hfull.
    2:{ by apply Hinto. }
    destruct (split_child_spec s h' lo hi KA KB A c B fr HlenA Hwf Hroom Hfull)
      as (kp & cl & cr & fr1 & -> & Hwf1 & Hfl & Hfr & Hkp & Hpairs & Hgrows & Hkeys).
    cbn [node_keys]. unfold py_get. rewrite <- HlenA, lookup_middle.
    cbn [mbind result_bind]. unfold py_gt. rewrite lt_ok.
    assert (kp ∈ keys_of (InnerNode (KA ++ KB) (A ++ c :: B))) as Hkp'.
    { apply keys_of_middle. auto. }
    assert (∃ n' fr',
              into_child (λ cj fr1, _insert_non_full fuel cj fr1 k v)
                (InnerNode (KA ++ kp :: KB) (A ++ cl :: cr :: B)) fr1
                (if ltK kp k then length KA + 1 else length KA) = Done tt (n', fr') ∧
              inserted s (S h') lo hi k v (InnerNode (KA ++ kp :: KB) (A ++ cl :: cr :: B))
                fr1 n' fr') as (n' & fr' & -> & [Hwf' Hpairs' Hgrows' Hkeys']).
    { destruct (ltK kp k) eqn:Hcmp.
      - replace (length KA + 1) with (length (A ++ [cl]))
          by (rewrite length_app; simpl; lia).
        replace (KA ++ kp :: KB) with ((KA ++ [kp]) ++ KB) in * by by rewrite <- app_assoc.
        replace (A ++ cl :: cr :: B) with ((A ++ [cl]) ++ cr :: B) in *
          by by rewrite <- app_assoc.
        apply Hinto; try done.
        + rewrite !length_app. simpl. lia.
        + apply Forall_app. split; [done|]. by constructor.
        + intros Hs Hin. by apply (Hnew Hs), Hkeys.
      - rewrite HlenA. apply Hinto; try done.
        + by constructor.
        + intros Hs Hin. by apply (Hnew Hs), Hkeys. }
    eexists _, _. split; [done|]. split.
    + done.
    + by rewrite Hpairs', Hpairs.
    + by eapply grows_trans.
    + intros x [->|Hx]%Hkeys'; auto.
Qed.
End InsertFacts.

(** * Sequences of inserts *)

Section BuildFacts.
Context {K V : Type} `{TotalKeys K}.
Implicit Types (n c : BPlusTreeNode K V) (k : K) (v : V) (s : bool) (lo hi : option K).

Local Abbreviation node := (BPlusTreeNode K V).

Lemma tree_inv_empty s : tree_inv s (empty_tree (K:=K) (V:=V)).
Proof.
  split; cbn.
  - exists 0. constructor; cbn; [done|lia|constructor|constructor].
  - done.
  - apply NoDup_singleton.
  - repeat constructor.
Qed.

Lemma insert_at_root_spec s h (t : BPlusTree K V) r fr k v :
  wf s h None None r → is_full r = false →
  (s = true → k ∉ keys_of r) →
  ∃ r' fr', insert_at_root r fr k v = Done tt (Tree r' fr') ∧
            inserted s h None None k v r fr r' fr'.
Proof.
  intros Hwf Hroom Hnew. unfold insert_at_root.
  destruct (insert_non_full_spec (S (height r)) s h None None r fr k v)
    as (r' & fr' & -> & Hins); try done.
  { rewrite (wf_height _ _ _ _ _ Hwf). lia. }
  by exists r', fr'.
Qed.

Lemma insert_spec s (t : BPlusTree K V) k v :
  tree_inv s t →
  (s = true → k ∉ keys_of (root t)) →
  ∃ t', insert t k v = Done tt t' ∧ tree_inv s t' ∧
        pairs (root t') = ins_pair k v (pairs (root t)) ∧
        ∀ x, x ∈ keys_of (root t') → x = k ∨ x ∈ keys_of (root t).
Proof.
  intros [[h Hwf] Hchain Hids Hfresh] Hnew. unfold insert.
  assert (∃ h1 r1 fr1,
            (if is_full (root t)
             then match _split_child (InnerNode [] [root t]) 0 (fresh t) with
                  | Done _ (new_root, fr) => insert_at_root new_root fr k v
                  | Raised e (new_root, fr) =>
                      Raised e (Tree (default (root t) (node_children new_root !! 0)) fr)
                  end
             else insert_at_root (root t) (fresh t) k v) = insert_at_root r1 fr1 k v ∧
            wf s h1 None None r1 ∧ is_full r1 = false ∧
            pairs r1 = pairs (root t) ∧
            grows (fresh t) fr1 (leaves (root t)) (leaves r1) ∧
            (∀ x, x ∈ keys_of r1 → x ∈ keys_of (root t)))
    as (h1 & r1 & fr1 & -> & Hwf1 & Hroom1 & Hpairs1 & Hgrows1 & Hkeys1).
  { destruct (is_full (root t)) eqn:Hfull.
    - destruct (split_child_spec s h None None [] [] [] (root t) [] (fresh t))
        as (kp & cl & cr & fr1 & Hrun & Hwf1 & _ & _ & _ & Hpairs1 & Hgrows1 & Hkeys1);
        try done.
      { constructor; [cbn; lia|]. by constructor. }
      cbn [app length] in *. rewrite Hrun.
      exists (S h), (InnerNode [kp] [cl; cr]), fr1. split; [done|]. split; [done|].
      split; [done|]. split.
      + rewrite Hpairs1, pairs_inner. cbn. by rewrite app_nil_r.
      + split.
        * cbn [leaves map concat] in Hgrows1. by rewrite (app_nil_r (leaves (root t))) in Hgrows1.
        * intros x Hx. apply Hkeys1 in Hx. rewrite keys_of_inner in Hx.
          cbn in Hx. by rewrite app_nil_r in Hx.
    - exists h, (root t), (fresh t). split; [done|]. split; [done|]. split; [done|].
      split; [done|]. split; [apply grows_refl|done]. }
  destruct (insert_at_root_spec s h1 t r1 fr1 k v Hwf1 Hroom1)
    as (r' & fr' & -> & [Hwf' Hpairs' Hgrows' Hkeys']).
  { intros Hs Hin. by apply (Hnew Hs), Hkeys1. }
  exists (Tree r' fr'). split; [done|].
  pose proof (grows_trans _ _ _ _ _ _ Hgrows1 Hgrows') as Hgrows.
  destruct (grows_inv _ _ _ _ Hgrows Hids Hfresh) as [Hids' Hfresh'].
  split; [|split].
  - split; cbn [root fresh]; [by exists h1|by apply (grows_chain _ _ _ _ Hgrows)|done|done].
  - cbn [root]. by rewrite Hpairs', Hpairs1.
  - cbn [root]. intros x [->|Hx]%Hkeys'; auto.
Qed.

Lemma build_snoc (ops : list (K * V)) k v :
  build (ops ++ [(k, v)]) =
  match build ops with
  | Done _ t => insert t k v
  | Raised e t => Raised e t
  end.
Proof. unfold build. by rewrite foldl_app. Qed.

Lemma sort_pairs_snoc (ops : list (K * V)) k v :
  sort_pairs (ops ++ [(k, v)]) = ins_pair k v (sort_pairs ops).
Proof. unfold sort_pairs. by rewrite foldl_app. Qed.

(** Inserts of keys in a total order never raise; the tree they build is
    well formed, and its leaves hold the pairs inserted, in key order. *)
Lemma build_spec s (ops : list (K * V)) :
  (s = true → NoDup ops.*1) →
  ∃ t, build ops = Done tt t ∧ tree_inv s t ∧
       pairs (root t) = sort_pairs ops ∧
       ∀ x, x ∈ keys_of (root t) → x ∈ ops.*1.
Proof.
  induction ops as [|[k v] ops IH] using rev_ind; intros Hnodup.
  { exists empty_tree. split; [done|]. split; [apply tree_inv_empty|].
    split; [done|]. intros x. unfold empty_tree. cbn [root]. by rewrite keys_of_leaf. }
  rewrite fmap_app in *. cbn [fmap list_fmap fst] in *.
  destruct IH as (t & Hbuild & Hinv & Hpairs & Hkeys).
  { intros Hs. by apply Hnodup, NoDup_app in Hs as (? & _ & _). }
  destruct (insert_spec s t k v Hinv) as (t' & Hrun & Hinv' & Hpairs' & Hkeys').
  { intros Hs Hin%Hkeys. apply Hnodup, NoDup_app in Hs as (_ & Hdisj & _).
    apply (Hdisj k Hin). by left. }
  exists t'. rewrite build_snoc, Hbuild, sort_pairs_snoc, <- Hpairs.
  split; [done|]. split; [done|]. split; [done|].
  intros x [->|Hx]%Hkeys'; apply elem_of_app; [right; by left|left; auto].
Qed.

(** ** The keys of every node *)

Lemma wf_kids_children s h lo hi ks (cs : list node) :
  wf_kids s h lo hi ks cs → Forall (λ c, ∃ lo' hi', wf s h lo' hi' c) cs.
Proof. induction 1; constructor; eauto. Qed.

Lemma wf_nodes s h lo hi n m :
  wf s h lo hi n → m ∈ nodes n →
  length (node_keys m) ≤ order - 1 ∧ StronglySorted (rel s) (node_keys m).
Proof.
  revert h lo hi. induction n as [l|keys children IH] using node_induction;
    intros h lo hi Hwf Hm.
  - apply list_elem_of_singleton in Hm as ->. by inversion Hwf; subst.
  - inversion Hwf as [|h' ? ? ? ? Hsize Hkids]; subst.
    cbn [nodes] in Hm. apply elem_of_cons in Hm as [->|Hm].
    { split; [done|]. by eapply wf_kids_keys. }
    apply wf_kids_children in Hkids.
    apply elem_of_concat in Hm as (ms & Hm & Hms).
    apply list_elem_of_In, in_map_iff in Hms as (c & <- & Hc%list_elem_of_In).
    rewrite Forall_forall in IH, Hkids.
    destruct (Hkids c Hc) as (lo' & hi' & Hwfc). by eapply IH.
Qed.
End BuildFacts.

(** C2, as the code has it.  For keys in a total order, every sequence
    of inserts builds a tree, and every node of it holds at most
    [order - 1] keys, in non-decreasing order.  When no key is inserted
    twice the keys of every node are in increasing order, so each key is
    there once. *)
Theorem node_keys_ordered_bounded {K V : Type} `{TotalKeys K} (ops : list (K * V)) :
  ∃ t, build ops = Done tt t ∧
       ∀ n, n ∈ nodes (root t) →
         length (node_keys n) ≤ order - 1 ∧
         StronglySorted kle (node_keys n) ∧
         (NoDup ops.*1 → StronglySorted klt (node_keys n) ∧ NoDup (node_keys n)).
Proof.
  destruct (build_spec false ops) as (t & Hbuild & [[h Hwf] _ _ _] & _); [done|].
  exists t. split; [done|]. intros n Hn.
  destruct (wf_nodes _ _ _ _ _ _ Hwf Hn) as [Hsize Hsorted].
  split; [done|]. split; [done|]. intros Hnodup.
  destruct (build_spec true ops) as (t' & Hbuild' & [[h' Hwf'] _ _ _] & _); [done|].
  rewrite Hbuild in Hbuild'. injection Hbuild' as <-.
  destruct (wf_nodes _ _ _ _ _ _ Hwf' Hn) as [_ Hstrict].
  split; [done|]. by apply rel_strict_NoDup.
Qed.

Lemma node_keys_ordered_bounded_witness :
  ∃ t, build [(5, 50); (1, 10); (4, 40); (2, 20); (3, 30); (6, 60)]%Z = Done tt t ∧
       ∀ n, n ∈ nodes (root t) →
         length (node_keys n) ≤ order - 1 ∧
         StronglySorted kle (node_keys n) ∧
         (NoDup [5; 1; 4; 2; 3; 6]%Z → StronglySorted klt (node_keys n) ∧ NoDup (node_keys n)).
Proof.
  exact (node_keys_ordered_bounded (K:=Z) (V:=Z)
           [(5, 50); (1, 10); (4, 40); (2, 20); (3, 30); (6, 60)]%Z).
Defined.

(** C2, as it is stated, fails: the engine adds a second row under the
    key 1 by inserting the key again, and the leaf then holds the key
    twice. *)
Lemma reinsert_duplicates_key :
  ∃ tr bk,
    scan_rows empty_tree [] "n" [numbered 1 "a"; numbered 1 "b"] = Ok (tr, bk) ∧
    node_keys (root tr) = [VInt 1; VInt 1].
Proof. eexists _, _. split; vm_compute; reflexivity. Qed.

(** * Range queries *)

Section RangeFacts.
Context {K V R : Type} `{TotalKeys K}.
Variable contents : V → list R.
Variables min_key max_key : K.
Implicit Types (n c : BPlusTreeNode K V) (k : K) (v : V) (s : bool) (lo hi : option K).

Local Abbreviation node := (BPlusTreeNode K V).
Local Abbreviation sel := (select contents min_key max_key).

Lemma select_app (X Y : list (K * V)) : sel (X ++ Y) = sel X ++ sel Y.
Proof. unfold select. apply bind_app. Qed.

Lemma select_cons k v (X : list (K * V)) :
  sel ((k, v) :: X) =
    (if negb (ltK k min_key) && negb (ltK max_key k) then contents v else []) ++ sel X.
Proof. unfold select. by rewrite bind_cons. Qed.

Lemma select_below (X : list (K * V)) :
  Forall (λ e, klt e.1 min_key) X → sel X = [].
Proof.
  induction 1 as [|e X He HX IH]; [done|]. unfold select in *.
  rewrite bind_cons, IH. unfold klt in He. by rewrite He.
Qed.

Lemma select_above (X : list (K * V)) :
  Forall (λ e, klt max_key e.1) X → sel X = [].
Proof.
  induction 1 as [|e X He HX IH]; [done|]. unfold select in *.
  rewrite bind_cons, IH. unfold klt in He. by rewrite He, andb_false_r.
Qed.

(** ** The descent *)

Lemma descend_spec s h lo hi n k :
  wf s h lo hi n →
  ∃ L pre post,
    descend n k = Ok L ∧ leaves n = pre ++ L :: post ∧
    Forall (λ e, klt e.1 k) (pre ≫= leaf_pairs).
Proof.
  revert h lo hi. induction n as [l|keys children IH] using node_induction;
    intros h lo hi Hwf.
  { exists l, [], []. by repeat split. }
  inversion Hwf as [|h' ? ? ? ? Hsize Hkids]; subst.
  rewrite descend_inner.
  destruct (wf_kids_keys _ _ _ _ _ _ Hkids) as [_ Hsorted].
  destruct (bisect_left_spec s keys k Hsorted) as (KA & KB & -> & -> & HKA & HKB).
  pose proof (wf_kids_length _ _ _ _ _ _ Hkids) as Hlen.
  destruct (lookup_lt_is_Some_2 children (length KA)) as [c Hc].
  { rewrite Hlen, length_app. lia. }
  cbn [mbind result_bind]. unfold py_get. rewrite Hc. cbn [mbind result_bind].
  pose proof (take_drop_middle _ _ _ Hc) as Hsplit.
  assert (length KA = length (take (length KA) children)) as HlenA.
  { rewrite length_take_le; [done|]. apply lookup_lt_Some in Hc. lia. }
  rewrite <- Hsplit in Hkids.
  destruct (wf_kids_focus _ _ _ _ _ _ _ _ _ HlenA Hkids) as (Hwfc & _ & HA & _).
  rewrite Forall_forall in IH.
  destruct (IH c (list_elem_of_lookup_2 _ _ _ Hc) _ _ _ Hwfc)
    as (L & pre & post & -> & Hleaves & Hpre).
  exists L, (concat (map leaves (take (length KA) children)) ++ pre),
    (post ++ concat (map leaves (drop (S (length KA)) children))).
  split; [done|]. split.
  - rewrite <- Hsplit at 1. rewrite leaves_middle, Hleaves.
    by rewrite <- !app_assoc.
  - rewrite bind_app. apply Forall_app. split; [|done].
    rewrite concat_bind, map_map. by eapply siblings_below.
Qed.

(** ** The loop over a leaf *)

Lemma Forall_zip_fst (P : K → Prop) (ks : list K) (vs : list V) :
  Forall P ks → Forall (λ e, P e.1) (zip ks vs).
Proof.
  intros Hks. revert vs. induction Hks as [|k ks Hk Hks IH]; intros [|v vs]; simpl;
    constructor; auto.
Qed.

Lemma scan_keys_spec (ks : list K) (vs VA : list V) (results : list R) :
  length ks = length vs → StronglySorted kle ks →
  ∃ b, scan_keys contents min_key max_key ks (length VA) (VA ++ vs) results =
         Ok (results ++ sel (zip ks vs), b) ∧
       (b = true → ∃ k0, k0 ∈ ks ∧ klt max_key k0).
Proof.
  revert vs VA results. induction ks as [|k ks IH]; intros vs VA results Hlen Hsorted.
  { exists false. cbn. by rewrite app_nil_r. }
  destruct vs as [|v vs]; [done|]. injection Hlen as Hlen.
  apply StronglySorted_inv in Hsorted as [Hsorted Hk].
  assert (∀ results', ∃ b,
            scan_keys contents min_key max_key ks (S (length VA)) (VA ++ v :: vs) results' =
              Ok (results' ++ sel (zip ks vs), b) ∧
            (b = true → ∃ k0, k0 ∈ k :: ks ∧ klt max_key k0)) as Hrest.
  { intros results'. destruct (IH vs (VA ++ [v]) results' Hlen Hsorted) as (b & Hrun & Hb).
    rewrite length_app, <- app_assoc in Hrun. cbn in Hrun.
    rewrite Nat.add_1_r in Hrun. exists b. split; [done|].
    intros Hbt. destruct (Hb Hbt) as (k0 & Hk0 & Hmax). exists k0. split; [by right|done]. }
  assert (klt max_key k → sel (zip ks vs) = []) as Hstop.
  { intros Hmax. apply select_above, Forall_zip_fst.
    eapply Forall_impl; [exact Hk|]. intros k' Hk'. by eapply klt_kle_trans. }
  cbn [scan_keys]. rewrite !le_ok. cbn [mbind result_bind].
  unfold py_gt. rewrite lt_ok. unfold py_get. rewrite lookup_middle.
  change (zip (k :: ks) (v :: vs)) with ((k, v) :: zip ks vs). rewrite select_cons.
  destruct (ltK k min_key) eqn:Hmin, (ltK max_key k) eqn:Hmax;
    cbn [negb andb mbind result_bind].
  - exists true. rewrite Hstop by done. rewrite !app_nil_r. split; [done|].
    intros _. exists k. split; [by left|done].
  - apply Hrest.
  - exists true. rewrite Hstop by done. rewrite !app_nil_r. split; [done|].
    intros _. exists k. split; [by left|done].
  - destruct (Hrest (results ++ contents v)) as (b & -> & Hb). exists b.
    by rewrite <- app_assoc.
Qed.

(** ** The walk along the chain *)

Lemma leaf_at_spec (t : BPlusTree K V) (pre post : list (leaf K V)) (L : leaf K V) :
  leaves (root t) = pre ++ L :: post →
  NoDup (leaf_id <$> leaves (root t)) →
  leaf_at (root t) (leaf_id L) = Some L.
Proof.
  intros Hleaves Hnodup. unfold leaf_at.
  assert (list_find (λ l, leaf_id l = leaf_id L) (leaves (root t)) = Some (length pre, L))
    as ->; [|done].
  apply list_find_Some. rewrite Hleaves. split; [apply lookup_middle|]. split; [done|].
  intros j y Hy Hj Hid. rewrite Hleaves in Hnodup.
  assert ((leaf_id <$> pre ++ L :: post) !! j = Some (leaf_id L)) as Hj1.
  { by rewrite list_lookup_fmap, Hy, <- Hid. }
  assert ((leaf_id <$> pre ++ L :: post) !! length pre = Some (leaf_id L)) as Hj2.
  { by rewrite list_lookup_fmap, lookup_middle. }
  pose proof (NoDup_lookup _ _ _ _ Hnodup Hj1 Hj2). lia.
Qed.

Lemma walk_spec (t : BPlusTree K V) fuel (pre post : list (leaf K V)) (L : leaf K V)
    (results : list R) :
  leaves (root t) = pre ++ L :: post →
  chained (leaves (root t)) None →
  NoDup (leaf_id <$> leaves (root t)) →
  Forall (λ l, length (leaf_keys l) = length (leaf_values l)) (leaves (root t)) →
  StronglySorted kle ((L :: post) ≫= leaf_pairs).*1 →
  length post < fuel →
  walk contents t min_key max_key fuel L results =
    Ok (results ++ sel ((L :: post) ≫= leaf_pairs)).
Proof.
  intros Hleaves Hchain Hnodup Hlens.
  revert fuel pre L results Hleaves.
  induction post as [|L' post IH]; intros fuel pre L results Hleaves Hsorted Hfuel;
    (destruct fuel as [|fuel]; [lia|]); cbn [walk].
  all: assert (length (leaf_keys L) = length (leaf_values L)) as HlenL
    by (rewrite Forall_forall in Hlens; apply Hlens; rewrite Hleaves;
        apply elem_of_app; right; by left).
  all: assert ((leaf_pairs L).*1 = leaf_keys L) as Hfst
    by (unfold leaf_pairs; by apply fst_zip; lia).
  all: rewrite bind_cons, fmap_app, Hfst in Hsorted;
    apply StronglySorted_app in Hsorted as (Hacross & HsL & Hspost).
  all: destruct (scan_keys_spec (leaf_keys L) (leaf_values L) [] results HlenL HsL)
    as (b & Hscan & Hb); cbn [length app] in Hscan; rewrite Hscan;
    cbn [mbind result_bind]; fold (leaf_pairs L).
  all: rewrite Hleaves in Hchain; apply chained_app in Hchain as [_ Hchain];
    cbn [chained] in Hchain; destruct Hchain as [Hnext Hchain].
  - rewrite bind_cons. change ([] ≫= leaf_pairs) with (@nil (K * V)).
    rewrite app_nil_r. destruct b; [done|]. by rewrite Hnext.
  - rewrite (bind_cons _ L), select_app, app_assoc.
    destruct b.
    + destruct (Hb eq_refl) as (k0 & Hk0 & Hmax).
      rewrite (select_above ((L' :: post) ≫= leaf_pairs)); [by rewrite app_nil_r|].
      apply Forall_forall. intros e He. eapply klt_kle_trans; [done|].
      apply Hacross; [done|]. by apply list_elem_of_fmap_2.
    + rewrite Hnext.
      rewrite (leaf_at_spec t (pre ++ [L]) post L'); [|by rewrite <- app_assoc|done].
      apply (IH fuel (pre ++ [L])); [by rewrite <- app_assoc|done|simpl in Hfuel; lia].
Qed.
(** ** The leaves of a well-formed tree *)

Lemma wf_leaf_lengths s h lo hi n :
  wf s h lo hi n →
  Forall (λ l, length (leaf_keys l) = length (leaf_values l)) (leaves n).
Proof.
  revert h lo hi. induction n as [l|keys children IH] using node_induction;
    intros h lo hi Hwf.
  - inversion Hwf; subst. simpl. by constructor.
  - inversion Hwf as [|h' ? ? ? ? Hsize Hkids]; subst.
    apply wf_kids_children in Hkids. simpl. clear Hwf Hsize.
    induction Hkids as [|c cs (lo' & hi' & Hc) Hcs IHcs]; simpl; [done|].
    apply Forall_cons in IH as [IHc IH]. apply Forall_app. split; eauto.
Qed.

Lemma wf_pairs_sorted s h lo hi n :
  wf s h lo hi n → StronglySorted (rel s) (pairs n).*1.
Proof.
  revert h lo hi. induction n as [l|keys children IH] using node_induction;
    intros h lo hi Hwf.
  - inversion Hwf as [? ? ? Hlen Hsize Hsorted Hbounds|]; subst.
    unfold pairs. simpl. rewrite app_nil_r. unfold leaf_pairs.
    by rewrite fst_zip by lia.
  - inversion Hwf as [|h' ? ? ? ? Hlen Hkids]; subst. rewrite pairs_inner.
    clear Hwf.
    induction Hkids as [h lo hi c Hc|h lo hi k ks c cs Hlo Hhi Hc Hkids IHk];
      apply Forall_cons in IH as [IHc IH]; simpl.
    + rewrite app_nil_r. by eapply IHc.
    + simpl in Hlen. rewrite fmap_app. apply StronglySorted_app.
      split; [|split; [by eapply IHc|apply IHk; [done|unfold order; lia]]].
      intros x1 x2 [e1 [-> He1]]%list_elem_of_fmap [e2 [-> He2]]%list_elem_of_fmap.
      pose proof (wf_pairs_bounds _ _ _ _ _ Hc) as Hbc.
      assert (wf s (S h) (Some k) hi (InnerNode ks cs)) as Hrest
        by (constructor; [unfold order; lia|done]).
      apply wf_pairs_bounds in Hrest. rewrite pairs_inner in Hrest.
      rewrite Forall_forall in Hbc, Hrest.
      destruct (Hbc _ He1) as [_ Hhi1]. destruct (Hrest _ He2) as [Hlo2 _].
      simpl in Hhi1, Hlo2. by eapply rel_kle_trans.
Qed.

(** ** [range_query] *)

Lemma range_query_spec s (t : BPlusTree K V) :
  tree_inv s t →
  range_query contents t min_key max_key = Ok (sel (pairs (root t))).
Proof.
  intros [[h Hwf] Hchain Hids Hfresh]. unfold range_query.
  destruct (descend_spec s h None None (root t) min_key Hwf)
    as (L & pre & post & -> & Hleaves & Hpre).
  cbn [mbind result_bind].
  rewrite (walk_spec t _ pre post L []); try done.
  - unfold pairs. by rewrite Hleaves, bind_app, select_app, (select_below _ Hpre).
  - by eapply wf_leaf_lengths.
  - pose proof (wf_pairs_sorted _ _ _ _ _ Hwf) as Hsorted. unfold pairs in Hsorted.
    rewrite Hleaves, bind_app, fmap_app in Hsorted.
    apply StronglySorted_app in Hsorted as (_ & _ & Hsorted).
    by eapply sorted_rel_kle.
  - rewrite Hleaves, length_app. simpl. lia.
Qed.

Lemma select_outside (X : list (K * V)) :
  Forall (λ e, klt e.1 min_key ∨ klt max_key e.1) X → sel X = [].
Proof.
  induction 1 as [|[k v] X He HX IH]; [done|]. rewrite select_cons, IH.
  unfold klt in He. simpl in He. destruct He as [->| ->]; [done|]. by rewrite andb_false_r.
Qed.

Lemma ins_pair_perm k v (es : list (K * V)) : ins_pair k v es ≡ₚ (k, v) :: es.
Proof.
  induction es as [|e es IH]; simpl; [done|]. destruct (ltK e.1 k); [|done].
  rewrite IH. apply Permutation_swap.
Qed.

Lemma sort_pairs_perm (ops : list (K * V)) : sort_pairs ops ≡ₚ ops.
Proof.
  induction ops as [|[k v] ops IH] using rev_ind; [done|].
  rewrite sort_pairs_snoc, ins_pair_perm, IH. by rewrite Permutation_cons_append.
Qed.
End RangeFacts.

(** * C7: range queries *)

(** C7, as the code has it.  For keys in a total order, every sequence
    of inserts builds a tree, and a range query on it returns the
    contents of the values of the pairs inserted whose key lies within
    the bounds, in the order of the keys: once for every insertion of
    the key, so once for every key when no key is inserted twice.  When
    no inserted key lies within the bounds the result is empty. *)
Theorem range_query_in_key_order {K V R : Type} `{TotalKeys K}
    (contents : V → list R) (ops : list (K * V)) (min_key max_key : K) :
  ∃ t, build ops = Done tt t ∧
       range_query contents t min_key max_key =
         Ok (select contents min_key max_key (sort_pairs ops)) ∧
       sort_pairs ops ≡ₚ ops ∧
       StronglySorted kle (sort_pairs ops).*1 ∧
       (NoDup ops.*1 → StronglySorted klt (sort_pairs ops).*1) ∧
       ((∀ k, k ∈ ops.*1 → klt k min_key ∨ klt max_key k) →
        range_query contents t min_key max_key = Ok []).
Proof.
  destruct (build_spec false ops) as (t & Hbuild & Hinv & Hpairs & _); [done|].
  exists t. split; [done|].
  pose proof (range_query_spec contents min_key max_key false t Hinv) as Hquery.
  rewrite Hpairs in Hquery. split; [done|].
  split; [apply sort_pairs_perm|].
  destruct Hinv as [[h Hwf] _ _ _]. split; [|split].
  - rewrite <- Hpairs. by apply (wf_pairs_sorted false h None None).
  - intros Hnodup.
    destruct (build_spec true ops) as (t' & Hbuild' & [[h' Hwf'] _ _ _] & Hpairs' & _);
      [done|].
    rewrite <- Hpairs'. by apply (wf_pairs_sorted true h' None None).
  - intros Hout. rewrite Hquery. f_equal. apply select_outside, Forall_forall.
    intros e He. apply Hout. rewrite <- sort_pairs_perm. by apply list_elem_of_fmap_2.
Qed.

Lemma range_query_in_key_order_witness :
  ∃ t, build [(5, 50); (1, 10); (4, 40); (2, 20); (3, 30); (6, 60)]%Z = Done tt t ∧
       range_query (λ v, [v]) t 7%Z 9%Z =
         Ok (select (λ v, [v]) 7%Z 9%Z
               (sort_pairs [(5, 50); (1, 10); (4, 40); (2, 20); (3, 30); (6, 60)]%Z)) ∧
       sort_pairs [(5, 50); (1, 10); (4, 40); (2, 20); (3, 30); (6, 60)]%Z ≡ₚ
         [(5, 50); (1, 10); (4, 40); (2, 20); (3, 30); (6, 60)]%Z ∧
       StronglySorted kle
         (sort_pairs [(5, 50); (1, 10); (4, 40); (2, 20); (3, 30); (6, 60)]%Z).*1 ∧
       (NoDup [5; 1; 4; 2; 3; 6]%Z →
        StronglySorted klt
          (sort_pairs [(5, 50); (1, 10); (4, 40); (2, 20); (3, 30); (6, 60)]%Z).*1) ∧
       ((∀ k, k ∈ [5; 1; 4; 2; 3; 6]%Z → klt k 7%Z ∨ klt 9%Z k) →
        range_query (λ v, [v]) t 7%Z 9%Z = Ok []).
Proof.
  exact (range_query_in_key_order (K:=Z) (V:=Z) (λ v, [v])
           [(5, 50); (1, 10); (4, 40); (2, 20); (3, 30); (6, 60)]%Z 7%Z 9%Z).
Defined.

(** C7, as it is stated, fails: the engine adds a second row under the
    key 1 by inserting the key again, the leaf then holds the key twice
    with the same bucket, and the range query returns the two rows of the
    bucket twice. *)
Lemma range_query_repeats_bucket :
  ∃ tr bk ref,
    scan_rows empty_tree [] "n" [numbered 1 "a"; numbered 1 "b"] = Ok (tr, bk) ∧
    search tr (VInt 1) = Ok (Some ref) ∧
    bucket bk ref = [numbered 1 "a"; numbered 1 "b"] ∧
    range_query (bucket bk) tr (VInt 1) (VInt 1) =
      Ok [numbered 1 "a"; numbered 1 "b"; numbered 1 "a"; numbered 1 "b"].
Proof. eexists _, _, _. repeat split; vm_compute; reflexivity. Qed.

(** * Dictionaries *)

Section DictFacts.
Context {A : Type}.
Implicit Types (d : dict A) (k : string) (v : A).

Lemma dict_get_set_eq k v d : dict_get k (dict_set k v d) = Some v.
Proof.
  induction d as [|[k' v'] d IH]; simpl.
  - by rewrite String.eqb_refl.
  - destruct (String.eqb k' k) eqn:E; simpl.
    + by rewrite String.eqb_refl.
    + by rewrite E.
Qed.

Lemma dict_get_set_ne k k' v d :
  k ≠ k' → dict_get k' (dict_set k v d) = dict_get k' d.
Proof.
  intros Hne. induction d as [|[k0 v0] d IH]; simpl.
  - destruct (String.eqb k k') eqn:E; [|done].
    by apply String.eqb_eq in E.
  - destruct (String.eqb k0 k) eqn:E; simpl.
    + apply String.eqb_eq in E as ->.
      destruct (String.eqb k k') eqn:E'; [|done].
      by apply String.eqb_eq in E'.
    + by rewrite IH.
Qed.

Lemma dict_get_set k k' v d :
  dict_get k' (dict_set k v d) = if String.eqb k k' then Some v else dict_get k' d.
Proof.
  destruct (String.eqb k k') eqn:E.
  - apply String.eqb_eq in E as ->. apply dict_get_set_eq.
  - apply dict_get_set_ne. intros ->. by rewrite String.eqb_refl in E.
Qed.

Lemma dict_set_set k v v' d : dict_set k v (dict_set k v' d) = dict_set k v d.
Proof.
  induction d as [|[k0 v0] d IH]; simpl.
  - by rewrite String.eqb_refl.
  - destruct (String.eqb k0 k) eqn:E; simpl.
    + by rewrite String.eqb_refl.
    + by rewrite E, IH.
Qed.
End DictFacts.

(** * The unique-constraint check of [_insert] *)

Lemma find_duplicate_complete (ucols : list string) (r : row) (rs : list row) c v r0 :
  c ∈ ucols → dict_get c r = Some v → r0 ∈ rs → holds r0 c v = true →
  is_Some (find_duplicate ucols r rs).
Proof.
  intros Hc Hv Hr0 Hh. induction ucols as [|u us IH]; [by apply elem_of_nil in Hc|].
  simpl. apply elem_of_cons in Hc as [<-|Hc].
  - rewrite Hv. replace (existsb _ rs) with true; [by eexists|].
    symmetry. apply existsb_exists. exists r0. split; [|done].
    by apply list_elem_of_In.
  - destruct (dict_get u r); [destruct (existsb _ rs)|]; eauto.
Qed.

Lemma auto_key_table (table : Table) (cols : list string) :
  let t1 := snd (auto_key table cols) in
  rows t1 = rows table ∧ unique_columns t1 = unique_columns table ∧
  primary_key t1 = primary_key table.
Proof.
  unfold auto_key. destruct (primary_key table) as [pk|] eqn:E; [|by rewrite ?E].
  destruct (truthy pk && _); simpl; by rewrite ?E.
Qed.

Lemma auto_key_next_id (table : Table) (cols : list string) :
  ∃ n, (n = next_id table ∨ n = next_id table + 1)%Z ∧
       snd (auto_key table cols) = with_next_id table n.
Proof.
  assert (table = with_next_id table (next_id table)) as Hsame by by destruct table.
  unfold auto_key. destruct (primary_key table) as [pk|].
  - destruct (truthy pk && _); simpl.
    + exists (next_id table + 1)%Z. split; [by right|done].
    + exists (next_id table). split; [by left|done].
  - exists (next_id table). split; [by left|done].
Qed.

(** C4.  An insert whose new row holds, under a unique column, a value
    that an existing row of the table holds (equal as [==] finds them)
    raises the [ValueError] of the duplicate value; the rows of every
    table, those of the table of the insert among them, and the whole log
    (entries, counter and file) are as they were.  Nothing of the insert
    is left in the engine: the indexes and the snapshot are as they were
    too, and the tables are the tables of before but for the counter of
    the table of the insert, which is as it was or one further. *)
Theorem insert_duplicate_rejected (e : PaymentRDBMS) (now table_name : string)
    (cols : list string) (values : list scalar) (table : Table)
    (c : string) (v : scalar) (r0 : row) :
  dict_get table_name (tables e) = Some table →
  c ∈ unique_columns table →
  dict_get c (new_row table cols values) = Some v →
  r0 ∈ rows table →
  holds r0 c v = true →
  ∃ c' e',
    _insert e now table_name cols values = Raised (ValueError (DuplicateValue c')) e' ∧
    (rows <$> dict_get table_name (tables e')) = Some (rows table) ∧
    (∀ nm, rows <$> dict_get nm (tables e') = rows <$> dict_get nm (tables e)) ∧
    wal e' = wal e ∧
    indexes e' = indexes e ∧
    storage e' = storage e ∧
    ∃ n, (n = next_id table ∨ n = next_id table + 1)%Z ∧
         tables e' = dict_set table_name (with_next_id table n) (tables e).
Proof.
  intros Ht Hc Hv Hr0 Hh. unfold _insert, new_row in *. rewrite Ht.
  pose proof (auto_key_table table cols) as (Hrows & Huniq & _).
  pose proof (auto_key_next_id table cols) as (n & Hn & Hnext).
  destruct (auto_key table cols) as [row0 table1]; simpl in *.
  destruct (find_duplicate_complete (elements (unique_columns table1))
              (fill_row row0 cols values) (rows table1) c v r0) as [c' Hc'].
  { rewrite Huniq. by apply elem_of_elements. }
  { done. } { by rewrite Hrows. } { done. }
  rewrite Hc'. exists c', (set_tables e (dict_set table_name table1 (tables e))).
  split; [done|]. simpl. split; [|split; [|split; [|split; [|split]]]]; try done.
  - by rewrite dict_get_set_eq; simpl; rewrite Hrows.
  - intros nm. rewrite dict_get_set.
    destruct (String.eqb table_name nm) eqn:E; [|done].
    apply String.eqb_eq in E as <-. by rewrite Ht; simpl; rewrite Hrows.
  - exists n. by rewrite <- Hnext.
Qed.

Lemma insert_duplicate_rejected_witness :
  ∃ c' e',
    _insert (run empty_engine "09:01" four_customers) "09:02" "customers"
      ["email"] [VText "bob@example.com"]
    = Raised (ValueError (DuplicateValue c')) e' ∧
    (rows <$> dict_get "customers" (tables e')) =
      Some [customer 1 "alice@example.com"; customer 2 "bob@example.com";
            customer 3 "charlie@example.com"; customer 4 "dave@example.com"] ∧
    (∀ nm, rows <$> dict_get nm (tables e') =
           rows <$> dict_get nm (tables (run empty_engine "09:01" four_customers))) ∧
    wal e' = wal (run empty_engine "09:01" four_customers) ∧
    indexes e' = indexes (run empty_engine "09:01" four_customers) ∧
    storage e' = storage (run empty_engine "09:01" four_customers) ∧
    ∃ n, (n = 5 ∨ n = 5 + 1)%Z ∧
         tables e' =
           dict_set "customers"
             (with_next_id
                (MkTable "customers" customers_columns
                   [customer 1 "alice@example.com"; customer 2 "bob@example.com";
                    customer 3 "charlie@example.com"; customer 4 "dave@example.com"]
                   (Some "id") {["email"]} 5) n)
             (tables (run empty_engine "09:01" four_customers)).
Proof.
  eapply (insert_duplicate_rejected _ _ _ _ _
            (MkTable "customers" customers_columns
               [customer 1 "alice@example.com"; customer 2 "bob@example.com";
                customer 3 "charlie@example.com"; customer 4 "dave@example.com"]
               (Some "id") {["email"]} 5)
            "email" (VText "bob@example.com") (customer 2 "bob@example.com")).
  - vm_compute. reflexivity.
  - vm_compute. reflexivity.
  - vm_compute. reflexivity.
  - apply list_elem_of_lookup. exists 1. reflexivity.
  - vm_compute. reflexivity.
Defined.

(** C9.  A table has a primary key when [primary_key] is a text that
    Python takes for true.  When an insert into such a table does not name
    the key column and is rejected for a duplicate unique value, the table
    it leaves has its counter one further, with the rows and the log as
    they were: the value is spent. *)
Theorem rejected_insert_consumes_key (e : PaymentRDBMS) (now table_name : string)
    (cols : list string) (values : list scalar) (table : Table)
    (pk c : string) (e' : PaymentRDBMS) :
  dict_get table_name (tables e) = Some table →
  primary_key table = Some pk →
  truthy pk = true →
  pk ∉ cols →
  _insert e now table_name cols values = Raised (ValueError (DuplicateValue c)) e' →
  dict_get table_name (tables e') =
    Some (with_next_id table (next_id table + 1)) ∧
  rows (with_next_id table (next_id table + 1)) = rows table ∧
  wal e' = wal e.
Proof.
  intros Ht Hpk Htruthy Hcols. unfold _insert. rewrite Ht.
  unfold auto_key. rewrite Hpk, Htruthy.
  replace (existsb (String.eqb pk) cols) with false; simpl.
  2:{ symmetry. apply not_true_is_false. intros (x & Hx & Heq)%existsb_exists.
      apply String.eqb_eq in Heq as <-. by apply Hcols, list_elem_of_In. }
  destruct (find_duplicate _ _ _) as [u|].
  - intros [= <- <-]. simpl. by rewrite dict_get_set_eq.
  - destruct (update_indexes _ _ _) as [[] ix|ex ix] eqn:Hu; simpl; [done|].
    intros [= -> _]. by apply update_indexes_raises in Hu.
Qed.

Lemma rejected_insert_consumes_key_witness :
  dict_get "customers"
    (tables (state_of (_insert (run empty_engine "09:01" four_customers) "09:02"
                         "customers" ["email"] [VText "bob@example.com"]))) =
    Some (MkTable "customers" customers_columns
            [customer 1 "alice@example.com"; customer 2 "bob@example.com";
             customer 3 "charlie@example.com"; customer 4 "dave@example.com"]
            (Some "id") {["email"]} 6).
Proof.
  pose proof (rejected_insert_consumes_key
    (run empty_engine "09:01" four_customers) "09:02" "customers"
    ["email"] [VText "bob@example.com"]
    (MkTable "customers" customers_columns
       [customer 1 "alice@example.com"; customer 2 "bob@example.com";
        customer 3 "charlie@example.com"; customer 4 "dave@example.com"]
       (Some "id") {["email"]} 5)
    "id" "email"
    (state_of (_insert (run empty_engine "09:01" four_customers) "09:02"
                 "customers" ["email"] [VText "bob@example.com"]))) as H.
  destruct H as (H & _).
  - vm_compute. reflexivity.
  - reflexivity.
  - reflexivity.
  - intros Hin. apply list_elem_of_singleton in Hin. discriminate.
  - vm_compute. reflexivity.
  - rewrite H. vm_compute. reflexivity.
Defined.

(** * [_create_table] *)

Lemma list_ascii_of_append (s t : string) :
  list_ascii_of_string (s ++ t) = list_ascii_of_string s ++ list_ascii_of_string t.
Proof. induction s as [|a s IH]; simpl; [done|by rewrite IH]. Qed.

Lemma default_index_key_inj (table_name c1 c2 : string) :
  default_index_key table_name c1 = default_index_key table_name c2 → c1 = c2.
Proof.
  unfold default_index_key. intros Heq.
  apply (f_equal list_ascii_of_string) in Heq.
  rewrite !list_ascii_of_append in Heq.
  apply app_inv_head, app_inv_head, app_inv_tail in Heq.
  rewrite <- (string_of_list_ascii_of_string c1), <- (string_of_list_ascii_of_string c2).
  by rewrite Heq.
Qed.

Lemma create_index_default (e : PaymentRDBMS) (table_name col : string) :
  _create_index e table_name col None =
  match scanned_index (tables e) table_name col with
  | Ok ix =>
      Done tt (set_indexes e (dict_set (default_index_key table_name col) ix (indexes e)))
  | Raise ex => Raised ex e
  end.
Proof.
  unfold _create_index, scanned_index.
  destruct (dict_get table_name (tables e)) as [table|]; [|done].
  by destruct (scan_rows _ _ _ _) as [[tr bk]|ex].
Qed.

Lemma scanned_index_raises tbls table_name col ex :
  scanned_index tbls table_name col = Raise ex → is_tree_exn ex = true.
Proof.
  unfold scanned_index. destruct (dict_get table_name tbls) as [table|]; [|done].
  destruct (scan_rows _ _ _ _) as [[tr bk]|ex'] eqn:Hs; [done|].
  intros [= <-]. by eapply scan_rows_raises.
Qed.

(** One round of the loop of [_create_table]. *)
Lemma create_table_columns_cons e table_name c defs pk :
  create_table_columns e table_name (c :: defs) pk =
  if indexed c then
    match scanned_index (tables e) table_name (col_name c) with
    | Ok ix =>
        create_table_columns
          (set_indexes e
             (dict_set (default_index_key table_name (col_name c)) ix (indexes e)))
          table_name defs (if is_primary c then Some (col_name c) else pk)
    | Raise ex => Raised ex e
    end
  else create_table_columns e table_name defs pk.
Proof.
  unfold indexed. cbn [create_table_columns].
  destruct (is_primary c), (is_unique c); cbn [orb]; try done;
    rewrite create_index_default;
    destruct (scanned_index _ _ _) as [ix|ex] eqn:Hs; try done.
  rewrite create_index_default. cbn [tables set_indexes]. rewrite Hs.
  cbn [indexes set_indexes]. rewrite dict_set_set. by unfold set_indexes.
Qed.

Lemma create_table_columns_Raised e table_name defs pk ex e' :
  create_table_columns e table_name defs pk = Raised ex e' →
  is_tree_exn ex = true ∧ tables e' = tables e ∧ wal e' = wal e.
Proof.
  revert e pk. induction defs as [|c defs IH]; intros e pk; [done|].
  rewrite create_table_columns_cons. destruct (indexed c); [|apply IH].
  destruct (scanned_index _ _ _) as [ix|ex'] eqn:Hs.
  - intros (? & ? & ?)%IH. done.
  - intros [= <- <-]. split; [|done]. by eapply scanned_index_raises.
Qed.

Lemma create_table_columns_keeps e table_name defs pk pk' e' k v :
  create_table_columns e table_name defs pk = Done pk' e' →
  dict_get k (indexes e) = Some v →
  (∀ c, c ∈ defs → indexed c = true →
        default_index_key table_name (col_name c) = k →
        scanned_index (tables e) table_name (col_name c) = Ok v) →
  dict_get k (indexes e') = Some v.
Proof.
  revert e pk. induction defs as [|c defs IH]; intros e pk.
  { by intros [= _ <-]. }
  rewrite create_table_columns_cons. intros Hrun Hk Hsame.
  destruct (indexed c) eqn:Hc.
  2:{ eapply IH; [done..|]. intros c' Hc'. apply Hsame. by right. }
  destruct (scanned_index _ _ _) as [ix|ex'] eqn:Hs; [|done].
  eapply IH; [done| |].
  - cbn. rewrite dict_get_set.
    destruct (String.eqb _ k) eqn:E; [|done].
    apply String.eqb_eq in E.
    assert (Ok ix = Ok v) as [= ->]; [|done].
    rewrite <- Hs. apply Hsame; [by left|done..].
  - intros c' Hc'. cbn. apply Hsame. by right.
Qed.

Lemma create_table_columns_Done e table_name defs pk pk' e' :
  create_table_columns e table_name defs pk = Done pk' e' →
  tables e' = tables e ∧ wal e' = wal e ∧ storage e' = storage e ∧
  pk' = declared_primary_key defs pk ∧
  ∀ c, c ∈ defs → indexed c = true →
    ∃ ix, scanned_index (tables e) table_name (col_name c) = Ok ix ∧
          dict_get (default_index_key table_name (col_name c)) (indexes e') = Some ix.
Proof.
  revert e pk. induction defs as [|c defs IH]; intros e pk.
  { intros [= <- <-]. repeat split; try done. by intros c ?%elem_of_nil. }
  rewrite create_table_columns_cons. intros Hrun.
  assert (∃ e1, create_table_columns e1 table_name defs
                  (if is_primary c then Some (col_name c) else pk) = Done pk' e' ∧
                tables e1 = tables e ∧ wal e1 = wal e ∧ storage e1 = storage e ∧
                (indexed c = true →
                 ∃ ix, scanned_index (tables e) table_name (col_name c) = Ok ix ∧
                       dict_get (default_index_key table_name (col_name c)) (indexes e1)
                       = Some ix))
    as (e1 & Hrun1 & Ht & Hw & Hst & Hhead).
  { destruct (indexed c) eqn:Hc.
    - destruct (scanned_index _ _ _) as [ix|ex'] eqn:Hs; [|done].
      eexists. split; [done|]. repeat split; try done.
      intros _. exists ix. split; [done|]. cbn. apply dict_get_set_eq.
    - exists e. unfold indexed in Hc. apply orb_false_iff in Hc as [-> _].
      by repeat split. }
  destruct (IH _ _ Hrun1) as (Ht' & Hw' & Hst' & Hpk & Hix).
  split; [congruence|]. split; [congruence|]. split; [congruence|].
  split; [exact Hpk|].
  intros c' [->|Hc']%elem_of_cons Hind.
  - destruct (Hhead Hind) as (ix & Hs & Hget). exists ix. split; [done|].
    eapply create_table_columns_keeps; [done..|].
    intros c0 _ _ Hkey. apply default_index_key_inj in Hkey. by rewrite Ht, Hkey.
  - rewrite <- Ht. by apply Hix.
Qed.

Lemma create_table_columns_total e table_name defs pk :
  (∀ c, c ∈ defs → indexed c = true →
        ∃ ix, scanned_index (tables e) table_name (col_name c) = Ok ix) →
  ∃ pk' e', create_table_columns e table_name defs pk = Done pk' e'.
Proof.
  revert e pk. induction defs as [|c defs IH]; intros e pk Hok; [by eexists _, _|].
  rewrite create_table_columns_cons. destruct (indexed c) eqn:Hc.
  - destruct (Hok c) as [ix ->]; [by left|done|].
    apply IH. intros c' Hc'. cbn. apply Hok. by right.
  - apply IH. intros c' Hc'. apply Hok. by right.
Qed.

Lemma append_entries (w : WriteAheadLog) now op table d :
  entries (snd (append w now op table d)) =
  entries w ++ [MkEntry op table d now (lsn_counter w)].
Proof. unfold append. cbn. by destruct (_ <? _)%Z. Qed.

Lemma create_table_Done e now table_name defs pk e1 :
  create_table_columns e table_name defs None = Done pk e1 →
  _create_table e now table_name defs =
    Done (TableCreated table_name)
      (set_wal (set_tables e1 (dict_set table_name (new_table table_name defs pk) (tables e1)))
         (snd (append (wal e1) now "CREATE_TABLE" table_name (PColumns defs)))).
Proof. unfold _create_table. by intros ->. Qed.

(** C5, as the code has it.  [_create_table] has no check of the name.
    On a name that is registered it raises no [ValueError]: either it
    returns, after which the name is registered to a new table with the
    columns given and no rows and the log has gained the [CREATE_TABLE]
    entry, or the scan of the old rows for an index raised and the table
    registered and the log are as they were. *)
Theorem create_table_on_registered_name (e : PaymentRDBMS) (now table_name : string)
    (defs : list column) (old : Table) :
  dict_get table_name (tables e) = Some old →
  (∃ e', _create_table e now table_name defs = Done (TableCreated table_name) e' ∧
         dict_get table_name (tables e') =
           Some (new_table table_name defs (declared_primary_key defs None)) ∧
         entries (wal e') =
           entries (wal e) ++
           [MkEntry "CREATE_TABLE" table_name (PColumns defs) now (lsn_counter (wal e))]) ∨
  (∃ ex e', _create_table e now table_name defs = Raised ex e' ∧
            is_tree_exn ex = true ∧
            dict_get table_name (tables e') = Some old ∧
            wal e' = wal e).
Proof.
  intros Hold.
  destruct (create_table_columns e table_name defs None) as [pk e1|ex e1] eqn:Hcols.
  - left. rewrite (create_table_Done _ _ _ _ _ _ Hcols). eexists. split; [done|].
    apply create_table_columns_Done in Hcols as (Ht & Hw & _ & -> & _).
    cbn [tables wal set_wal set_tables]. rewrite dict_get_set_eq, append_entries, Hw. done.
  - right. exists ex, e1. unfold _create_table. rewrite Hcols. split; [done|].
    apply create_table_columns_Raised in Hcols as (? & -> & ->). done.
Qed.

Lemma create_table_on_registered_name_witness :
  ∃ e', _create_table (run empty_engine "09:01" four_customers) "09:02" "customers"
          customers_columns = Done (TableCreated "customers") e' ∧
        (rows <$> dict_get "customers" (tables e')) = Some [].
Proof.
  destruct (create_table_on_registered_name
              (run empty_engine "09:01" four_customers) "09:02" "customers"
              customers_columns
              (MkTable "customers" customers_columns
                 [customer 1 "alice@example.com"; customer 2 "bob@example.com";
                  customer 3 "charlie@example.com"; customer 4 "dave@example.com"]
                 (Some "id") {["email"]} 5))
    as [(e' & Hrun & Htable & _)|(ex & e' & Hrun & _)].
  - vm_compute. reflexivity.
  - exists e'. split; [exact Hrun|]. rewrite Htable. reflexivity.
  - exfalso. revert Hrun. vm_compute. discriminate.
Defined.

(** C5, as it is stated, fails: the table is registered and the statement
    returns. *)
Lemma create_table_twice_returns :
  is_Some (dict_get "customers" (tables (run empty_engine "09:01" four_customers))) ∧
  ¬ ∃ ex e', _create_table (run empty_engine "09:01" four_customers) "09:02" "customers"
               customers_columns = Raised ex e'.
Proof.
  split.
  - vm_compute. eexists. reflexivity.
  - intros (ex & e' & Hrun). revert Hrun. vm_compute. discriminate.
Qed.

(** * The buckets of a scan *)

Lemma add_row_buckets tr bk value r tr' bk' :
  add_row tr bk value r = Done tt (tr', bk') →
  (∃ ref, r ∈ bucket bk' ref) ∧
  (∀ ref r', r' ∈ bucket bk ref → r' ∈ bucket bk' ref) ∧
  (∀ ref r', r' ∈ bucket bk' ref → r' = r ∨ r' ∈ bucket bk ref).
Proof.
  unfold add_row. destruct (search tr value) as [found|]; [|done].
  set (p := match found with Some _ => _ | None => _ end).
  assert (∃ existing bk1, p = (existing, bk1) ∧ existing < length bk1 ∧
            ∀ ref, bucket bk1 ref = bucket bk ref) as (existing & bk1 & -> & Hlt & Hsame).
  { assert (∀ ref, bucket (bk ++ [[]]) ref = bucket bk ref) as Hnew.
    { intros ref. unfold bucket. destruct (decide (ref < length bk)) as [Hl|Hl].
      - by rewrite lookup_app_l.
      - rewrite lookup_app_r, (lookup_ge_None_2 bk) by lia.
        by destruct (ref - length bk) as [|[|]]. }
    subst p. destruct found as [ref|].
    - destruct (bucket bk ref) as [|r1 b] eqn:Hb.
      + eexists _, _. split; [done|]. rewrite length_app. simpl. split; [lia|done].
      + eexists _, _. split; [done|]. split; [|done].
        unfold bucket in Hb. destruct (bk !! ref) eqn:Hl; [|done].
        by eapply lookup_lt_Some.
    - eexists _, _. split; [done|]. rewrite length_app. simpl. split; [lia|done]. }
  destruct (insert tr value existing) as [[] tr1|]; [|done].
  intros [= <- <-].
  assert (∀ ref, bucket (alter (λ b, b ++ [r]) existing bk1) ref =
                 if decide (ref = existing) then bucket bk ref ++ [r] else bucket bk ref)
    as Halter.
  { intros ref. unfold bucket. case_decide as Href.
    - subst ref. rewrite list_lookup_alter_eq. specialize (Hsame existing).
      unfold bucket in Hsame. destruct (lookup_lt_is_Some_2 bk1 existing Hlt) as [b Hb].
      rewrite Hb in *. simpl in *. by rewrite Hsame.
    - rewrite list_lookup_alter_ne by done. apply Hsame. }
  split; [|split].
  - exists existing. rewrite Halter, decide_True by done.
    apply elem_of_app. right. by apply list_elem_of_singleton.
  - intros ref r' Hr'. rewrite Halter. case_decide; [|done].
    apply elem_of_app. by left.
  - intros ref r' Hr'. rewrite Halter in Hr'. case_decide; [|by right].
    apply elem_of_app in Hr' as [Hr'|Hr']; [by right|].
    left. by apply list_elem_of_singleton.
Qed.

Lemma scan_rows_buckets tr bk col rs tr' bk' :
  scan_rows tr bk col rs = Ok (tr', bk') →
  (∀ r, r ∈ rs → is_Some (dict_get col r) → ∃ ref, r ∈ bucket bk' ref) ∧
  (∀ ref r, r ∈ bucket bk ref → r ∈ bucket bk' ref) ∧
  (∀ ref r, r ∈ bucket bk' ref → r ∈ rs ∨ r ∈ bucket bk ref).
Proof.
  revert tr bk. induction rs as [|r rs IH]; intros tr bk; simpl.
  { intros [= <- <-]. split; [|split]; [by intros r ?%elem_of_nil|done|by right]. }
  destruct (dict_get col r) as [value|] eqn:Hv.
  - destruct (add_row tr bk value r) as [[] [tr1 bk1]|] eqn:Hadd; [|done].
    intros (Hall & Hmono & Hfrom)%IH.
    apply add_row_buckets in Hadd as ((ref0 & Hr) & Hmono1 & Hfrom1).
    split; [|split].
    + intros r' [->|Hr']%elem_of_cons Hsome; eauto.
    + eauto.
    + intros ref r' [Hr'|Hr']%Hfrom; [left; by right|].
      apply Hfrom1 in Hr' as [->|Hr']; [left; by left|by right].
  - intros (Hall & Hmono & Hfrom)%IH. split; [|split].
    + intros r' [->|Hr']%elem_of_cons Hsome; [|eauto].
      rewrite Hv in Hsome. by destruct Hsome.
    + done.
    + intros ref r' [Hr'|Hr']%Hfrom; [left; by right|by right].
Qed.

(** C10, as the code has it.  When the scans of the old rows for the
    indexed columns raise nothing, [_create_table] on a registered name
    returns; the name is then registered to a table of the columns given
    with no rows, and under the key of every primary or unique column the
    index registered is the scan of the rows of the table registered
    before: every old row with a value under the column lies in a bucket
    of it, and its buckets hold old rows only. *)
Theorem create_table_indexes_old_rows (e : PaymentRDBMS) (now table_name : string)
    (defs : list column) (old : Table) :
  dict_get table_name (tables e) = Some old →
  (∀ c, c ∈ defs → indexed c = true →
        ∃ tb, scan_rows empty_tree [] (col_name c) (rows old) = Ok tb) →
  ∃ e' table,
    _create_table e now table_name defs = Done (TableCreated table_name) e' ∧
    dict_get table_name (tables e') = Some table ∧
    columns table = defs ∧
    rows table = [] ∧
    ∀ c, c ∈ defs → indexed c = true →
      ∃ tr bk,
        scan_rows empty_tree [] (col_name c) (rows old) = Ok (tr, bk) ∧
        dict_get (default_index_key table_name (col_name c)) (indexes e') =
          Some (MkIndex table_name (col_name c) tr bk) ∧
        (∀ r, r ∈ rows old → is_Some (dict_get (col_name c) r) →
              ∃ ref, r ∈ bucket bk ref) ∧
        (∀ ref r, r ∈ bucket bk ref → r ∈ rows old).
Proof.
  intros Hold Hscans.
  assert (∀ c, scanned_index (tables e) table_name (col_name c) =
               '(tr, bk) ← scan_rows empty_tree [] (col_name c) (rows old);
               Ok (MkIndex table_name (col_name c) tr bk)) as Hscanned.
  { intros c. unfold scanned_index. by rewrite Hold. }
  destruct (create_table_columns_total e table_name defs None) as (pk & e1 & Hcols).
  { intros c Hc Hind. destruct (Hscans c Hc Hind) as [[tr bk] Hs].
    rewrite Hscanned, Hs. by eexists. }
  rewrite (create_table_Done _ _ _ _ _ _ Hcols).
  apply create_table_columns_Done in Hcols as (Ht & Hw & _ & -> & Hix).
  eexists _, _. split; [done|].
  cbn [tables wal indexes set_wal set_tables]. rewrite dict_get_set_eq.
  split; [done|]. split; [done|]. split; [done|].
  intros c Hc Hind. destruct (Hix c Hc Hind) as (ix & Hs & Hget).
  rewrite Hscanned in Hs.
  destruct (scan_rows _ _ _ _) as [[tr bk]|] eqn:Hscan; [|done].
  injection Hs as <-. exists tr, bk. split; [done|]. split; [done|].
  apply scan_rows_buckets in Hscan as (Hall & _ & Hfrom).
  split; [done|]. intros ref r [Hr|Hr]%Hfrom; [done|].
  unfold bucket in Hr. rewrite lookup_nil in Hr. by apply elem_of_nil in Hr.
Qed.

Lemma create_table_indexes_old_rows_witness :
  ∃ e' table tr bk,
    _create_table (run empty_engine "09:01" four_customers) "09:02" "customers"
      customers_columns = Done (TableCreated "customers") e' ∧
    dict_get "customers" (tables e') = Some table ∧
    rows table = [] ∧
    dict_get "customers_email_idx" (indexes e') =
      Some (MkIndex "customers" "email" tr bk) ∧
    ∃ ref, customer 1 "alice@example.com" ∈ bucket bk ref.
Proof.
  destruct (create_table_indexes_old_rows
              (run empty_engine "09:01" four_customers) "09:02" "customers"
              customers_columns
              (MkTable "customers" customers_columns
                 [customer 1 "alice@example.com"; customer 2 "bob@example.com";
                  customer 3 "charlie@example.com"; customer 4 "dave@example.com"]
                 (Some "id") {["email"]} 5))
    as (e' & table & Hrun & Htable & _ & Hrows & Hix).
  - vm_compute. reflexivity.
  - intros c Hc _.
    repeat (apply elem_of_cons in Hc as [->|Hc]; [eexists; vm_compute; reflexivity|]).
    by apply elem_of_nil in Hc.
  - destruct (Hix (Column "email" "TEXT" false true)) as (tr & bk & _ & Hget & Hall & _).
    + apply elem_of_cons. right. apply elem_of_cons. by left.
    + reflexivity.
    + exists e', table, tr, bk. split; [exact Hrun|]. split; [exact Htable|].
      split; [exact Hrows|]. split; [exact Hget|].
      apply Hall.
      * apply elem_of_cons. by left.
      * by eexists.
Defined.

(** C10, as it is stated, fails: the table registered holds a text and a
    number under a column, and declaring the name again with that column
    unique raises [TypeError] out of the scan and leaves the engine as it
    was. *)
Lemma create_table_again_raises :
  is_Some (dict_get "notes" (tables (run empty_engine "09:01" mixed_notes))) ∧
  _create_table (run empty_engine "09:01" mixed_notes) "09:02" "notes"
    [Column "body" "TEXT" false true]
  = Raised TypeError (run empty_engine "09:01" mixed_notes).
Proof. split; [vm_compute; by eexists|vm_compute; reflexivity]. Qed.

(** * Snapshots *)

Section DictKeys.
Context {A : Type}.

Lemma dict_get_None_keys (k : string) (d : dict A) :
  dict_get k d = None ↔ k ∉ d.*1.
Proof.
  induction d as [|[k' v] d IH]; simpl.
  - split; [intros _ []%elem_of_nil|done].
  - rewrite not_elem_of_cons, <- IH. destruct (String.eqb k' k) eqn:E.
    + apply String.eqb_eq in E as ->. split; [done|]. by intros [[] _].
    + split; [|by intros [_ ?]]. intros Hk. split; [|done].
      intros ->. by rewrite String.eqb_refl in E.
Qed.

Lemma dict_set_keys (k : string) (v : A) (d : dict A) :
  (dict_set k v d).*1 = if dict_has k d then d.*1 else d.*1 ++ [k].
Proof.
  unfold dict_has. induction d as [|[k' v'] d IH]; [done|].
  cbn [dict_set dict_get]. destruct (String.eqb k' k) eqn:E.
  - rewrite !fmap_cons. cbn [fst]. by apply String.eqb_eq in E as ->.
  - rewrite !fmap_cons, IH. cbn [fst]. by destruct (dict_get k d).
Qed.

Lemma dict_set_wf (k : string) (v : A) (d : dict A) :
  dict_wf d → dict_wf (dict_set k v d).
Proof.
  unfold dict_wf. rewrite dict_set_keys. unfold dict_has.
  destruct (dict_get k d) eqn:E; [done|].
  intros Hd. apply NoDup_app. split; [done|]. split; [|apply NoDup_singleton].
  intros k' Hk' ->%list_elem_of_singleton. by apply dict_get_None_keys in E.
Qed.

End DictKeys.

Section DictFolds.
Context {A B : Type} (f : string → A → B).

(** Storing the entries of a dictionary one by one, each under its key. *)
Lemma foldl_dict_set_wf (d0 : dict B) (d : dict A) :
  dict_wf d0 → dict_wf (foldl (λ acc '(k, v), dict_set k (f k v) acc) d0 d).
Proof.
  revert d0. induction d as [|[k v] d IH]; intros d0 Hd0; simpl; [done|].
  by apply IH, dict_set_wf.
Qed.

Lemma foldl_dict_set_get (d0 : dict B) (d : dict A) (k : string) :
  dict_wf d →
  dict_get k (foldl (λ acc '(k, v), dict_set k (f k v) acc) d0 d) =
  match dict_get k d with
  | Some v => Some (f k v)
  | None => dict_get k d0
  end.
Proof.
  revert d0. induction d as [|[k' v] d IH]; intros d0 Hd; simpl; [done|].
  apply NoDup_cons in Hd as [Hk' Hd]. cbn [fst] in Hk'. rewrite IH by done.
  rewrite dict_get_set. destruct (String.eqb k' k) eqn:E; [|done].
  apply String.eqb_eq in E as ->.
  by apply dict_get_None_keys in Hk' as ->.
Qed.
End DictFolds.

Lemma table_of_image_of (nm : string) (t : Table) :
  table_of_image nm (image_of t) =
  MkTable nm (columns t) (rows t) (primary_key t) (unique_columns t) (next_id t).
Proof.
  unfold table_of_image, image_of. cbn. f_equal. apply list_to_set_elements_L.
Qed.

Lemma rebuild_indexes_total e table_name cols :
  (∀ c, c ∈ cols → ∃ ix, scanned_index (tables e) table_name c = Ok ix) →
  ∃ e', rebuild_indexes e table_name cols = Done tt e' ∧
        tables e' = tables e ∧ wal e' = wal e ∧ storage e' = storage e.
Proof.
  revert e. induction cols as [|c cols IH]; intros e Hok; simpl; [by exists e|].
  rewrite create_index_default. destruct (Hok c) as [ix ->]; [by left|].
  destruct (IH (set_indexes e
                  (dict_set (default_index_key table_name c) ix (indexes e))))
    as (e' & -> & ? & ? & ?).
  { intros c' Hc'. cbn. apply Hok. by right. }
  by exists e'.
Qed.

Lemma load_tables_total e (images : dict table_image) :
  (∀ nm img c, (nm, img) ∈ images → c ∈ index_columns (table_of_image nm img) →
               ∃ tb, scan_rows empty_tree [] c (img_rows img) = Ok tb) →
  ∃ e', load_tables e images = Done tt e' ∧
        tables e' =
          foldl (λ acc '(nm, img), dict_set nm (table_of_image nm img) acc)
                (tables e) images.
Proof.
  revert e. induction images as [|[nm img] images IH]; intros e Hok; simpl; [by exists e|].
  destruct (rebuild_indexes_total
              (set_tables e (dict_set nm (table_of_image nm img) (tables e))) nm
              (index_columns (table_of_image nm img))) as (e1 & -> & Ht & _ & _).
  { intros c Hc. unfold scanned_index. cbn [tables set_tables].
    rewrite dict_get_set_eq. destruct (Hok nm img c) as [[tr bk] Hs]; [by left|done|].
    cbn [rows table_of_image]. rewrite Hs. by eexists. }
  destruct (IH e1) as (e' & -> & Ht').
  { intros nm' img' c Hin. apply Hok. by right. }
  exists e'. split; [done|]. by rewrite Ht', Ht.
Qed.

(** C8, as the code has it.  For tables whose index columns can each be
    scanned (the scan raises when a column holds a text and a number),
    the engine made over the snapshot of the tables has, under every
    name, a table with the columns, rows, primary key, unique columns and
    counter of the table snapshotted under it, and no other table. *)
Theorem snapshot_round_trip (tbls : dict Table)
    (wal_lines : option (list WALEntry)) (now now' : string) :
  dict_wf tbls →
  (∀ nm t c, dict_get nm tbls = Some t → c ∈ index_columns t →
             ∃ tb, scan_rows empty_tree [] c (rows t) = Ok tb) →
  ∃ e', new_engine wal_lines (Some (storage_create_snapshot now tbls)) now' = Done tt e' ∧
        ∀ nm,
          match dict_get nm tbls with
          | Some t =>
              ∃ t', dict_get nm (tables e') = Some t' ∧
                    columns t' = columns t ∧ rows t' = rows t ∧
                    primary_key t' = primary_key t ∧
                    unique_columns t' = unique_columns t ∧
                    next_id t' = next_id t
          | None => dict_get nm (tables e') = None
          end.
Proof.
  intros Hwf Hscan. unfold new_engine, _load_from_snapshot, storage_create_snapshot.
  cbn [storage snap_tables].
  set (images := foldl (λ acc '(nm, t), dict_set nm (image_of t) acc) [] tbls).
  assert (Himg : ∀ nm, dict_get nm images = image_of <$> dict_get nm tbls).
  { intros nm. unfold images.
    rewrite (foldl_dict_set_get (λ _, image_of) [] tbls nm Hwf).
    by destruct (dict_get nm tbls). }
  assert (Hiwf : dict_wf images).
  { apply (foldl_dict_set_wf (λ _, image_of)). apply NoDup_nil_2. }
  destruct (load_tables_total
              {| tables := []; indexes := []; wal := open_wal wal_lines now';
                 storage := Some {| snap_timestamp := now; snap_tables := images |} |}
              images) as (e' & Hload & Ht).
  { intros nm img c Hin Hc.
    assert (dict_get nm images = Some img) as Hget.
    { clear -Hin Hiwf. induction images as [|[k v] d IH]; [by apply elem_of_nil in Hin|].
      apply NoDup_cons in Hiwf as [Hk Hd]. simpl.
      apply elem_of_cons in Hin as [[= <- <-]|Hin]; [by rewrite String.eqb_refl|].
      destruct (String.eqb k nm) eqn:E; [|by apply IH].
      apply String.eqb_eq in E as ->. exfalso. apply Hk.
      apply list_elem_of_fmap. by exists (nm, img). }
    rewrite Himg in Hget. destruct (dict_get nm tbls) as [t|] eqn:Hn; [|done].
    injection Hget as <-. rewrite table_of_image_of in Hc.
    by apply (Hscan nm t c). }
  exists e'. split; [done|]. intros nm. rewrite Ht. cbn [tables].
  rewrite (foldl_dict_set_get table_of_image [] images nm Hiwf), Himg.
  destruct (dict_get nm tbls) as [t|]; [|done].
  cbn. rewrite table_of_image_of. by eexists.
Qed.

Lemma snapshot_round_trip_witness :
  ∃ e', new_engine None
          (Some (storage_create_snapshot "10:00"
                   (tables (run empty_engine "09:01" four_customers)))) "11:00"
        = Done tt e' ∧
        ∃ t', dict_get "customers" (tables e') = Some t' ∧
              rows t' = [customer 1 "alice@example.com"; customer 2 "bob@example.com";
                         customer 3 "charlie@example.com"; customer 4 "dave@example.com"] ∧
              next_id t' = 5%Z.
Proof.
  destruct (snapshot_round_trip (tables (run empty_engine "09:01" four_customers))
              None "10:00" "11:00") as (e' & Hrun & Hall).
  - vm_compute. apply NoDup_singleton.
  - intros nm t c Hget Hc.
    replace (tables (run empty_engine "09:01" four_customers)) with
      [("customers",
        MkTable "customers" customers_columns
          [customer 1 "alice@example.com"; customer 2 "bob@example.com";
           customer 3 "charlie@example.com"; customer 4 "dave@example.com"]
          (Some "id") {["email"]} 5)] in Hget by (vm_compute; reflexivity).
    cbn [dict_get] in Hget. destruct (String.eqb "customers" nm); [|done].
    injection Hget as <-. unfold index_columns in Hc. cbn [primary_key unique_columns] in Hc.
    rewrite elements_singleton in Hc.
    repeat (apply elem_of_cons in Hc as [->|Hc]; [eexists; vm_compute; reflexivity|]).
    by apply elem_of_nil in Hc.
  - exists e'. split; [exact Hrun|]. specialize (Hall "customers").
    replace (dict_get "customers" (tables (run empty_engine "09:01" four_customers))) with
      (Some (MkTable "customers" customers_columns
          [customer 1 "alice@example.com"; customer 2 "bob@example.com";
           customer 3 "charlie@example.com"; customer 4 "dave@example.com"]
          (Some "id") {["email"]} 5)) in Hall by (vm_compute; reflexivity).
    destruct Hall as (t' & Ht' & _ & Hrows & _ & _ & Hnext).
    exists t'. split; [exact Ht'|]. split; [exact Hrows|exact Hnext].
Defined.

(** C8, as it is stated, fails: the column [body] of [notes] is unique and
    holds a text and a number; the engine made over the snapshot of the
    two tables raises [TypeError] while it builds the index of [notes],
    and [customers] is not loaded. *)
Lemma snapshot_reload_raises :
  ∃ e', new_engine None
          (Some (storage_create_snapshot "10:00"
                   (tables (run empty_engine "09:01" (mixed_unique_notes ++ four_customers)))))
          "11:00"
        = Raised TypeError e' ∧
        is_Some (dict_get "customers"
                   (tables (run empty_engine "09:01" (mixed_unique_notes ++ four_customers)))) ∧
        dict_get "customers" (tables e') = None.
Proof.
  eexists. split; [vm_compute; reflexivity|]. split; [vm_compute; by eexists|].
  vm_compute. reflexivity.
Qed.

(** * The write-ahead log *)

Lemma load_wal_counter (w : WriteAheadLog) (now : string) (lines : list WALEntry) :
  wal_file w = Some lines →
  lsn_counter (_load_wal w now) =
    foldl (λ c line, Z.max c (lsn line + 1)) (lsn_counter w) lines ∧
  wal_file (_load_wal w now) = Some lines.
Proof.
  unfold _load_wal. intros Hf. rewrite Hf.
  set (step := λ (w : WriteAheadLog) (line : WALEntry), _).
  assert (∀ w0, lsn_counter (foldl step w0 lines) =
                foldl (λ c line, Z.max c (lsn line + 1)) (lsn_counter w0) lines ∧
                wal_file (foldl step w0 lines) = wal_file w0) as Hgen.
  { clear Hf. induction lines as [|line lines IH]; intros w0; [done|].
    cbn [foldl]. destruct (IH (step w0 line)) as [-> ->]. done. }
  destruct (Hgen w) as [-> ->]. done.
Qed.

Lemma open_wal_counter (file : option (list WALEntry)) (now : string) :
  lsn_counter (open_wal file now) = resume_point (default [] file) ∧
  wal_file (open_wal file now) = file.
Proof.
  unfold open_wal. destruct file as [lines|]; [|done].
  by apply load_wal_counter.
Qed.

Lemma resume_point_snoc lines line :
  resume_point (lines ++ [line]) = Z.max (resume_point lines) (lsn line + 1).
Proof. unfold resume_point. by rewrite foldl_app. Qed.

Lemma resume_point_nonneg lines : (0 ≤ resume_point lines)%Z.
Proof.
  induction lines as [|line lines IH] using rev_ind; [done|].
  rewrite resume_point_snoc. lia.
Qed.

Lemma max_lsn_nonneg lines m :
  Forall (λ line, 0 ≤ lsn line)%Z lines → max_lsn lines = Some m → (0 ≤ m)%Z.
Proof.
  revert m. induction lines as [|line lines IH]; intros m Hall; [done|].
  apply Forall_cons in Hall as [Hl Hall]. simpl.
  destruct (max_lsn lines) as [m'|]; intros [= <-]; [|done].
  specialize (IH m' Hall eq_refl). lia.
Qed.

Lemma resume_point_max_lsn lines :
  Forall (λ line, 0 ≤ lsn line)%Z lines →
  resume_point lines = match max_lsn lines with
                       | Some m => (m + 1)%Z
                       | None => 0%Z
                       end.
Proof.
  intros Hall.
  assert (∀ c, foldl (λ c line, Z.max c (lsn line + 1)) c lines =
               match max_lsn lines with
               | Some m => Z.max c (m + 1)
               | None => c
               end) as Hgen.
  { clear Hall. induction lines as [|line lines IH]; intros c; [done|].
    simpl. rewrite IH. destruct (max_lsn lines); lia. }
  unfold resume_point. rewrite Hgen.
  destruct (max_lsn lines) as [m|] eqn:Hm; [|done].
  apply max_lsn_nonneg in Hm; [lia|done].
Qed.

Lemma wal_inv_open now : wal_inv false (open_wal None now).
Proof. by split. Qed.

Lemma wal_inv_append cleared w now op table d :
  wal_inv cleared w →
  fst (append w now op table d) = lsn_counter w ∧
  lsn_counter (snd (append w now op table d)) = (lsn_counter w + 1)%Z ∧
  wal_inv false (snd (append w now op table d)).
Proof.
  intros [Hlines Hbound _]. pose proof (resume_point_nonneg (default [] (wal_file w))).
  unfold append. cbn [fst snd lsn].
  set (w1 := {| wal_file := _ |}).
  assert (wal_inv false w1 ∧ lsn_counter w1 = (lsn_counter w + 1)%Z) as [Hinv Hc].
  { split; [|done]. split; cbn [wal_file lsn_counter w1 default from_option id].
    - apply Forall_app. split; [done|]. apply Forall_singleton. cbn. lia.
    - rewrite resume_point_snoc. cbn. lia.
    - intros _. rewrite resume_point_snoc. cbn. lia. }
  split; [done|]. destruct (_ <? _)%Z; [|done].
  split; [done|]. by destruct Hinv.
Qed.

Lemma wal_inv_clear cleared w : wal_inv cleared w → wal_inv true (clear w).
Proof.
  intros [_ Hbound _]. pose proof (resume_point_nonneg (default [] (wal_file w))).
  split; cbn; [done| |done]. unfold resume_point. cbn. lia.
Qed.

Lemma wal_inv_restart w now :
  wal_inv false w →
  lsn_counter (open_wal (wal_file w) now) = lsn_counter w ∧
  wal_inv false (open_wal (wal_file w) now).
Proof.
  intros [Hlines Hbound Hsync].
  destruct (open_wal_counter (wal_file w) now) as [Hc Hf].
  split; [by rewrite Hc, Hsync|]. split; rewrite ?Hf, ?Hc; done.
Qed.

Lemma wal_run_increasing cleared w now cs :
  wal_inv cleared w →
  appends_before_restarts cleared cs = true →
  Forall (λ l, lsn_counter w ≤ l)%Z (fst (wal_run w now cs)) ∧
  StronglySorted Z.lt (fst (wal_run w now cs)) ∧
  ∃ cleared', wal_inv cleared' (snd (wal_run w now cs)).
Proof.
  revert cleared w. induction cs as [|c cs IH]; intros cleared w Hinv Hsafe.
  { cbn. split; [done|]. split; [constructor|]. by exists cleared. }
  cbn [wal_run]. destruct c as [op table d| |]; cbn [wal_step appends_before_restarts] in *.
  - destruct (wal_inv_append _ _ now op table d Hinv) as (Hl & Hc & Hinv').
    destruct (append w now op table d) as [l w'] eqn:Happ. cbn [fst snd] in *. subst l.
    destruct (IH false w' Hinv' Hsafe) as (Hge & Hsorted & Hfinal).
    destruct (wal_run w' now cs) as [ls w'']. cbn [fst snd] in *.
    split; [|split; [|done]].
    + constructor; [lia|]. eapply Forall_impl; [done|]. cbn. lia.
    + constructor; [done|]. eapply Forall_impl; [done|]. cbn. lia.
  - destruct (IH true (clear w) (wal_inv_clear _ _ Hinv) Hsafe) as (Hge & Hsorted & Hfinal).
    destruct (wal_run (clear w) now cs) as [ls w'']. by cbn [fst snd] in *.
  - apply andb_true_iff in Hsafe as [Hcl Hsafe]. apply negb_true_iff in Hcl as ->.
    destruct (wal_inv_restart w now Hinv) as [Hc Hinv'].
    destruct (IH false _ Hinv' Hsafe) as (Hge & Hsorted & Hfinal).
    destruct (wal_run (open_wal (wal_file w) now) now cs) as [ls w'']. cbn [fst snd] in *.
    by rewrite <- Hc.
Qed.

(** C6, as the code has it.  Over the life of a log that starts without a
    file, if every [clear()] is followed by an append before the next
    restart, the LSNs the appends return are strictly increasing, hence
    never used twice; and a restart at the end of the history resumes the
    counter at one past the largest LSN persisted, at [0] when the file
    is absent or empty. *)
Theorem lsns_strictly_increasing (now now' : string) (cs : list wal_call) :
  appends_before_restarts false cs = true →
  StronglySorted Z.lt (fst (wal_run (open_wal None now) now cs)) ∧
  lsn_counter (open_wal (wal_file (snd (wal_run (open_wal None now) now cs))) now') =
    match max_lsn (default [] (wal_file (snd (wal_run (open_wal None now) now cs)))) with
    | Some m => (m + 1)%Z
    | None => 0%Z
    end.
Proof.
  intros Hsafe.
  destruct (wal_run_increasing false _ now cs (wal_inv_open now) Hsafe)
    as (_ & Hsorted & cleared' & [Hlines _ _]).
  split; [done|].
  destruct (open_wal_counter (wal_file (snd (wal_run (open_wal None now) now cs))) now')
    as [-> _].
  by apply resume_point_max_lsn.
Qed.

Lemma lsns_strictly_increasing_witness :
  StronglySorted Z.lt [0; 1; 2; 3]%Z ∧
  lsn_counter
    (open_wal
       (wal_file
          (snd (wal_run (open_wal None "09:00") "09:00"
                  [Append "INSERT" "t" (PRow []); Append "INSERT" "t" (PRow []);
                   Clear; Append "INSERT" "t" (PRow []); Restart;
                   Append "INSERT" "t" (PRow [])]))) "10:00") = 4%Z.
Proof.
  exact (lsns_strictly_increasing "09:00" "10:00"
           [Append "INSERT" "t" (PRow []); Append "INSERT" "t" (PRow []);
            Clear; Append "INSERT" "t" (PRow []); Restart;
            Append "INSERT" "t" (PRow [])] eq_refl).
Defined.

(** C6, as it is stated, fails: [clear()] removes the file and keeps the
    counter in memory only, so the process that starts next counts from
    [0] again and the second append returns the LSN of the first. *)
Lemma lsn_reused_after_clear :
  fst (wal_run (open_wal None "09:00") "09:00"
         [Append "INSERT" "t" (PRow []); Clear; Restart; Append "INSERT" "t" (PRow [])])
  = [0; 0]%Z.
Proof. reflexivity. Qed.

(** * Lookups that miss *)

(** C1 fails on the code.  The index is built the way the engine builds
    one, from rows under the keys 1, 2, 3, 4.  The fourth insert splits
    the root: the key 3 goes up as the separator and stays in the right
    leaf, and [bisect_left] sends a search for 3 to the left leaf, so the
    search finds nothing.  A fifth row under the key 3 then starts a
    bucket of its own in the left leaf, and a search for 3 returns that
    bucket, without the row inserted before. *)
Lemma search_misses_separator_key :
  ∃ tr bk,
    scan_rows empty_tree [] "n" four_rows = Ok (tr, bk) ∧
    search tr (VInt 3) = Ok None ∧
    ∃ tr' bk' ref,
      add_row tr bk (VInt 3) (numbered 3 "e") = Done tt (tr', bk') ∧
      search tr' (VInt 3) = Ok (Some ref) ∧
      bucket bk' ref = [numbered 3 "e"].
Proof.
  eexists _, _. split; [vm_compute; reflexivity|]. split; [vm_compute; reflexivity|].
  eexists _, _, _. split; [vm_compute; reflexivity|].
  split; vm_compute; reflexivity.
Qed.

(** C3 fails on the code, by the same routing.  After [CREATE TABLE] and
    four inserts, the filter on [id = 3] through the index registered for
    the primary key returns no row, and the full scan of the same rows
    returns the row. *)
Lemma index_filter_differs_from_scan :
  ∃ table,
    dict_get "customers" (tables (run empty_engine "09:01" four_customers)) = Some table ∧
    _filter_rows (run empty_engine "09:01" four_customers) table (rows table)
      "id" (VInt 3) = Ok [] ∧
    table_scan (rows table) "id" (VInt 3) = [customer 3 "charlie@example.com"].
Proof.
  eexists. split; [vm_compute; reflexivity|]. split; vm_compute; reflexivity.
Qed.
(** * More on the tree: lookups and balance *)

Section LookupFacts.
Context {K V : Type} `{TotalKeys K}.
Implicit Types (n c : BPlusTreeNode K V) (k : K) (v : V) (s : bool) (lo hi : option K).

Local Abbreviation node := (BPlusTreeNode K V).

Lemma py_index_Some (a : list K) k i : py_index a k = Some i → a !! i = Some k.
Proof.
  revert i. induction a as [|y a IH]; intros i; simpl; [done|].
  destruct (py_eq y k) eqn:Heq.
  - intros [= <-]. apply eq_ok in Heq. by subst.
  - destruct (py_index a k) as [j|]; simpl; [|done]. intros [= <-]. by apply IH.
Qed.

Lemma py_index_None (a : list K) k : py_index a k = None → k ∉ a.
Proof.
  induction a as [|y a IH]; simpl; [intros _; apply not_elem_of_nil|].
  destruct (py_eq y k) eqn:Heq; [done|].
  destruct (py_index a k); [done|]. intros _.
  apply not_elem_of_cons. split; [|by apply IH].
  intros ->. assert (py_eq y y = true) as Hyy by by apply eq_ok. congruence.
Qed.

(** What [search] does in the leaf it has descended to. *)
Lemma lookup_in_leaf (l : leaf K V) k :
  length (leaf_keys l) = length (leaf_values l) →
  ∃ r, match py_index (leaf_keys l) k with
       | Some idx => v ← py_get (leaf_values l) idx; Ok (Some v)
       | None => Ok None
       end = Ok r ∧
       (∀ v, r = Some v → (k, v) ∈ leaf_pairs l) ∧
       (r = None → k ∉ leaf_keys l).
Proof.
  intros Hlen. destruct (py_index (leaf_keys l) k) as [idx|] eqn:Hidx.
  - apply py_index_Some in Hidx.
    destruct (lookup_lt_is_Some_2 (leaf_values l) idx) as [v Hv].
    { rewrite <- Hlen. by eapply lookup_lt_Some. }
    exists (Some v). unfold py_get. rewrite Hv. split; [done|]. split; [|done].
    intros v' [= <-]. apply list_elem_of_lookup. exists idx.
    unfold leaf_pairs. by rewrite lookup_zip_with, Hidx, Hv.
  - exists None. split; [done|]. split; [done|]. intros _. by apply py_index_None.
Qed.

Lemma search_spec s (t : BPlusTree K V) k :
  tree_inv s t →
  ∃ r, search t k = Ok r ∧ ∀ v, r = Some v → (k, v) ∈ pairs (root t).
Proof.
  intros [[h Hwf] _ _ _].
  destruct (descend_spec s h None None (root t) k Hwf)
    as (L & pre & post & Hdesc & Hleaves & _).
  pose proof (wf_leaf_lengths _ _ _ _ _ Hwf) as Hlens.
  rewrite Hleaves, Forall_app, Forall_cons in Hlens. destruct Hlens as (_ & HlenL & _).
  destruct (lookup_in_leaf L k HlenL) as (r & Hr & Hsome & _).
  exists r. unfold search. rewrite Hdesc. split; [exact Hr|].
  intros v Hv. unfold pairs. rewrite Hleaves, bind_app, bind_cons.
  apply elem_of_app. right. apply elem_of_app. left. by apply Hsome.
Qed.

(** ** Keys that are no separator *)

Lemma siblings_past s h k (KB : list K) (B : list node) :
  Forall (λ x, klt k x) KB →
  Forall (λ b, ∃ kk hi0, kk ∈ KB ∧ wf s h (Some kk) hi0 b) B →
  Forall (λ e, klt k e.1) (concat (map pairs B)).
Proof.
  intros HKB HB. induction HB as [|b B (kk & hi0 & Hkk & Hb) HB IH]; simpl; [done|].
  apply Forall_app. split; [|done].
  eapply Forall_impl; [by eapply wf_pairs_bounds|]. intros e [He _]. simpl in He.
  rewrite Forall_forall in HKB.
  eapply klt_kle_trans; [|done]. by apply HKB.
Qed.

Lemma separators_child keys (children : list node) c k :
  c ∈ children → k ∉ separators (InnerNode keys children) → k ∉ separators c.
Proof.
  intros Hc Hk Hin. apply Hk. cbn [separators]. apply elem_of_app. right.
  apply elem_of_concat. exists (separators c). split; [done|].
  apply list_elem_of_In, in_map. by apply list_elem_of_In.
Qed.

Lemma descend_exact s h lo hi n k :
  wf s h lo hi n → k ∉ separators n →
  ∃ L pre post,
    descend n k = Ok L ∧ leaves n = pre ++ L :: post ∧
    Forall (λ e, klt e.1 k) (pre ≫= leaf_pairs) ∧
    Forall (λ e, klt k e.1) (post ≫= leaf_pairs).
Proof.
  revert h lo hi. induction n as [l|keys children IH] using node_induction;
    intros h lo hi Hwf Hsep.
  { exists l, [], []. by repeat split. }
  inversion Hwf as [|h' ? ? ? ? Hsize Hkids]; subst.
  rewrite descend_inner.
  destruct (wf_kids_keys _ _ _ _ _ _ Hkids) as [_ Hsorted].
  destruct (bisect_left_spec s keys k Hsorted) as (KA & KB & -> & -> & HKA & HKB).
  assert (Forall (λ x, klt k x) KB) as HKB'.
  { apply Forall_forall. intros x Hx. rewrite Forall_forall in HKB.
    apply kle_neq_klt; [by apply HKB|]. intros ->. apply Hsep. cbn [separators].
    apply elem_of_app. left. apply elem_of_app. by right. }
  pose proof (wf_kids_length _ _ _ _ _ _ Hkids) as Hlen.
  destruct (lookup_lt_is_Some_2 children (length KA)) as [c Hc].
  { rewrite Hlen, length_app. lia. }
  cbn [mbind result_bind]. unfold py_get. rewrite Hc. cbn [mbind result_bind].
  pose proof (take_drop_middle _ _ _ Hc) as Hsplit.
  assert (length KA = length (take (length KA) children)) as HlenA.
  { rewrite length_take_le; [done|]. apply lookup_lt_Some in Hc. lia. }
  pose proof (list_elem_of_lookup_2 _ _ _ Hc) as Hcin.
  pose proof (separators_child _ _ _ _ Hcin Hsep) as Hsepc.
  rewrite <- Hsplit in Hkids.
  destruct (wf_kids_focus _ _ _ _ _ _ _ _ _ HlenA Hkids) as (Hwfc & _ & HA & HB & _).
  rewrite Forall_forall in IH.
  destruct (IH c Hcin _ _ _ Hwfc Hsepc) as (L & pre & post & -> & Hleaves & Hpre & Hpost).
  exists L, (concat (map leaves (take (length KA) children)) ++ pre),
    (post ++ concat (map leaves (drop (S (length KA)) children))).
  split; [done|]. split; [|split].
  - rewrite <- Hsplit at 1. rewrite leaves_middle, Hleaves.
    by rewrite <- !app_assoc.
  - rewrite bind_app. apply Forall_app. split; [|done].
    rewrite concat_bind, map_map. by eapply siblings_below.
  - rewrite bind_app. apply Forall_app. split; [done|].
    rewrite concat_bind, map_map. by eapply siblings_past.
Qed.

Lemma search_exact s (t : BPlusTree K V) k :
  tree_inv s t → k ∈ (pairs (root t)).*1 → k ∉ separators (root t) →
  ∃ v, search t k = Ok (Some v) ∧ (k, v) ∈ pairs (root t).
Proof.
  intros [[h Hwf] _ _ _] Hin Hsep.
  destruct (descend_exact s h None None (root t) k Hwf Hsep)
    as (L & pre & post & Hdesc & Hleaves & Hpre & Hpost).
  pose proof (wf_leaf_lengths _ _ _ _ _ Hwf) as Hlens.
  rewrite Hleaves, Forall_app, Forall_cons in Hlens. destruct Hlens as (_ & HlenL & _).
  destruct (lookup_in_leaf L k HlenL) as (r & Hr & Hsome & Hnone).
  assert (∀ v, (k, v) ∈ leaf_pairs L → (k, v) ∈ pairs (root t)) as Hup.
  { intros v Hv. unfold pairs. rewrite Hleaves, bind_app, bind_cons.
    apply elem_of_app. right. apply elem_of_app. by left. }
  unfold search. rewrite Hdesc. cbn [mbind result_bind]. rewrite Hr.
  destruct r as [v|]; [exists v; split; [done|]; by apply Hup, Hsome|].
  exfalso. apply (Hnone eq_refl).
  unfold pairs in Hin. rewrite Hleaves, bind_app, bind_cons, !fmap_app in Hin.
  apply elem_of_app in Hin as [Hin|Hin]; [|apply elem_of_app in Hin as [Hin|Hin]].
  - apply list_elem_of_fmap in Hin as (e & -> & He). rewrite Forall_forall in Hpre.
    by apply Hpre, klt_neq in He.
  - unfold leaf_pairs in Hin. by rewrite fst_zip in Hin by lia.
  - apply list_elem_of_fmap in Hin as (e & -> & He). rewrite Forall_forall in Hpost.
    by apply Hpost, klt_neq in He.
Qed.

(** ** Balance *)

Lemma wf_leaf_depths s h lo hi n : wf s h lo hi n → Forall (λ d, d = h) (leaf_depths n).
Proof.
  revert h lo hi. induction n as [l|keys children IH] using node_induction;
    intros h lo hi Hwf; inversion Hwf as [|h' ? ? ? ? Hlen Hkids]; subst.
  { by repeat constructor. }
  cbn [leaf_depths]. apply Forall_fmap. clear Hlen Hwf.
  apply wf_kids_children in Hkids.
  induction Hkids as [|c cs (lo' & hi' & Hc) Hcs IHcs]; simpl; [done|].
  apply Forall_cons in IH as [IHc IH]. apply Forall_app. split; [|by apply IHcs].
  eapply Forall_impl; [by eapply IHc|]. by intros d ->.
Qed.

Lemma wf_arity s h lo hi n keys (children : list node) :
  wf s h lo hi n → InnerNode keys children ∈ nodes n →
  length children = S (length keys).
Proof.
  revert h lo hi. induction n as [l|keys' children' IH] using node_induction;
    intros h lo hi Hwf Hm.
  - by apply list_elem_of_singleton in Hm.
  - inversion Hwf as [|h' ? ? ? ? Hsize Hkids]; subst.
    cbn [nodes] in Hm. apply elem_of_cons in Hm as [[= -> ->]|Hm].
    { by eapply wf_kids_length. }
    apply wf_kids_children in Hkids.
    apply elem_of_concat in Hm as (ms & Hm & Hms).
    apply list_elem_of_In, in_map_iff in Hms as (c & <- & Hc%list_elem_of_In).
    rewrite Forall_forall in IH, Hkids.
    destruct (Hkids c Hc) as (lo' & hi' & Hwfc). by eapply IH.
Qed.
End LookupFacts.

(** [search] on a tree built by inserts of totally ordered keys returns,
    and what it returns for a key is a value inserted under that key: it
    returns [None] for every key that was never inserted. *)
Theorem search_returns_inserted_value {K V : Type} `{TotalKeys K}
    (ops : list (K * V)) (k : K) :
  ∃ t r, build ops = Done tt t ∧ search t k = Ok r ∧
         (∀ v, r = Some v → (k, v) ∈ ops) ∧
         (k ∉ ops.*1 → r = None).
Proof.
  destruct (build_spec false ops) as (t & Hbuild & Hinv & Hpairs & _); [done|].
  destruct (search_spec false t k Hinv) as (r & Hsearch & Hsome).
  exists t, r. split; [done|]. split; [done|].
  assert (∀ v, r = Some v → (k, v) ∈ ops) as Hops.
  { intros v Hv. rewrite <- (sort_pairs_perm ops), <- Hpairs. by apply Hsome. }
  split; [done|]. intros Hk. destruct r as [v|]; [|done].
  destruct Hk. apply (list_elem_of_fmap_2 fst _ (k, v)). by apply Hops.
Qed.

Lemma search_returns_inserted_value_witness :
  ∃ t, build [(1, 10); (2, 20); (3, 30); (4, 40)]%Z = Done tt t ∧
       search t 5%Z = Ok None.
Proof.
  destruct (search_returns_inserted_value (K:=Z) (V:=Z)
              [(1, 10); (2, 20); (3, 30); (4, 40)]%Z 5%Z)
    as (t & r & Hbuild & Hsearch & _ & Hnone).
  exists t. split; [exact Hbuild|]. rewrite Hsearch. f_equal. apply Hnone.
  cbn [fmap list_fmap fst]. rewrite !elem_of_cons, elem_of_nil.
  intros [Heq|[Heq|[Heq|[Heq|[]]]]]; discriminate Heq.
Defined.

(** [search] finds every inserted key that is not among the keys of the
    nodes above the leaves, and returns a value inserted under it. *)
Theorem search_finds_key_off_separators {K V : Type} `{TotalKeys K}
    (ops : list (K * V)) (k : K) :
  k ∈ ops.*1 →
  ∃ t, build ops = Done tt t ∧
       (k ∉ separators (root t) → ∃ v, search t k = Ok (Some v) ∧ (k, v) ∈ ops).
Proof.
  intros Hk.
  destruct (build_spec false ops) as (t & Hbuild & Hinv & Hpairs & _); [done|].
  exists t. split; [done|]. intros Hsep.
  destruct (search_exact false t k Hinv) as (v & Hsearch & Hv); [|done|].
  { by rewrite Hpairs, (sort_pairs_perm ops). }
  exists v. split; [done|]. by rewrite <- (sort_pairs_perm ops), <- Hpairs.
Qed.

Lemma search_finds_key_off_separators_witness :
  ∃ t, build [(1, 10); (2, 20); (3, 30); (4, 40)]%Z = Done tt t ∧
       separators (root t) = [3%Z] ∧
       ∃ v, search t 2%Z = Ok (Some v) ∧
            (2%Z, v) ∈ [(1, 10); (2, 20); (3, 30); (4, 40)]%Z.
Proof.
  destruct (search_finds_key_off_separators (K:=Z) (V:=Z)
              [(1, 10); (2, 20); (3, 30); (4, 40)]%Z 2%Z) as (t & Hbuild & Hfind).
  { apply list_elem_of_lookup. exists 1. reflexivity. }
  exists t. split; [exact Hbuild|].
  assert (separators (root t) = [3%Z]) as Hsep.
  { revert Hbuild. vm_compute. intros [= <-]. reflexivity. }
  split; [exact Hsep|]. apply Hfind. rewrite Hsep.
  intros Hin. apply list_elem_of_singleton in Hin. discriminate Hin.
Defined.

(** The tree stays balanced: after any sequence of inserts every leaf is
    at the same depth, every node above the leaves has one child more
    than keys, and every leaf has a value for each key. *)
Theorem tree_stays_balanced {K V : Type} `{TotalKeys K} (ops : list (K * V)) :
  ∃ t h, build ops = Done tt t ∧
         Forall (λ d, d = h) (leaf_depths (root t)) ∧
         (∀ keys children, InnerNode keys children ∈ nodes (root t) →
                           length children = S (length keys)) ∧
         Forall (λ l, length (leaf_keys l) = length (leaf_values l)) (leaves (root t)).
Proof.
  destruct (build_spec false ops) as (t & Hbuild & [[h Hwf] _ _ _] & _); [done|].
  exists t, h. split; [done|]. split; [by eapply wf_leaf_depths|].
  split; [|by eapply wf_leaf_lengths].
  intros keys children Hin. by eapply wf_arity.
Qed.

Lemma tree_stays_balanced_witness :
  ∃ t h, build [(1, 10); (2, 20); (3, 30); (4, 40)]%Z = Done tt t ∧
         Forall (λ d, d = h) (leaf_depths (root t)) ∧
         length (node_children (root t)) = S (length (node_keys (root t))).
Proof.
  destruct (tree_stays_balanced (K:=Z) (V:=Z) [(1, 10); (2, 20); (3, 30); (4, 40)]%Z)
    as (t & h & Hbuild & Hdepths & Harity & _).
  exists t, h. split; [exact Hbuild|]. split; [exact Hdepths|].
  destruct (root t) as [l|keys children] eqn:Hroot.
  - exfalso. revert Hbuild Hroot. vm_compute. intros [= <-]. discriminate.
  - apply Harity. cbn [nodes]. apply elem_of_cons. by left.
Defined.

(** No insert is lost or overwritten: the leaves, read left to right,
    hold the pairs inserted, each as often as it was inserted, in
    non-decreasing key order; every leaf points to the leaf after it, the
    last one to none, and no two leaves are the same object. *)
Theorem leaves_hold_inserted_pairs {K V : Type} `{TotalKeys K} (ops : list (K * V)) :
  ∃ t, build ops = Done tt t ∧
       pairs (root t) ≡ₚ ops ∧
       StronglySorted kle (pairs (root t)).*1 ∧
       chained (leaves (root t)) None ∧
       NoDup (leaf_id <$> leaves (root t)).
Proof.
  destruct (build_spec false ops) as (t & Hbuild & [[h Hwf] Hchain Hids _] & Hpairs & _);
    [done|].
  exists t. split; [done|]. split; [by rewrite Hpairs, sort_pairs_perm|].
  split; [|done]. by apply (wf_pairs_sorted false h None None).
Qed.

Lemma leaves_hold_inserted_pairs_witness :
  ∃ t, build [(3, 30); (1, 10); (4, 40); (1, 11); (5, 50)]%Z = Done tt t ∧
       pairs (root t) ≡ₚ [(3, 30); (1, 10); (4, 40); (1, 11); (5, 50)]%Z ∧
       StronglySorted kle (pairs (root t)).*1 ∧
       chained (leaves (root t)) None ∧
       NoDup (leaf_id <$> leaves (root t)).
Proof.
  exact (leaves_hold_inserted_pairs (K:=Z) (V:=Z)
           [(3, 30); (1, 10); (4, 40); (1, 11); (5, 50)]%Z).
Defined.

(** * More on the log: what it holds, checkpoints, reloading *)

Lemma append_fields (w : WriteAheadLog) (now op table : string) (d : payload) :
  let entry := MkEntry op table d now (lsn_counter w) in
  let w' := snd (append w now op table d) in
  entries w' = entries w ++ [entry] ∧
  wal_file w' = Some (default [] (wal_file w) ++ [entry]) ∧
  lsn_counter w' = (lsn_counter w + 1)%Z ∧
  checkpoint_lsn w' =
    (if 100 <? Z.of_nat (length (entries w) + 1) - checkpoint_lsn w
     then Z.of_nat (length (entries w) + 1) else checkpoint_lsn w)%Z.
Proof.
  unfold append. cbn [snd entries checkpoint_lsn length]. rewrite length_app. cbn [length].
  destruct (100 <? _)%Z; cbn [checkpoint entries wal_file lsn_counter checkpoint_lsn];
    by rewrite ?length_app.
Qed.

Lemma append_all_snoc (w : WriteAheadLog) (calls : list append_call)
    (now op table : string) (d : payload) :
  append_all w (calls ++ [(now, op, table, d)]) =
    snd (append (append_all w calls) now op table d).
Proof. unfold append_all. by rewrite foldl_app. Qed.

Lemma append_all_fresh (now0 : string) (calls : list append_call) :
  let w := append_all (open_wal None now0) calls in
  entries w = imap logged calls ∧
  default [] (wal_file w) = entries w ∧
  lsn_counter w = Z.of_nat (length calls) ∧
  resume_point (entries w) = Z.of_nat (length calls) ∧
  checkpoint_lsn w = (101 * (Z.of_nat (length calls) / 101))%Z.
Proof.
  induction calls as [|[[[now op] table] d] calls IH] using rev_ind; [done|].
  cbn zeta in *. rewrite append_all_snoc.
  destruct IH as (Hentries & Hfile & Hcounter & Hresume & Hcheck).
  destruct (append_fields (append_all (open_wal None now0) calls) now op table d)
    as (-> & -> & -> & ->).
  rewrite Hfile, Hcounter, Hcheck, Hentries, length_imap, length_app. cbn [length].
  split; [|split; [done|split; [lia|split]]].
  - rewrite imap_app. cbn [imap logged]. by rewrite Nat.add_0_r.
  - rewrite resume_point_snoc. cbn [lsn]. rewrite <- Hentries, Hresume. lia.
  - destruct (100 <? _)%Z eqn:Hlt; [apply Z.ltb_lt in Hlt|apply Z.ltb_ge in Hlt];
      Z.div_mod_to_equations; lia.
Qed.

Lemma load_wal_entries (w : WriteAheadLog) (now : string) (lines : list WALEntry) :
  wal_file w = Some lines →
  entries (_load_wal w now) = entries w ++ (reloaded now <$> lines) ∧
  checkpoint_lsn (_load_wal w now) = checkpoint_lsn w.
Proof.
  unfold _load_wal. intros Hf. rewrite Hf.
  set (step := λ (w : WriteAheadLog) (line : WALEntry), _).
  assert (∀ w0, entries (foldl step w0 lines) = entries w0 ++ (reloaded now <$> lines) ∧
                checkpoint_lsn (foldl step w0 lines) = checkpoint_lsn w0) as Hgen.
  { clear Hf. induction lines as [|line lines IH]; intros w0.
    { by rewrite app_nil_r. }
    cbn [foldl]. destruct (IH (step w0 line)) as [-> ->].
    cbn [step entries checkpoint_lsn fmap list_fmap]. by rewrite <- app_assoc. }
  apply Hgen.
Qed.

Lemma open_wal_entries (file : option (list WALEntry)) (now : string) :
  entries (open_wal file now) = reloaded now <$> default [] file ∧
  checkpoint_lsn (open_wal file now) = 0%Z.
Proof.
  unfold open_wal. destruct file as [lines|]; [|done].
  by destruct (load_wal_entries (MkWal (Some lines) [] 0 0) now lines eq_refl) as [-> ->].
Qed.

(** After any number of appends on a log that starts without a file, the
    log in memory and the file hold the same entries: one for each call,
    in the order of the calls, with the operation, table, data and time of
    the call and the number of the call, from [0], as LSN. *)
Theorem appends_are_persisted (now0 : string) (calls : list append_call) :
  entries (append_all (open_wal None now0) calls) = imap logged calls ∧
  default [] (wal_file (append_all (open_wal None now0) calls)) = imap logged calls ∧
  lsn_counter (append_all (open_wal None now0) calls) = Z.of_nat (length calls).
Proof.
  destruct (append_all_fresh now0 calls) as (He & Hf & Hc & _). cbn zeta in *.
  by rewrite Hf, He.
Qed.

(** On a log that starts without a file, a checkpoint is taken at every
    101st append: after [n] appends [checkpoint_lsn] is the largest
    multiple of 101 that is at most [n]. *)
Theorem checkpoint_every_101_appends (now0 : string) (calls : list append_call) :
  checkpoint_lsn (append_all (open_wal None now0) calls) =
    (101 * (Z.of_nat (length calls) / 101))%Z.
Proof. by destruct (append_all_fresh now0 calls) as (_ & _ & _ & _ & Hcheck). Qed.

(** A process that starts over the file a sequence of appends has left
    has the same entries again, each with its operation, table, data and
    LSN but with the time of loading as its time; its counter resumes
    where the appends left it, and its checkpoint mark is back at [0]. *)
Theorem reload_restamps_entries (now0 now' : string) (calls : list append_call) :
  let w := append_all (open_wal None now0) calls in
  let w' := open_wal (wal_file w) now' in
  entries w' = reloaded now' <$> entries w ∧
  lsn_counter w' = lsn_counter w ∧
  checkpoint_lsn w' = 0%Z ∧
  wal_file w' = wal_file w.
Proof.
  cbn zeta. destruct (append_all_fresh now0 calls) as (_ & Hf & Hc & Hr & _).
  cbn zeta in *.
  destruct (open_wal_entries (wal_file (append_all (open_wal None now0) calls)) now')
    as [-> ->].
  destruct (open_wal_counter (wal_file (append_all (open_wal None now0) calls)) now')
    as [-> ->].
  by rewrite Hf, Hr, Hc.
Qed.

(** * More on [_insert] *)

Lemma find_duplicate_sound (ucols : list string) (r : row) (rs : list row) c :
  find_duplicate ucols r rs = Some c →
  c ∈ ucols ∧ ∃ v r0, dict_get c r = Some v ∧ r0 ∈ rs ∧ holds r0 c v = true.
Proof.
  induction ucols as [|u us IH]; simpl; [done|].
  assert (find_duplicate us r rs = Some c →
          c ∈ u :: us ∧ ∃ v r0, dict_get c r = Some v ∧ r0 ∈ rs ∧ holds r0 c v = true)
    as Hrest.
  { intros [Hc Hdup]%IH. split; [by right|done]. }
  destruct (dict_get u r) as [v|] eqn:Hv; [|done].
  destruct (existsb _ rs) eqn:Hex; [|done].
  intros [= <-]. split; [by left|].
  apply existsb_exists in Hex as (r0 & Hr0 & Hh).
  exists v, r0. split; [done|]. split; [by apply list_elem_of_In|done].
Qed.

Lemma fill_row_get_other (row0 : row) (cols : list string) (values : list scalar) k :
  k ∉ cols → dict_get k (fill_row row0 cols values) = dict_get k row0.
Proof.
  unfold fill_row. revert row0 values.
  induction cols as [|c cols IH]; intros row0 values Hk; [done|].
  destruct values as [|v values]; [done|]. cbn [zip zip_with foldl].
  apply not_elem_of_cons in Hk as [Hne Hk]. rewrite IH by done.
  by apply dict_get_set_ne.
Qed.

Lemma index_grown_refl table_name r idx :
  idx_table idx ≠ table_name ∨ dict_get (idx_column idx) r = None →
  index_grown table_name r idx idx.
Proof.
  intros Hout. split; try done; [by right|].
  intros Ht Hsome. destruct Hout as [Hout|Hout]; [done|].
  rewrite Hout in Hsome. by destruct Hsome.
Qed.

Lemma update_indexes_Done ix table_name r ix' :
  update_indexes ix table_name r = Done tt ix' →
  Forall2 (λ a b, b.1 = a.1 ∧ index_grown table_name r a.2 b.2) ix ix'.
Proof.
  revert ix'. induction ix as [|[index_key index_data] ix IH]; intros ix'; simpl.
  { intros [= <-]. constructor. }
  assert (Hrest : ∀ d, index_grown table_name r index_data d →
    match update_indexes ix table_name r with
    | Done _ ix'' => Done tt ((index_key, d) :: ix'')
    | Raised ex0 ix'' => Raised ex0 ((index_key, d) :: ix'')
    end = Done tt ix' →
    Forall2 (λ a b, b.1 = a.1 ∧ index_grown table_name r a.2 b.2)
            ((index_key, index_data) :: ix) ix').
  { intros d Hd. destruct (update_indexes ix table_name r) as [[] ix''|]; [|done].
    intros [= <-]. constructor; [done|]. by apply IH. }
  destruct (String.eqb _ _) eqn:Ht.
  2:{ apply Hrest, index_grown_refl. left. intros Heq.
      by rewrite Heq, String.eqb_refl in Ht. }
  destruct (dict_get _ r) as [value|] eqn:Hv.
  2:{ apply Hrest, index_grown_refl. by right. }
  destruct (add_row _ _ value r) as [[] [tr bk]|e []] eqn:Ha; [|done].
  apply Hrest. apply add_row_buckets in Ha as (Hadd & Hkeeps & Honly).
  split; cbn [idx_table idx_column buckets]; try done.
  intros [Hne|Hnone]; [|congruence].
  apply String.eqb_eq in Ht. done.
Qed.

Lemma dict_get_Forall2 {A : Type} (P : A → A → Prop) (d d' : dict A) k v :
  Forall2 (λ a b, b.1 = a.1 ∧ P a.2 b.2) d d' →
  dict_get k d = Some v → ∃ v', dict_get k d' = Some v' ∧ P v v'.
Proof.
  induction 1 as [|[k0 v0] [k1 v1] d d' [Hk HP] Hrest IH]; simpl; [done|].
  cbn [fst snd] in *. subst k1. destruct (String.eqb k0 k); [|done].
  intros [= <-]. by exists v1.
Qed.

(** The parts of a successful [_insert]. *)
Lemma insert_Done e now table_name cols values table resp e' :
  dict_get table_name (tables e) = Some table →
  _insert e now table_name cols values = Done resp e' →
  let r := new_row table cols values in
  let table1 := snd (auto_key table cols) in
  find_duplicate (elements (unique_columns table)) r (rows table) = None ∧
  ∃ ix, update_indexes (indexes e) table_name r = Done tt ix ∧
        resp = RowInserted (primary_key table ≫= λ pk, dict_get pk r) ∧
        e' = {| tables := dict_set table_name (with_rows table1 (rows table ++ [r])) (tables e);
                indexes := ix;
                wal := snd (append (wal e) now "INSERT" table_name (PRow r));
                storage := storage e |}.
Proof.
  intros Ht. unfold _insert, new_row. rewrite Ht.
  pose proof (auto_key_table table cols) as (Hrows & Huniq & Hpk).
  destruct (auto_key table cols) as [row0 table1]. cbn [fst snd] in *.
  rewrite Huniq, Hrows. destruct (find_duplicate _ _ _); [done|].
  cbn [indexes set_tables tables].
  destruct (update_indexes _ _ _) as [[] ix|]; [|done].
  cbn [wal set_indexes set_tables primary_key with_rows].
  destruct (append _ _ _ _ _) as [l w] eqn:Happ.
  intros [= <- <-]. split; [done|]. exists ix. split; [done|].
  rewrite Hpk. split; [done|].
  unfold set_wal, set_indexes, set_tables. cbn. by rewrite dict_set_set.
Qed.

(** A successful insert appends the new row to the rows of its table and
    changes nothing else of the table but the counter, which is one
    further exactly when the table assigned the key (then the key of the
    new row is the old counter); the other tables and the snapshot are as
    they were, the log has gained one [INSERT] entry with the row and the
    next LSN, and [inserted_id] is the value of the row under the primary
    key. *)
Theorem insert_appends_row (e : PaymentRDBMS) (now table_name : string)
    (cols : list string) (values : list scalar) (table : Table)
    (resp : response) (e' : PaymentRDBMS) :
  dict_get table_name (tables e) = Some table →
  _insert e now table_name cols values = Done resp e' →
  ∃ table',
    dict_get table_name (tables e') = Some table' ∧
    rows table' = rows table ++ [new_row table cols values] ∧
    columns table' = columns table ∧
    primary_key table' = primary_key table ∧
    unique_columns table' = unique_columns table ∧
    (∀ pk, primary_key table = Some pk → truthy pk = true → pk ∉ cols →
           dict_get pk (new_row table cols values) = Some (VInt (next_id table)) ∧
           next_id table' = (next_id table + 1)%Z) ∧
    (∀ pk, primary_key table = Some pk → pk ∈ cols → next_id table' = next_id table) ∧
    (∀ nm, nm ≠ table_name → dict_get nm (tables e') = dict_get nm (tables e)) ∧
    entries (wal e') =
      entries (wal e) ++
      [MkEntry "INSERT" table_name (PRow (new_row table cols values)) now
               (lsn_counter (wal e))] ∧
    resp = RowInserted (primary_key table ≫= λ pk, dict_get pk (new_row table cols values)) ∧
    storage e' = storage e.
Proof.
  intros Ht Hrun.
  destruct (insert_Done _ _ _ _ _ _ _ _ Ht Hrun) as (_ & ix & _ & -> & ->).
  cbn [tables wal storage]. eexists. split; [apply dict_get_set_eq|].
  pose proof (auto_key_table table cols) as (Hrows & Huniq & Hpk).
  cbn [rows columns primary_key unique_columns next_id with_rows].
  split; [done|]. split.
  { unfold auto_key. destruct (primary_key table); [|done]. by destruct (_ && _). }
  split; [done|]. split; [done|]. split; [|split; [|split; [|split]]].
  - intros pk Hprim Htruthy Hcols. unfold new_row, auto_key. rewrite Hprim, Htruthy.
    replace (existsb (String.eqb pk) cols) with false; cbn [negb andb fst snd next_id with_next_id].
    2:{ symmetry. apply not_true_is_false. intros (x & Hx & Heq)%existsb_exists.
        apply String.eqb_eq in Heq as <-. by apply Hcols, list_elem_of_In. }
    split; [|done]. rewrite fill_row_get_other by done. cbn. by rewrite String.eqb_refl.
  - intros pk Hprim Hcols. unfold auto_key. rewrite Hprim.
    replace (existsb (String.eqb pk) cols) with true; [by rewrite andb_false_r|].
    symmetry. apply existsb_exists. exists pk.
    split; [by apply list_elem_of_In|apply String.eqb_refl].
  - intros nm Hne. by apply dict_get_set_ne.
  - apply append_entries.
  - done.
Qed.

Lemma insert_appends_row_witness :
  ∃ table',
    dict_get "customers"
      (tables (state_of (_insert sample_engine "09:02" "customers" ["email"]
                           [VText "eve@example.com"]))) = Some table' ∧
    rows table' = rows sample_customers ++ [customer 5 "eve@example.com"] ∧
    next_id table' = 6%Z.
Proof.
  destruct (insert_appends_row sample_engine "09:02" "customers" ["email"]
              [VText "eve@example.com"] sample_customers
              (RowInserted (Some (VInt 5)))
              (state_of (_insert sample_engine "09:02" "customers" ["email"]
                           [VText "eve@example.com"])))
    as (table' & Hget & Hrows & _ & _ & _ & Hauto & _).
  - vm_compute. reflexivity.
  - vm_compute. reflexivity.
  - exists table'. split; [exact Hget|]. split; [exact Hrows|].
    destruct (Hauto "id") as [_ Hnext].
    + reflexivity.
    + reflexivity.
    + intros Hin. apply list_elem_of_singleton in Hin. discriminate.
    + exact Hnext.
Defined.

(** An [_insert] that raises does so in one of three ways: the table is
    not registered and the engine is as it was; or a unique column of the
    table holds, in an existing row, the value of the new row (equal as
    [==] finds them); or the update of an index raised out of the tree,
    and then the row is appended to the table all the same while the log
    has no entry for it. *)
Theorem insert_failures (e : PaymentRDBMS) (now table_name : string)
    (cols : list string) (values : list scalar) (ex : exn) (e' : PaymentRDBMS) :
  _insert e now table_name cols values = Raised ex e' →
  (ex = ValueError (TableDoesNotExist table_name) ∧
   dict_get table_name (tables e) = None ∧ e' = e) ∨
  (∃ table c v r0,
     dict_get table_name (tables e) = Some table ∧
     ex = ValueError (DuplicateValue c) ∧
     c ∈ unique_columns table ∧
     dict_get c (new_row table cols values) = Some v ∧
     r0 ∈ rows table ∧ holds r0 c v = true) ∨
  (∃ table table',
     dict_get table_name (tables e) = Some table ∧
     is_tree_exn ex = true ∧
     dict_get table_name (tables e') = Some table' ∧
     rows table' = rows table ++ [new_row table cols values] ∧
     wal e' = wal e).
Proof.
  intros Hrun. unfold _insert in Hrun.
  destruct (dict_get table_name (tables e)) as [table|] eqn:Ht.
  2:{ injection Hrun as <- <-. by left. }
  right. pose proof (auto_key_table table cols) as (Hrows & Huniq & Hpk).
  assert (new_row table cols values = fill_row (auto_key table cols).1 cols values)
    as Hnew by done.
  destruct (auto_key table cols) as [row0 table1]. cbn [fst snd] in *.
  destruct (find_duplicate _ _ _) as [c|] eqn:Hdup.
  - injection Hrun as <- <-. left.
    apply find_duplicate_sound in Hdup as (Hc & v & r0 & Hv & Hr0 & Hh).
    exists table, c, v, r0. rewrite Huniq in Hc. rewrite Hrows in Hr0. rewrite Hnew.
    split; [done|]. split; [done|]. split; [|done]. by apply elem_of_elements.
  - destruct (update_indexes _ _ _) as [[] ix|ex' ix] eqn:Hu.
    { by destruct (append _ _ _ _ _). }
    injection Hrun as <- <-. right. eexists table, _. split; [done|].
    split; [by eapply update_indexes_raises|].
    cbn [tables set_indexes set_tables wal]. split; [apply dict_get_set_eq|].
    by rewrite Hnew, <- Hrows.
Qed.

Lemma insert_failures_witness :
  ∃ table table',
    dict_get "notes" (tables (run empty_engine "09:01"
                                [CreateTable "notes" [Column "body" "TEXT" false true];
                                 InsertInto "notes" ["body"] [VText "x"]])) = Some table ∧
    dict_get "notes" (tables (run empty_engine "09:01" mixed_unique_notes)) = Some table' ∧
    rows table' = rows table ++ [[("body", VInt 5)]] ∧
    length (entries (wal (run empty_engine "09:01" mixed_unique_notes))) = 2.
Proof.
  destruct (insert_failures
              (run empty_engine "09:01"
                 [CreateTable "notes" [Column "body" "TEXT" false true];
                  InsertInto "notes" ["body"] [VText "x"]])
              "09:01" "notes" ["body"] [VInt 5] TypeError
              (run empty_engine "09:01" mixed_unique_notes))
    as [(Hex & _)|[(table & c & v & r0 & _ & Hex & _)|
                   (table & table' & Ht & _ & Ht' & Hrows & Hwal)]].
  - vm_compute. reflexivity.
  - discriminate Hex.
  - discriminate Hex.
  - exists table, table'. split; [exact Ht|]. split; [exact Ht'|].
    split.
    + rewrite Hrows. f_equal. revert Ht. vm_compute. intros [= <-]. reflexivity.
    + rewrite Hwal. vm_compute. reflexivity.
Defined.

(** A successful insert keeps every index registered under its key, on
    its table and column, with the rows its buckets held; an index on the
    table of the insert whose column the new row has a value under holds
    the new row in a bucket besides, and every other index is as it
    was. *)
Theorem insert_updates_indexes (e : PaymentRDBMS) (now table_name : string)
    (cols : list string) (values : list scalar) (table : Table)
    (resp : response) (e' : PaymentRDBMS) (key : string) (idx : Index) :
  dict_get table_name (tables e) = Some table →
  _insert e now table_name cols values = Done resp e' →
  dict_get key (indexes e) = Some idx →
  ∃ idx',
    dict_get key (indexes e') = Some idx' ∧
    idx_table idx' = idx_table idx ∧ idx_column idx' = idx_column idx ∧
    (∀ ref r', r' ∈ bucket (buckets idx) ref → r' ∈ bucket (buckets idx') ref) ∧
    (∀ ref r', r' ∈ bucket (buckets idx') ref →
               r' = new_row table cols values ∨ r' ∈ bucket (buckets idx) ref) ∧
    (idx_table idx = table_name →
     is_Some (dict_get (idx_column idx) (new_row table cols values)) →
     ∃ ref, new_row table cols values ∈ bucket (buckets idx') ref) ∧
    (idx_table idx ≠ table_name ∨
     dict_get (idx_column idx) (new_row table cols values) = None → idx' = idx).
Proof.
  intros Ht Hrun Hidx.
  destruct (insert_Done _ _ _ _ _ _ _ _ Ht Hrun) as (_ & ix & Hu & _ & ->).
  cbn [indexes]. apply update_indexes_Done in Hu.
  destruct (dict_get_Forall2 _ _ _ _ _ Hu Hidx) as (idx' & Hget & []).
  by exists idx'.
Qed.

Lemma insert_updates_indexes_witness :
  ∃ idx' ref,
    dict_get "customers_email_idx"
      (indexes (state_of (_insert sample_engine "09:02" "customers" ["email"]
                            [VText "eve@example.com"]))) = Some idx' ∧
    customer 5 "eve@example.com" ∈ bucket (buckets idx') ref.
Proof.
  destruct (dict_get "customers_email_idx" (indexes sample_engine)) as [idx|] eqn:Hidx.
  2:{ exfalso. revert Hidx. vm_compute. discriminate. }
  destruct (insert_updates_indexes sample_engine "09:02" "customers" ["email"]
              [VText "eve@example.com"] sample_customers
              (RowInserted (Some (VInt 5)))
              (state_of (_insert sample_engine "09:02" "customers" ["email"]
                           [VText "eve@example.com"]))
              "customers_email_idx" idx)
    as (idx' & Hget & _ & _ & _ & _ & Hadds & _).
  - vm_compute. reflexivity.
  - vm_compute. reflexivity.
  - exact Hidx.
  - destruct Hadds as [ref Href].
    + revert Hidx. vm_compute. intros [= <-]. reflexivity.
    + revert Hidx. vm_compute. intros [= <-]. eexists. reflexivity.
    + exists idx', ref. split; [exact Hget|exact Href].
Defined.

(** * [_select] and [_select_join] *)

Section Project.
Context {A : Type} (get : string → A → option scalar).

Lemma project_fold (d0 : selected_row) (select_cols : list string) (r : A) c :
  dict_get c (foldl (λ d col, dict_set col (get col r) d) d0 select_cols) =
  if decide (c ∈ select_cols) then Some (get c r) else dict_get c d0.
Proof.
  revert d0. induction select_cols as [|a cols IH]; intros d0; [done|].
  cbn [foldl]. rewrite IH. destruct (decide (c ∈ cols)) as [Hin|Hout].
  - rewrite decide_True; [done|by right].
  - rewrite dict_get_set. destruct (String.eqb a c) eqn:E.
    + apply String.eqb_eq in E as ->. rewrite decide_True; [done|by left].
    + rewrite decide_False; [done|]. intros [->|?]%elem_of_cons; [|done].
      by rewrite String.eqb_refl in E.
Qed.

Lemma project_get (select_cols : list string) (r : A) c :
  dict_get c (project get select_cols r) =
  if decide (c ∈ select_cols) then Some (get c r) else None.
Proof. apply project_fold. Qed.

Lemma project_wf (select_cols : list string) (r : A) :
  dict_wf (project get select_cols r).
Proof.
  unfold project.
  assert (∀ d0 : selected_row, dict_wf d0 →
            dict_wf (foldl (λ d col, dict_set col (get col r) d) d0 select_cols)) as Hgen.
  { induction select_cols as [|a cols IH]; intros d0 Hd0; [done|].
    cbn [foldl]. apply IH. by apply dict_set_wf. }
  apply Hgen. apply NoDup_nil_2.
Qed.

Lemma project_keys (select_cols : list string) (r : A) c :
  c ∈ (project get select_cols r).*1 ↔ c ∈ select_cols.
Proof.
  pose proof (dict_get_None_keys c (project get select_cols r)) as Hnone.
  rewrite project_get in Hnone. destruct (decide (c ∈ select_cols)) as [Hin|Hout].
  - split; [done|]. intros _. destruct (decide (c ∈ (project get select_cols r).*1)); [done|].
    by apply Hnone in n.
  - split; [|done]. intros Hin. by apply Hnone in Hin.
Qed.
End Project.

(** A row that was inserted is read back: after a successful insert,
    [SELECT *] on the table without [WHERE] returns the rows the table
    had, in their order, and the new row after them, under the names of
    the columns of the table. *)
Theorem inserted_row_is_selected (e : PaymentRDBMS) (now table_name : string)
    (cols : list string) (values : list scalar) (table : Table)
    (resp : response) (e' : PaymentRDBMS) :
  dict_get table_name (tables e) = Some table →
  _insert e now table_name cols values = Done resp e' →
  _select e Star table_name None =
    Ok {| sel_rows := as_selected <$> rows table;
          sel_columns := col_name <$> columns table |} ∧
  _select e' Star table_name None =
    Ok {| sel_rows := as_selected <$> (rows table ++ [new_row table cols values]);
          sel_columns := col_name <$> columns table |}.
Proof.
  intros Ht Hrun. unfold _select. rewrite Ht. split; [done|].
  destruct (insert_Done _ _ _ _ _ _ _ _ Ht Hrun) as (_ & ix & _ & _ & ->).
  cbn [tables]. rewrite dict_get_set_eq. cbn [mbind result_bind rows with_rows columns].
  do 3 f_equal. unfold auto_key. destruct (primary_key table); [|done].
  by destruct (_ && _).
Qed.

Lemma inserted_row_is_selected_witness :
  _select (state_of (_insert sample_engine "09:02" "customers" ["email"]
                       [VText "eve@example.com"])) Star "customers" None =
    Ok {| sel_rows :=
            as_selected <$> (rows sample_customers ++ [customer 5 "eve@example.com"]);
          sel_columns := ["id"; "email"] |}.
Proof.
  destruct (inserted_row_is_selected sample_engine "09:02" "customers" ["email"]
              [VText "eve@example.com"] sample_customers
              (RowInserted (Some (VInt 5)))
              (state_of (_insert sample_engine "09:02" "customers" ["email"]
                           [VText "eve@example.com"]))) as [_ Hsel].
  - vm_compute. reflexivity.
  - vm_compute. reflexivity.
  - exact Hsel.
Defined.

(** A [SELECT] with a column list returns one row for every row the
    statement with [*] returns, in the same order; each holds the listed
    columns and no other, each once, and under a listed column the value
    of the table row, or [None] when the table row has no such column:
    a column that does not exist is no error. *)
Theorem select_lists_named_columns (e : PaymentRDBMS) (select_cols : list string)
    (table_name : string) (where_clause : option (string * scalar)) (res : selection) :
  _select e (Cols select_cols) table_name where_clause = Ok res →
  sel_columns res = select_cols ∧
  ∃ (rs : list row) cols,
    _select e Star table_name where_clause =
      Ok {| sel_rows := as_selected <$> rs; sel_columns := cols |} ∧
    length (sel_rows res) = length rs ∧
    ∀ i (r : row), rs !! i = Some r →
      ∃ out, sel_rows res !! i = Some out ∧
             NoDup out.*1 ∧
             (∀ c, c ∈ out.*1 ↔ c ∈ select_cols) ∧
             (∀ c, c ∈ select_cols → dict_get c out = Some (dict_get c r)).
Proof.
  unfold _select. destruct (dict_get table_name (tables e)) as [table|]; [|done].
  destruct (match where_clause with Some _ => _ | None => _ end) as [rs|]; [|done].
  cbn [mbind result_bind]. intros [= <-]. cbn [sel_rows sel_columns].
  split; [done|]. exists rs, (col_name <$> columns table). split; [done|].
  split; [by rewrite length_fmap|].
  intros i r Hr. exists (project dict_get select_cols r).
  split; [apply list_lookup_fmap_Some; by exists r|].
  split; [apply project_wf|]. split; [apply project_keys|].
  intros c Hc. rewrite project_get. by rewrite decide_True.
Qed.

Lemma select_lists_named_columns_witness :
  ∃ res, _select sample_engine (Cols ["email"; "phone"]) "customers"
           (Some ("id", VInt 2)) = Ok res ∧
         sel_columns res = ["email"; "phone"] ∧
         sel_rows res = [[("email", Some (VText "bob@example.com")); ("phone", None)]].
Proof.
  destruct (_select sample_engine (Cols ["email"; "phone"]) "customers"
              (Some ("id", VInt 2))) as [res|ex] eqn:Hsel.
  2:{ exfalso. revert Hsel. vm_compute. discriminate. }
  exists res. split; [reflexivity|].
  destruct (select_lists_named_columns _ _ _ _ _ Hsel) as [Hcols _].
  split; [exact Hcols|]. revert Hsel. vm_compute. intros [= <-]. reflexivity.
Defined.

(** * [_select_join] *)

Lemma string_app_cons (a : Ascii.ascii) (s t : string) :
  (String a s ++ t)%string = String a (s ++ t).
Proof. reflexivity. Qed.

Lemma string_app_empty (s : string) : (s ++ EmptyString)%string = s.
Proof. induction s as [|a s IH]; [done|by rewrite string_app_cons, IH]. Qed.

Lemma string_app_snoc (cur s : string) (a : Ascii.ascii) :
  ((cur ++ String a EmptyString) ++ s)%string = (cur ++ String a s)%string.
Proof. induction cur as [|b cur IH]; [done|by rewrite !string_app_cons, IH]. Qed.

Lemma last_segment_dotless (cur s : string) :
  has_char dot s = false → last_segment cur s = (cur ++ s)%string.
Proof.
  revert cur. induction s as [|a s IH]; intros cur; cbn [has_char last_segment].
  { intros _. by rewrite string_app_empty. }
  intros [Ha Hs]%orb_false_iff. rewrite Ha, IH by done. apply string_app_snoc.
Qed.

Lemma last_segment_qualified (cur q c : string) :
  last_segment cur (q ++ String dot c) = last_segment EmptyString c.
Proof.
  revert cur. induction q as [|a q IH]; intros cur.
  - change (EmptyString ++ String dot c)%string with (String dot c).
    cbn [last_segment]. by rewrite Ascii.eqb_refl.
  - rewrite string_app_cons. cbn [last_segment]. destruct (Ascii.eqb a dot); apply IH.
Qed.

Lemma dotless_prefix_inj (t1 t2 k1 k2 : string) :
  has_char dot t1 = false → has_char dot t2 = false →
  (t1 ++ String dot k1)%string = (t2 ++ String dot k2)%string → t1 = t2 ∧ k1 = k2.
Proof.
  revert t2. induction t1 as [|a t1 IH]; intros [|b t2];
    rewrite ?string_app_cons; cbn [has_char];
    change (EmptyString ++ String dot k1)%string with (String dot k1);
    change (EmptyString ++ String dot k2)%string with (String dot k2).
  - by intros _ _ [= ->].
  - intros _ [Hb _]%orb_false_iff [= <- _]. by rewrite Ascii.eqb_refl in Hb.
  - intros [Ha _]%orb_false_iff _ [= -> _]. by rewrite Ascii.eqb_refl in Ha.
  - intros [_ H1]%orb_false_iff [_ H2]%orb_false_iff [= -> Heq].
    destruct (IH _ H1 H2 Heq) as [-> ->]. done.
Qed.

Section Prefixed.
Variable table_name : string.

Lemma prefix_inj (k1 k2 : string) :
  (table_name ++ "." ++ k1)%string = (table_name ++ "." ++ k2)%string → k1 = k2.
Proof.
  induction table_name as [|a t IH]; [lazy [String.append]; by intros [= ->]|].
  rewrite !string_app_cons. intros [= Heq]. by apply IH.
Qed.

(** The keys of a row, written into a joined row under the table name. *)
Lemma prefixed_get_own (r j0 : row) k :
  dict_wf r →
  dict_get (table_name ++ "." ++ k)%string (prefixed table_name r j0) =
  match dict_get k r with
  | Some v => Some v
  | None => dict_get (table_name ++ "." ++ k)%string j0
  end.
Proof.
  unfold prefixed. revert j0. induction r as [|[k' v] r IH]; intros j0 Hwf; [done|].
  apply NoDup_cons in Hwf as [Hk' Hwf]. cbn [fst] in Hk'. cbn [foldl dict_get].
  rewrite IH by done. rewrite dict_get_set.
  destruct (String.eqb k' k) eqn:E.
  - apply String.eqb_eq in E as ->. rewrite String.eqb_refl.
    by apply dict_get_None_keys in Hk' as ->.
  - destruct (String.eqb (table_name ++ "." ++ k') (table_name ++ "." ++ k)) eqn:E';
      [|done].
    apply String.eqb_eq, prefix_inj in E' as ->. by rewrite String.eqb_refl in E.
Qed.

Lemma prefixed_get_other (r j0 : row) key :
  (∀ k, key ≠ (table_name ++ "." ++ k)%string) →
  dict_get key (prefixed table_name r j0) = dict_get key j0.
Proof.
  intros Hkey. unfold prefixed. revert j0.
  induction r as [|[k' v] r IH]; intros j0; [done|].
  cbn [foldl]. rewrite IH. apply dict_get_set_ne. intros Heq. by apply (Hkey k').
Qed.
End Prefixed.

Lemma nested_loop_join_all (table1_name table2_name col1 col2 : string)
    (rows1 rows2 : list row) :
  Forall (λ r, dict_get col1 r = None) rows1 →
  Forall (λ r, dict_get col2 r = None) rows2 →
  nested_loop_join table1_name table2_name col1 col2 rows1 rows2 =
    (row1 ← rows1; row2 ← rows2; [joined table1_name table2_name row1 row2]).
Proof.
  intros H1 H2. unfold nested_loop_join.
  induction H1 as [|r1 rows1 Hr1 H1 IH]; [done|].
  rewrite !bind_cons, IH. f_equal. rewrite Hr1. clear -H2.
  induction H2 as [|r2 rows2 Hr2 H2 IH]; [done|].
  by rewrite !bind_cons, IH, Hr2.
Qed.

Lemma all_pairs_length {A B : Type} (f : A → A → B) (l1 l2 : list A) :
  length (x ← l1; y ← l2; [f x y]) = length l1 * length l2.
Proof.
  induction l1 as [|x l1 IH]; [done|]. rewrite bind_cons, length_app, IH.
  cbn [length Nat.mul]. f_equal. clear. induction l2 as [|y l2 IH]; [done|].
  rewrite bind_cons. cbn. by rewrite IH.
Qed.

(** The qualifier of a join column is not looked at: with column names
    that hold no dot, [JOIN ... ON q1.c1 = q2.c2] is the join on [c1] and
    [c2], whatever [q1] and [q2] are. *)
Theorem join_qualifier_ignored (e : PaymentRDBMS) (cols : selector)
    (table1_name table2_name q1 c1 q2 c2 : string) :
  has_char dot c1 = false → has_char dot c2 = false →
  _select_join e cols table1_name table2_name (q1 ++ "." ++ c1) (q2 ++ "." ++ c2) =
  _select_join e cols table1_name table2_name c1 c2.
Proof.
  intros H1 H2. unfold _select_join.
  change ("." ++ c1)%string with (String dot c1).
  change ("." ++ c2)%string with (String dot c2).
  by rewrite !last_segment_qualified.
Qed.

Lemma join_qualifier_ignored_witness :
  _select_join sample_engine Star "customers" "customers" "orders.id" "nobody.id" =
  _select_join sample_engine Star "customers" "customers" "id" "id".
Proof.
  apply (join_qualifier_ignored sample_engine Star "customers" "customers"
           "orders" "id" "nobody" "id"); reflexivity.
Defined.

(** A join on columns that no row of either table has pairs every row of
    the first table with every row of the second: a column that is
    missing on both sides compares equal, and nothing raises. *)
Theorem join_on_absent_columns_pairs_all (e : PaymentRDBMS) (cols : selector)
    (table1_name table2_name join_col1 join_col2 : string) (table1 table2 : Table) :
  dict_get table1_name (tables e) = Some table1 →
  dict_get table2_name (tables e) = Some table2 →
  Forall (λ r, dict_get (last_segment EmptyString join_col1) r = None) (rows table1) →
  Forall (λ r, dict_get (last_segment EmptyString join_col2) r = None) (rows table2) →
  ∃ res, _select_join e cols table1_name table2_name join_col1 join_col2 = Some res ∧
         length (sel_rows res) = length (rows table1) * length (rows table2).
Proof.
  intros Ht1 Ht2 H1 H2. unfold _select_join. rewrite Ht1, Ht2.
  rewrite (nested_loop_join_all _ _ _ _ _ _ H1 H2).
  eexists. split; [done|].
  destruct cols; cbn [sel_rows]; by rewrite length_fmap, all_pairs_length.
Qed.

Lemma join_on_absent_columns_pairs_all_witness :
  ∃ res, _select_join sample_engine Star "customers" "customers"
           "customers.phone" "customers.fax" = Some res ∧
         length (sel_rows res) = 16.
Proof.
  destruct (join_on_absent_columns_pairs_all sample_engine Star "customers" "customers"
              "customers.phone" "customers.fax" sample_customers sample_customers)
    as (res & Hres & Hlen).
  - vm_compute. reflexivity.
  - vm_compute. reflexivity.
  - vm_compute. repeat constructor.
  - vm_compute. repeat constructor.
  - exists res. split; [exact Hres|exact Hlen].
Defined.

(** The row a join makes of two rows.  When the two table names differ
    (and hold no dot) it has the value of the first row under the first
    name and that of the second row under the second; when a table is
    joined with itself the values of the second row take the place of
    those of the first, which is kept only for a column the second row
    lacks. *)
Theorem joined_row_values (table1_name table2_name : string) (row1 row2 : row)
    (k : string) :
  dict_wf row1 → dict_wf row2 →
  (has_char dot table1_name = false → has_char dot table2_name = false →
   table1_name ≠ table2_name →
   dict_get (table1_name ++ "." ++ k)%string (joined table1_name table2_name row1 row2) =
     dict_get k row1 ∧
   dict_get (table2_name ++ "." ++ k)%string (joined table1_name table2_name row1 row2) =
     dict_get k row2) ∧
  (table1_name = table2_name →
   dict_get (table2_name ++ "." ++ k)%string (joined table1_name table2_name row1 row2) =
     match dict_get k row2 with
     | Some v => Some v
     | None => dict_get k row1
     end).
Proof.
  intros Hwf1 Hwf2. unfold joined. split.
  - intros Hd1 Hd2 Hne. split.
    + rewrite prefixed_get_other.
      * rewrite prefixed_get_own by done. by destruct (dict_get k row1).
      * intros k' Heq. change ("." ++ k)%string with (String dot k) in Heq.
        change ("." ++ k')%string with (String dot k') in Heq.
        by destruct (dotless_prefix_inj _ _ _ _ Hd1 Hd2 Heq).
    + rewrite prefixed_get_own by done. destruct (dict_get k row2); [done|].
      apply prefixed_get_other. intros k' Heq.
      change ("." ++ k)%string with (String dot k) in Heq.
      change ("." ++ k')%string with (String dot k') in Heq.
      by destruct (dotless_prefix_inj _ _ _ _ Hd2 Hd1 Heq).
  - intros ->. rewrite prefixed_get_own by done. destruct (dict_get k row2); [done|].
    rewrite prefixed_get_own by done. by destruct (dict_get k row1).
Qed.

Lemma joined_row_values_witness :
  dict_get "customers.email"
    (joined "customers" "customers" (customer 1 "alice@example.com")
       (customer 2 "bob@example.com")) = Some (VText "bob@example.com").
Proof.
  destruct (joined_row_values "customers" "customers" (customer 1 "alice@example.com")
              (customer 2 "bob@example.com") "email") as [_ Hself].
  - vm_compute. repeat constructor; set_solver.
  - vm_compute. repeat constructor; set_solver.
  - exact (Hself eq_refl).
Defined.

(** * The catalogue: tables, indexes, counters *)

Lemma create_table_parts e now table_name defs resp e' :
  _create_table e now table_name defs = Done resp e' →
  ∃ e1, create_table_columns e table_name defs None =
          Done (declared_primary_key defs None) e1 ∧
        tables e1 = tables e ∧ wal e1 = wal e ∧ storage e1 = storage e ∧
        resp = TableCreated table_name ∧
        e' = {| tables := dict_set table_name
                            (new_table table_name defs (declared_primary_key defs None))
                            (tables e);
                indexes := indexes e1;
                wal := snd (append (wal e) now "CREATE_TABLE" table_name (PColumns defs));
                storage := storage e |}.
Proof.
  unfold _create_table.
  destruct (create_table_columns e table_name defs None) as [pk e1|] eqn:Hcols; [|done].
  apply create_table_columns_Done in Hcols as Hparts.
  destruct Hparts as (Ht & Hw & Hs & -> & _).
  cbn [wal set_tables]. destruct (append _ _ _ _ _) as [l w] eqn:Happ.
  intros [= <- <-]. exists e1. split; [done|]. repeat (split; [done|]).
  unfold set_wal, set_tables. cbn [tables indexes wal storage].
  by rewrite Ht, Hs, <- Hw, Happ.
Qed.

(** A table that was created is there: after [_create_table] returns,
    [_describe] of the name gives the columns of the statement and, as
    primary key, the last column flagged so; [SHOW TABLES] lists the name,
    in the place it had if it was registered and else at the end; and
    [SELECT *] on it returns no row. *)
Theorem created_table_is_described (e : PaymentRDBMS) (now table_name : string)
    (defs : list column) (resp : response) (e' : PaymentRDBMS) :
  _create_table e now table_name defs = Done resp e' →
  _describe e' table_name = Ok (defs, declared_primary_key defs None) ∧
  _show_tables e' =
    (if dict_has table_name (tables e) then _show_tables e
     else _show_tables e ++ [table_name]) ∧
  _select e' Star table_name None =
    Ok {| sel_rows := []; sel_columns := col_name <$> defs |}.
Proof.
  intros (e1 & _ & _ & _ & _ & _ & ->)%create_table_parts.
  unfold _describe, _show_tables, _select. cbn [tables].
  rewrite dict_get_set_eq, dict_set_keys. done.
Qed.

Lemma created_table_is_described_witness :
  _describe (state_of (_create_table sample_engine "09:02" "accounts"
                         [Column "id" "INTEGER" true false;
                          Column "iban" "TEXT" true true]))
            "accounts" =
    Ok ([Column "id" "INTEGER" true false; Column "iban" "TEXT" true true], Some "iban") ∧
  _show_tables (state_of (_create_table sample_engine "09:02" "accounts"
                            [Column "id" "INTEGER" true false;
                             Column "iban" "TEXT" true true])) =
    ["customers"; "accounts"].
Proof.
  destruct (created_table_is_described sample_engine "09:02" "accounts"
              [Column "id" "INTEGER" true false; Column "iban" "TEXT" true true]
              (TableCreated "accounts")
              (state_of (_create_table sample_engine "09:02" "accounts"
                           [Column "id" "INTEGER" true false;
                            Column "iban" "TEXT" true true])))
    as (Hdesc & Hshow & _).
  - vm_compute. reflexivity.
  - split; [exact Hdesc|]. rewrite Hshow. vm_compute. reflexivity.
Defined.

(** ** Counters *)

Lemma total_rows_set (d : dict Table) k (t t' : Table) :
  dict_get k d = Some t →
  foldr (λ '(_, table) n, length (rows table) + n) 0 (dict_set k t' d) + length (rows t) =
  foldr (λ '(_, table) n, length (rows table) + n) 0 d + length (rows t').
Proof.
  induction d as [|[k0 t0] d IH]; [done|]. cbn [dict_get dict_set].
  destruct (String.eqb k0 k).
  - intros [= ->]. cbn [foldr]. lia.
  - intros Ht%IH. cbn [foldr]. lia.
Qed.

Lemma dict_set_length {A : Type} (d : dict A) k (v v' : A) :
  dict_get k d = Some v → length (dict_set k v' d) = length d.
Proof.
  induction d as [|[k0 v0] d IH]; [done|]. cbn [dict_get dict_set].
  destruct (String.eqb k0 k); [done|]. intros Hv%IH. cbn [length]. by rewrite Hv.
Qed.

(** A successful insert raises the number of rows and the number of log
    entries that [get_stats] reports by one each, and leaves the numbers
    of tables and of indexes as they are. *)
Theorem insert_counts_once (e : PaymentRDBMS) (now table_name : string)
    (cols : list string) (values : list scalar) (resp : response) (e' : PaymentRDBMS) :
  _insert e now table_name cols values = Done resp e' →
  get_stats e' =
    {| stat_tables := stat_tables (get_stats e);
       stat_indexes := stat_indexes (get_stats e);
       stat_wal_entries := S (stat_wal_entries (get_stats e));
       stat_total_rows := S (stat_total_rows (get_stats e)) |}.
Proof.
  intros Hrun.
  destruct (dict_get table_name (tables e)) as [table|] eqn:Ht.
  2:{ unfold _insert in Hrun. by rewrite Ht in Hrun. }
  destruct (insert_Done _ _ _ _ _ _ _ _ Ht Hrun) as (_ & ix & Hu & _ & ->).
  apply update_indexes_Done, Forall2_length in Hu.
  unfold get_stats. cbn [tables indexes wal stat_tables stat_indexes stat_wal_entries
                          stat_total_rows].
  rewrite append_entries, length_app, (dict_set_length _ _ table) by done.
  pose proof (total_rows_set (tables e) table_name table
                (with_rows (snd (auto_key table cols))
                   (rows table ++ [new_row table cols values])) Ht) as Hsum.
  cbn [rows with_rows] in Hsum. rewrite length_app in Hsum. cbn [length] in *.
  f_equal; lia.
Qed.

Lemma insert_counts_once_witness :
  get_stats (state_of (_insert sample_engine "09:02" "customers" ["email"]
                         [VText "eve@example.com"])) =
    {| stat_tables := 1; stat_indexes := 2; stat_wal_entries := 6; stat_total_rows := 5 |}.
Proof.
  rewrite (insert_counts_once sample_engine "09:02" "customers" ["email"]
             [VText "eve@example.com"] (RowInserted (Some (VInt 5)))
             (state_of (_insert sample_engine "09:02" "customers" ["email"]
                          [VText "eve@example.com"]))).
  - vm_compute. reflexivity.
  - vm_compute. reflexivity.
Defined.

(** ** [CREATE INDEX] *)




(** An index that [CREATE INDEX] registers under a name other than
    [table_column_idx] is never looked at by a [WHERE] clause: the filter
    on any column of any table returns after the statement what it
    returned before. *)
Theorem named_index_not_consulted (e : PaymentRDBMS)
    (index_name table_name column_name : string) (resp : response) (e' : PaymentRDBMS)
    (table : Table) (rs : list row) (col : string) (value : scalar) :
  truthy index_name = true →
  _create_index_sql e index_name table_name column_name = Done resp e' →
  index_name ≠ default_index_key (name table) col →
  _filter_rows e' table rs col value = _filter_rows e table rs col value.
Proof.
  intros Htruthy. unfold _create_index_sql, _create_index. rewrite Htruthy.
  destruct (match dict_get table_name (tables e) with Some _ => _ | None => _ end)
    as [[tr bk]|]; [|done].
  intros [= <- <-] Hne. unfold _filter_rows. cbn [indexes set_indexes].
  by rewrite dict_get_set_ne.
Qed.

Lemma named_index_not_consulted_witness :
  _filter_rows (state_of (_create_index_sql sample_engine "idx_email" "customers" "email"))
    sample_customers (rows sample_customers) "email" (VText "bob@example.com") =
  _filter_rows sample_engine
    sample_customers (rows sample_customers) "email" (VText "bob@example.com").
Proof.
  apply (named_index_not_consulted sample_engine "idx_email" "customers" "email"
           (IndexCreated "idx_email")).
  - reflexivity.
  - vm_compute. reflexivity.
  - vm_compute. discriminate.
Defined.

(** ** What is logged *)

Lemma insert_Raised_wal e now table_name cols values ex e' :
  _insert e now table_name cols values = Raised ex e' →
  wal e' = wal e ∧ storage e' = storage e.
Proof.
  unfold _insert. destruct (dict_get table_name (tables e)) as [table|].
  2:{ by intros [= _ <-]. }
  destruct (auto_key table cols) as [row0 table1].
  destruct (find_duplicate _ _ _); [by intros [= _ <-]|].
  destruct (update_indexes _ _ _) as [[] ix|ex' ix].
  - by destruct (append _ _ _ _ _).
  - by intros [= _ <-].
Qed.

Lemma execute_wal (e : PaymentRDBMS) (now : string) (st : statement) :
  match execute e now st with
  | Raised _ e' => wal e' = wal e
  | Done _ e' =>
      match st with
      | CreateTable table_name defs =>
          wal e' = snd (append (wal e) now "CREATE_TABLE" table_name (PColumns defs))
      | CreateIndex _ _ _ => wal e' = wal e
      | InsertInto table_name cols values =>
          ∃ table, dict_get table_name (tables e) = Some table ∧
                   wal e' = snd (append (wal e) now "INSERT" table_name
                                   (PRow (new_row table cols values)))
      end
  end.
Proof.
  destruct st as [table_name defs|index_name table_name column_name|table_name cols values];
    cbn [execute].
  - destruct (_create_table e now table_name defs) as [resp e'|ex e'] eqn:Hrun.
    + by apply create_table_parts in Hrun as (e1 & _ & _ & _ & _ & _ & ->).
    + unfold _create_table in Hrun.
      destruct (create_table_columns _ _ _ _) as [pk e1|ex1 e1] eqn:Hcols.
      { by destruct (append _ _ _ _ _). }
      injection Hrun as <- <-. by apply create_table_columns_Raised in Hcols as (_ & _ & ?).
  - unfold _create_index_sql, _create_index.
    by destruct (match dict_get table_name (tables e) with Some _ => _ | None => _ end)
      as [[tr bk]|].
  - destruct (_insert e now table_name cols values) as [resp e'|ex e'] eqn:Hrun.
    + destruct (dict_get table_name (tables e)) as [table|] eqn:Ht.
      2:{ unfold _insert in Hrun. by rewrite Ht in Hrun. }
      exists table. split; [done|].
      by destruct (insert_Done _ _ _ _ _ _ _ _ Ht Hrun) as (_ & ix & _ & _ & ->).
    + by apply insert_Raised_wal in Hrun as [? _].
Qed.

(** Of the three statements [CREATE TABLE], [CREATE INDEX] and
    [INSERT INTO]: a [CREATE TABLE] or an [INSERT INTO] that returns adds
    one entry to the log, the entry of the table and its columns, or of
    the table and the new row; one that raises adds none, and
    [CREATE INDEX] adds none whether it returns or raises. *)
Theorem statement_logged_when_returned (e : PaymentRDBMS) (now : string) (st : statement) :
  match execute e now st with
  | Raised _ e' => wal e' = wal e
  | Done _ e' =>
      match st with
      | CreateTable table_name defs =>
          wal e' = snd (append (wal e) now "CREATE_TABLE" table_name (PColumns defs))
      | CreateIndex _ _ _ => wal e' = wal e
      | InsertInto table_name cols values =>
          ∃ table, dict_get table_name (tables e) = Some table ∧
                   wal e' = snd (append (wal e) now "INSERT" table_name
                                   (PRow (new_row table cols values)))
      end
  end.
Proof. apply execute_wal. Qed.

Lemma run_snoc (e : PaymentRDBMS) (now : string) (sts : list statement) (st : statement) :
  run e now (sts ++ [st]) = state_of (execute (run e now sts) now st).
Proof. unfold run. by rewrite foldl_app. Qed.

Lemma execute_wal_cases (e : PaymentRDBMS) (now : string) (st : statement) :
  wal (state_of (execute e now st)) = wal e ∨
  ∃ op table d, wal (state_of (execute e now st)) = snd (append (wal e) now op table d).
Proof.
  pose proof (execute_wal e now st) as Hw.
  destruct (execute e now st) as [resp e'|ex e']; cbn [state_of]; [|by left].
  destruct st; [right; by eexists _, _, _|by left|].
  destruct Hw as (table & _ & ->). right. by eexists _, _, _.
Qed.

(** Over the life of an engine that starts without files the log is in
    step with its file and its entries are numbered without gaps: after
    any sequence of statements the file holds the entries in memory, the
    LSNs of the entries are [0], [1], [2] and so on in order, and the
    counter is the number of entries. *)
Theorem engine_log_is_consecutive (now : string) (sts : list statement) :
  default [] (wal_file (wal (run empty_engine now sts))) =
    entries (wal (run empty_engine now sts)) ∧
  lsn <$> entries (wal (run empty_engine now sts)) =
    Z.of_nat <$> seq 0 (length (entries (wal (run empty_engine now sts)))) ∧
  lsn_counter (wal (run empty_engine now sts)) =
    Z.of_nat (length (entries (wal (run empty_engine now sts)))).
Proof.
  induction sts as [|st sts IH] using rev_ind; [done|].
  rewrite run_snoc. destruct IH as (Hfile & Hlsns & Hcounter).
  destruct (execute_wal_cases (run empty_engine now sts) now st)
    as [->|(op & table & d & ->)]; [done|].
  destruct (append_fields (wal (run empty_engine now sts)) now op table d)
    as (-> & -> & -> & _).
  rewrite Hfile, fmap_app, Hlsns, length_app, Hcounter. cbn [length fmap list_fmap lsn].
  split; [done|]. split; [|lia].
  rewrite Nat.add_1_r, seq_S, fmap_app. done.
Qed.

(** ** Tables are never dropped *)

Lemma execute_tables_cases (e : PaymentRDBMS) (now : string) (st : statement) :
  tables (state_of (execute e now st)) = tables e ∨
  ∃ table_name table, tables (state_of (execute e now st)) =
                        dict_set table_name table (tables e).
Proof.
  destruct st as [table_name defs|index_name table_name column_name|table_name cols values];
    cbn [execute].
  - destruct (_create_table e now table_name defs) as [resp e'|ex e'] eqn:Hrun.
    + apply create_table_parts in Hrun as (e1 & _ & _ & _ & _ & _ & ->).
      right. by eexists _, _.
    + unfold _create_table in Hrun.
      destruct (create_table_columns _ _ _ _) as [pk e1|ex1 e1] eqn:Hcols.
      { by destruct (append _ _ _ _ _). }
      injection Hrun as <- <-. left.
      by apply create_table_columns_Raised in Hcols as (_ & ? & _).
  - left. unfold _create_index_sql, _create_index.
    by destruct (match dict_get table_name (tables e) with Some _ => _ | None => _ end)
      as [[tr bk]|].
  - unfold _insert. destruct (dict_get table_name (tables e)) as [table|]; [|by left].
    right. destruct (auto_key table cols) as [row0 table1].
    destruct (find_duplicate _ _ _); [by eexists _, _|].
    destruct (update_indexes _ _ _) as [[] ix|ex' ix].
    + destruct (append _ _ _ _ _). cbn. rewrite dict_set_set. by eexists _, _.
    + cbn. rewrite dict_set_set. by eexists _, _.
Qed.

(** No statement drops or renames a table: what [SHOW TABLES] lists
    before a statement it lists after it, in the same places, with at
    most one name added at the end; and over the life of an engine that
    starts without files it never lists a name twice. *)
Theorem tables_are_never_dropped (now : string) (sts : list statement)
    (e : PaymentRDBMS) (st : statement) :
  _show_tables e `prefix_of` _show_tables (state_of (execute e now st)) ∧
  NoDup (_show_tables (run empty_engine now sts)).
Proof.
  split.
  - unfold _show_tables.
    destruct (execute_tables_cases e now st) as [->|(table_name & table & ->)]; [done|].
    rewrite dict_set_keys. destruct (dict_has _ _); [done|]. by eexists.
  - induction sts as [|st' sts IH] using rev_ind; [apply NoDup_nil_2|].
    rewrite run_snoc. unfold _show_tables in *.
    destruct (execute_tables_cases (run empty_engine now sts) now st')
      as [->|(table_name & table & ->)]; [done|].
    by apply dict_set_wf.
Qed.

(** * Restarts *)

Lemma create_index_set_wal e w table_name column_name index_name :
  _create_index (set_wal e w) table_name column_name index_name =
  on_state (λ x, set_wal x w) (_create_index e table_name column_name index_name).
Proof.
  unfold _create_index. cbn [tables set_wal].
  by destruct (match dict_get table_name (tables e) with Some _ => _ | None => _ end)
    as [[tr bk]|].
Qed.

Lemma rebuild_indexes_set_wal e w table_name cols :
  rebuild_indexes (set_wal e w) table_name cols =
  on_state (λ x, set_wal x w) (rebuild_indexes e table_name cols).
Proof.
  revert e. induction cols as [|c cols IH]; intros e; [done|].
  cbn [rebuild_indexes]. rewrite create_index_set_wal.
  destruct (_create_index e table_name c None) as [[] e1|ex e1]; cbn [on_state]; [|done].
  apply IH.
Qed.

Lemma load_tables_set_wal e w (images : dict table_image) :
  load_tables (set_wal e w) images = on_state (λ x, set_wal x w) (load_tables e images).
Proof.
  revert e. induction images as [|[nm img] images IH]; intros e; [done|].
  cbn [load_tables].
  change (set_tables (set_wal e w) (dict_set nm (table_of_image nm img) (tables (set_wal e w))))
    with (set_wal (set_tables e (dict_set nm (table_of_image nm img) (tables e))) w).
  rewrite rebuild_indexes_set_wal.
  destruct (rebuild_indexes _ nm _) as [[] e1|ex e1]; cbn [on_state]; [|done].
  apply IH.
Qed.

Lemma new_engine_set_wal wal_lines snap now :
  new_engine wal_lines snap now =
  on_state (λ x, set_wal x (open_wal wal_lines now)) (new_engine None snap now).
Proof.
  unfold new_engine, _load_from_snapshot. cbn [storage].
  destruct snap as [snap|]; [|done].
  apply (load_tables_set_wal (MkEngine [] [] (open_wal None now) (Some snap))).
Qed.

Lemma create_table_columns_storage e table_name defs pk :
  storage (state_of (create_table_columns e table_name defs pk)) = storage e.
Proof.
  revert e pk. induction defs as [|c defs IH]; intros e pk; [done|].
  rewrite create_table_columns_cons. destruct (indexed c); [|apply IH].
  destruct (scanned_index _ _ _); [|done]. by rewrite IH.
Qed.

Lemma execute_storage (e : PaymentRDBMS) (now : string) (st : statement) :
  storage (state_of (execute e now st)) = storage e.
Proof.
  destruct st as [table_name defs|index_name table_name column_name|table_name cols values];
    cbn [execute].
  - unfold _create_table.
    pose proof (create_table_columns_storage e table_name defs None) as Hs.
    destruct (create_table_columns _ _ _ _) as [pk e1|ex1 e1]; [|done].
    by destruct (append _ _ _ _ _).
  - unfold _create_index_sql, _create_index.
    by destruct (match dict_get table_name (tables e) with Some _ => _ | None => _ end)
      as [[tr bk]|].
  - destruct (_insert e now table_name cols values) as [resp e'|ex e'] eqn:Hrun.
    + destruct (dict_get table_name (tables e)) as [table|] eqn:Ht.
      2:{ unfold _insert in Hrun. by rewrite Ht in Hrun. }
      by destruct (insert_Done _ _ _ _ _ _ _ _ Ht Hrun) as (_ & ix & _ & _ & ->).
    + by apply insert_Raised_wal in Hrun as [_ ?].
Qed.

Lemma run_storage (e : PaymentRDBMS) (now : string) (sts : list statement) :
  storage (run e now sts) = storage e.
Proof.
  induction sts as [|st sts IH] using rev_ind; [done|].
  by rewrite run_snoc, execute_storage.
Qed.

(** The log is read at a restart but never replayed: whatever statements
    an engine has executed since its last snapshot, the process that
    starts over the files it leaves has the tables and the indexes that a
    process starting over that snapshot and no log has; without a
    snapshot it has none. *)
Theorem restart_restores_snapshot_only (e : PaymentRDBMS) (now now' : string)
    (sts : list statement) :
  tables (state_of (new_engine (wal_file (wal (run e now sts)))
                      (storage (run e now sts)) now')) =
    tables (state_of (new_engine None (storage e) now')) ∧
  indexes (state_of (new_engine (wal_file (wal (run e now sts)))
                       (storage (run e now sts)) now')) =
    indexes (state_of (new_engine None (storage e) now')) ∧
  (storage e = None →
   new_engine (wal_file (wal (run e now sts))) (storage (run e now sts)) now' =
     Done tt {| tables := []; indexes := [];
                wal := open_wal (wal_file (wal (run e now sts))) now';
                storage := None |}).
Proof.
  rewrite run_storage, new_engine_set_wal.
  split; [|split].
  - by destruct (new_engine None (storage e) now').
  - by destruct (new_engine None (storage e) now').
  - by intros ->.
Qed.

Lemma restart_restores_snapshot_only_witness :
  new_engine (wal_file (wal sample_engine)) (storage sample_engine) "10:00" =
    Done tt {| tables := []; indexes := [];
               wal := open_wal (wal_file (wal sample_engine)) "10:00";
               storage := None |} ∧
  length (entries (open_wal (wal_file (wal sample_engine)) "10:00")) = 5.
Proof.
  destruct (restart_restores_snapshot_only empty_engine "09:01" "10:00" four_customers)
    as (_ & _ & Hnone).
  split; [exact (Hnone eq_refl)|]. vm_compute. reflexivity.
Defined.

(** ** The indexes a restart rebuilds *)

Lemma dict_set_Forall {A : Type} (P : string * A → Prop) (d : dict A) k v :
  P (k, v) → Forall P d → Forall P (dict_set k v d).
Proof.
  intros Hkv. induction 1 as [|[k0 v0] d H0 Hd IH]; cbn [dict_set].
  - by repeat constructor.
  - destruct (String.eqb k0 k); constructor; done.
Qed.

Lemma dict_get_Forall {A : Type} (P : string * A → Prop) (d : dict A) k v :
  Forall P d → dict_get k d = Some v → P (k, v).
Proof.
  induction 1 as [|[k0 v0] d H0 Hd IH]; cbn [dict_get]; [done|].
  destruct (String.eqb k0 k) eqn:E; [|done].
  apply String.eqb_eq in E as ->. by intros [= <-].
Qed.

Lemma rebuild_indexes_default e table_name cols :
  Forall (λ p, p.1 = default_index_key (idx_table p.2) (idx_column p.2)) (indexes e) →
  Forall (λ p, p.1 = default_index_key (idx_table p.2) (idx_column p.2))
         (indexes (state_of (rebuild_indexes e table_name cols))).
Proof.
  revert e. induction cols as [|c cols IH]; intros e He; [done|].
  cbn [rebuild_indexes]. rewrite create_index_default.
  destruct (scanned_index _ _ _) as [ix|] eqn:Hs; [|done].
  apply IH. cbn [indexes set_indexes]. apply dict_set_Forall; [|done].
  unfold scanned_index in Hs.
  destruct (dict_get table_name (tables e)); [|by injection Hs as <-].
  destruct (scan_rows _ _ _ _) as [[tr bk]|]; [|done]. by injection Hs as <-.
Qed.

Lemma load_tables_default e (images : dict table_image) :
  Forall (λ p, p.1 = default_index_key (idx_table p.2) (idx_column p.2)) (indexes e) →
  Forall (λ p, p.1 = default_index_key (idx_table p.2) (idx_column p.2))
         (indexes (state_of (load_tables e images))).
Proof.
  revert e. induction images as [|[nm img] images IH]; intros e He; [done|].
  cbn [load_tables].
  pose proof (rebuild_indexes_default
                (set_tables e (dict_set nm (table_of_image nm img) (tables e))) nm
                (index_columns (table_of_image nm img)) He) as Hre.
  destruct (rebuild_indexes _ nm _) as [[] e1|ex e1]; [|done].
  by apply IH.
Qed.

(** The indexes are not in the snapshot; a restart builds them again for
    the primary key and the unique columns only.  Every index of the
    process that starts is registered under [table_column_idx] for its
    table and column, so an index that [CREATE INDEX] had registered
    under another name is gone. *)
Theorem restart_drops_named_indexes (wal_lines : option (list WALEntry))
    (snap : option snapshot) (now : string) (key : string) (idx : Index) :
  dict_get key (indexes (state_of (new_engine wal_lines snap now))) = Some idx →
  key = default_index_key (idx_table idx) (idx_column idx).
Proof.
  intros Hget. unfold new_engine, _load_from_snapshot in Hget. cbn [storage] in Hget.
  destruct snap as [snap|]; [|done].
  eapply (dict_get_Forall (λ p, p.1 = default_index_key (idx_table p.2) (idx_column p.2)));
    [|exact Hget].
  by apply load_tables_default.
Qed.

Lemma restart_drops_named_indexes_witness :
  ∃ idx,
    dict_get "customers_id_idx"
      (indexes (state_of (new_engine None
         (Some (fst (create_snapshot
                       (state_of (_create_index_sql sample_engine "idx_email" "customers"
                                    "email")) "09:30"))) "10:00"))) = Some idx ∧
    "customers_id_idx" = default_index_key (idx_table idx) (idx_column idx).
Proof.
  destruct (dict_get "customers_id_idx" _) as [idx|] eqn:Hget.
  - exists idx. split; [reflexivity|].
    exact (restart_drops_named_indexes _ _ _ _ _ Hget).
  - exfalso. revert Hget. vm_compute. discriminate.
Defined.

(** * [_parse_value] *)

Lemma string_app_length (s t : string) :
  String.length (s ++ t) = String.length s + String.length t.
Proof. induction s as [|a s IH]; [done|]. rewrite string_app_cons. cbn. by rewrite IH. Qed.

Lemma substring_prefix (s t : string) : String.substring 0 (String.length s) (s ++ t) = s.
Proof.
  induction s as [|a s IH]; [by destruct t|].
  rewrite string_app_cons. cbn. by rewrite IH.
Qed.

Lemma ends_with_snoc (c : Ascii.ascii) (s : string) :
  ends_with c (s ++ String c EmptyString) = true.
Proof.
  induction s as [|a s IH]; [cbn; apply Ascii.eqb_refl|].
  rewrite string_app_cons. cbn [ends_with].
  destruct s as [|b s]; [exact IH|]. rewrite string_app_cons in *. exact IH.
Qed.

Lemma strip_ends_quoted (q : Ascii.ascii) (s : string) :
  strip_ends (String q (s ++ String q EmptyString)) = s.
Proof.
  unfold strip_ends. cbn [String.length]. rewrite string_app_length. cbn [String.length].
  replace (S (String.length s + 1) - 2) with (String.length s) by lia.
  cbn [String.substring]. apply substring_prefix.
Qed.

Lemma holds_text (r : row) (col s : string) :
  holds r col (VText s) = true ↔ dict_get col r = Some (VText s).
Proof.
  unfold holds. destruct (dict_get col r) as [[z|f|s']|]; cbn; try (split; done).
  rewrite String.eqb_eq. split; [by intros ->|by intros [= ->]].
Qed.

(** A value between single quotes, or between double quotes, is the text
    between them, whatever that text is and whatever the conversions of
    numbers would make of it; and a [WHERE] clause that compares with it
    by a scan finds the rows that hold that text under the column, and no
    row that holds a number there. *)
Theorem quoted_value_is_text (py_int : string → option Z)
    (py_float : string → option spec_float) (s : string) (rs : list row) (col : string) :
  _parse_value py_int py_float (String single_quote (s ++ String single_quote EmptyString))
    = VText s ∧
  _parse_value py_int py_float (String double_quote (s ++ String double_quote EmptyString))
    = VText s ∧
  ∀ r, r ∈ table_scan rs col
             (_parse_value py_int py_float
                (String single_quote (s ++ String single_quote EmptyString))) ↔
       r ∈ rs ∧ dict_get col r = Some (VText s).
Proof.
  assert (∀ q, q = single_quote ∨ q = double_quote →
               _parse_value py_int py_float (String q (s ++ String q EmptyString)) = VText s)
    as Hq.
  { intros q Hcases. unfold _parse_value. cbn [starts_with].
    pose proof (ends_with_snoc q s) as Hend.
    assert (ends_with q (String q (s ++ String q EmptyString)) = true) as Hend'.
    { cbn [ends_with]. destruct s as [|b s]; [apply Ascii.eqb_refl|].
      rewrite string_app_cons in *. exact Hend. }
    destruct Hcases as [-> | ->].
    - rewrite Ascii.eqb_refl, Hend'. cbn [andb]. by rewrite strip_ends_quoted.
    - replace (Ascii.eqb double_quote single_quote) with false by reflexivity.
      cbn [andb]. rewrite Ascii.eqb_refl, Hend'. cbn [andb]. by rewrite strip_ends_quoted. }
  split; [apply Hq; by left|]. split; [apply Hq; by right|].
  intros r. rewrite Hq by by left. unfold table_scan.
  rewrite list_elem_of_filter, holds_text. tauto.
Qed.

Lemma quoted_value_is_text_witness :
  [("n", VText "42")] ∈
    table_scan [numbered 42 "x"; [("n", VText "42")]] "n"
      (_parse_value (λ _, Some 42%Z) (λ _, None)
         (String single_quote ("42" ++ String single_quote EmptyString))).
Proof.
  destruct (quoted_value_is_text (λ _, Some 42%Z) (λ _, None) "42"
              [numbered 42 "x"; [("n", VText "42")]] "n") as (_ & _ & Hscan).
  apply Hscan. split; [|reflexivity].
  apply list_elem_of_lookup. exists 1. reflexivity.
Defined.

(** * The rows an index answers with *)

(** ** Equality of scalars *)

Lemma pow2_shift (m1 m2 e1 e2 E : Z) :
  (E ≤ e1)%Z → (E ≤ e2)%Z →
  (m1 * 2 ^ (e1 - Z.min e1 e2) = m2 * 2 ^ (e2 - Z.min e1 e2) ↔
   m1 * 2 ^ (e1 - E) = m2 * 2 ^ (e2 - E))%Z.
Proof.
  intros H1 H2.
  replace (e1 - E)%Z with ((e1 - Z.min e1 e2) + (Z.min e1 e2 - E))%Z by lia.
  replace (e2 - E)%Z with ((e2 - Z.min e1 e2) + (Z.min e1 e2 - E))%Z by lia.
  rewrite !Z.pow_add_r by lia. rewrite !Z.mul_assoc.
  assert (0 < 2 ^ (Z.min e1 e2 - E))%Z as Hpos by (apply Z.pow_pos_nonneg; lia).
  split; [by intros ->|]. intros Heq. by apply Z.mul_cancel_r in Heq; [|lia].
Qed.

Lemma number_eq_sym (a b : number) :
  number_compare a b = Some Eq → number_compare b a = Some Eq.
Proof.
  destruct a as [| |m1 e1|], b as [| |m2 e2|]; cbn; try done.
  intros [= Heq]. f_equal. apply Z.compare_eq_iff in Heq. apply Z.compare_eq_iff.
  by rewrite (Z.min_comm e2 e1).
Qed.

Lemma number_eq_trans (a b c : number) :
  number_compare a b = Some Eq → number_compare b c = Some Eq →
  number_compare a c = Some Eq.
Proof.
  destruct a as [| |m1 e1|], b as [| |m2 e2|], c as [| |m3 e3|]; cbn; try done.
  intros [= H12] [= H23]. f_equal.
  apply Z.compare_eq_iff in H12, H23. apply Z.compare_eq_iff.
  set (E := Z.min e1 (Z.min e2 e3)).
  apply (pow2_shift m1 m2 e1 e2 E) in H12; [|lia..].
  apply (pow2_shift m2 m3 e2 e3 E) in H23; [|lia..].
  apply (pow2_shift m1 m3 e1 e3 E); [lia..|]. congruence.
Qed.

Lemma scalar_eq_number (a b : scalar) :
  scalar_eq a b = true ↔
  (∃ s, a = VText s ∧ b = VText s) ∨
  (∃ x y, number_of a = Some x ∧ number_of b = Some y ∧ number_compare x y = Some Eq).
Proof.
  split.
  - assert (∀ a' b' : scalar,
              match number_of a', number_of b' with
              | Some x, Some y => match number_compare x y with Some Eq => true | _ => false end
              | _, _ => false
              end = true →
              ∃ x y, number_of a' = Some x ∧ number_of b' = Some y ∧
                     number_compare x y = Some Eq) as Hnum.
    { intros a' b'. destruct (number_of a') as [x|]; [|done].
      destruct (number_of b') as [y|]; [|done].
      destruct (number_compare x y) as [[]|] eqn:Hc; try done. intros _. by exists x, y. }
    destruct a as [z|f|s], b as [z'|f'|s']; cbn [scalar_eq]; try done;
      try (intros Heq; right; by apply Hnum).
    intros ->%String.eqb_eq. left. by eexists.
  - intros [(s & -> & ->)|(x & y & Hx & Hy & Hc)].
    + cbn. apply String.eqb_refl.
    + destruct a as [z|f|s], b as [z'|f'|s']; cbn [scalar_eq]; try done;
        by rewrite Hx, Hy, Hc.
Qed.

Lemma scalar_eq_sym (a b : scalar) : scalar_eq a b = true → scalar_eq b a = true.
Proof.
  rewrite !scalar_eq_number. intros [(s & -> & ->)|(x & y & Hx & Hy & Hc)].
  - left. by eexists.
  - right. exists y, x. by auto using number_eq_sym.
Qed.

Lemma scalar_eq_trans (a b c : scalar) :
  scalar_eq a b = true → scalar_eq b c = true → scalar_eq a c = true.
Proof.
  rewrite !scalar_eq_number.
  intros [(s & -> & ->)|(x & y & Hx & Hy & Hc)] [(s' & Hb & ->)|(y' & z & Hy' & Hz & Hc')].
  - left. injection Hb as ->. by eexists.
  - done.
  - subst b. done.
  - right. rewrite Hy in Hy'. injection Hy' as <-. exists x, z.
    by eauto using number_eq_trans.
Qed.

(** ** The pairs of a tree, whatever the order of its keys *)

Section AnyKeys.
Context {K V : Type} `{PyOrd K}.
Implicit Types (n c : BPlusTreeNode K V) (k : K) (v : V).

Local Abbreviation node := (BPlusTreeNode K V).

Lemma pairs_leaf (l : leaf K V) : pairs (LeafNode l) = leaf_pairs l.
Proof. unfold pairs. cbn. by rewrite app_nil_r. Qed.

Lemma leaves_paired_inner keys (children : list node) :
  leaves_paired (InnerNode keys children) ↔ Forall leaves_paired children.
Proof.
  unfold leaves_paired. cbn [leaves]. induction children as [|c cs IH]; cbn.
  - split; constructor.
  - rewrite Forall_app, Forall_cons, IH. done.
Qed.

Lemma descend_leaf n k (L : leaf K V) : descend n k = Ok L → L ∈ leaves n.
Proof.
  induction n as [l|keys children IH] using node_induction.
  { cbn. intros [= ->]. by left. }
  rewrite descend_inner.
  intros (i & _ & (c & Hc & Hd)%bind_Ok)%bind_Ok.
  unfold py_get in Hc. destruct (children !! i) as [c'|] eqn:Hi; [|done].
  injection Hc as ->. cbn [leaves]. apply elem_of_concat. exists (leaves c).
  rewrite Forall_forall in IH. split; [by eapply IH, Hd; eapply list_elem_of_lookup_2|].
  apply list_elem_of_In, in_map, list_elem_of_In. by eapply list_elem_of_lookup_2.
Qed.

Lemma py_index_eq (a : list K) k i :
  py_index a k = Some i → ∃ y, a !! i = Some y ∧ py_eq y k = true.
Proof.
  revert i. induction a as [|y a IH]; intros i; cbn; [done|].
  destruct (py_eq y k) eqn:Heq.
  - intros [= <-]. by exists y.
  - destruct (py_index a k) as [j|]; cbn; [|done]. intros [= <-]. by apply IH.
Qed.

(** What [search] returns is the value of a key of the tree that [==]
    finds equal to the key looked up. *)
Lemma search_found (t : BPlusTree K V) k v :
  search t k = Ok (Some v) → ∃ k', (k', v) ∈ pairs (root t) ∧ py_eq k' k = true.
Proof.
  unfold search. intros (L & HL%descend_leaf & Hfound)%bind_Ok.
  destruct (py_index (leaf_keys L) k) as [idx|] eqn:Hidx; [|done].
  apply py_index_eq in Hidx as (k' & Hk' & Heq).
  apply bind_Ok in Hfound as (v' & Hv & [= ->]).
  unfold py_get in Hv. destruct (leaf_values L !! idx) as [v''|] eqn:Hval; [|done].
  injection Hv as ->. exists k'. split; [|done].
  unfold pairs. apply list_elem_of_bind. exists L. split; [|done].
  apply list_elem_of_lookup. exists idx. unfold leaf_pairs.
  by rewrite lookup_zip_with, Hk', Hval.
Qed.

Lemma zip_take_drop (m : nat) (ks : list K) (vs : list V) :
  zip (take m ks) (take m vs) ++ zip (drop m ks) (drop m vs) = zip ks vs.
Proof.
  revert ks vs. induction m as [|m IH]; intros [|k ks] [|v vs]; cbn;
    rewrite ?zip_with_nil_r, ?IH; done.
Qed.

Lemma zip_py_insert (i : nat) k v (ks : list K) (vs : list V) :
  length ks = length vs →
  zip (py_insert i k ks) (py_insert i v vs) ⊆ (k, v) :: zip ks vs.
Proof.
  intros Hlen. unfold py_insert. rewrite zip_with_app.
  2:{ by rewrite !length_take, Hlen. }
  cbn [zip_with]. rewrite <- (zip_take_drop i ks vs).
  intros p Hp. rewrite elem_of_cons, elem_of_app.
  rewrite elem_of_app, elem_of_cons in Hp. tauto.
Qed.

(** A child replaced by nodes that hold no other pairs than it did,
    apart from those of [X]. *)
Lemma replace_children (X : list (K * V)) keys keys' (A B D : list node) c :
  leaves_paired (InnerNode keys (A ++ c :: B)) →
  Forall leaves_paired D →
  concat (map pairs D) ⊆ X ++ pairs c →
  leaves_paired (InnerNode keys' (A ++ D ++ B)) ∧
  pairs (InnerNode keys' (A ++ D ++ B)) ⊆ X ++ pairs (InnerNode keys (A ++ c :: B)).
Proof.
  rewrite !leaves_paired_inner, !pairs_inner, !Forall_app, Forall_cons.
  intros (HA & Hc & HB) HD Hsub. split; [done|].
  rewrite !map_app, !concat_app. cbn [map concat].
  intros p. rewrite !elem_of_app. intros [Hp|[Hp|Hp]]; [tauto| |tauto].
  apply Hsub in Hp. rewrite elem_of_app in Hp. tauto.
Qed.

Lemma inner_of_child n i c : node_children n !! i = Some c →
  ∃ keys A B, n = InnerNode keys (A ++ c :: B) ∧ length A = i.
Proof.
  destruct n as [l|keys children]; cbn [node_children]; [done|].
  intros Hc. exists keys, (take i children), (drop (S i) children).
  split; [by rewrite take_drop_middle|].
  rewrite length_take_le; [done|]. apply lookup_lt_Some in Hc. lia.
Qed.
End AnyKeys.

Section AnyInsert.
Context {K V : Type} `{PyOrd K}.
Implicit Types (n c : BPlusTreeNode K V) (k : K) (v : V).

Local Abbreviation node := (BPlusTreeNode K V).

Lemma leaves_paired_leaf (l : leaf K V) :
  leaves_paired (LeafNode l) ↔ length (leaf_keys l) = length (leaf_values l).
Proof. unfold leaves_paired. cbn. by rewrite Forall_singleton. Qed.

Lemma split_child_any (parent : node) (index fr : nat) :
  leaves_paired parent →
  leaves_paired (state_of (_split_child parent index fr)).1 ∧
  pairs (state_of (_split_child parent index fr)).1 ⊆ pairs parent.
Proof.
  intros Hp. unfold _split_child.
  destruct (node_children parent !! index) as [c|] eqn:Hc; [|done].
  destruct (inner_of_child _ _ _ Hc) as (keys & A & B & -> & <-).
  cbn [node_children node_keys].
  pose proof Hp as Hc'. rewrite leaves_paired_inner, Forall_app, Forall_cons in Hc'.
  destruct Hc' as (_ & Hc' & _).
  destruct c as [full|fkeys fchildren].
  - apply leaves_paired_leaf in Hc'. rewrite insert_middle. cbn [leaf_keys].
    assert (Forall leaves_paired
              [LeafNode (Leaf (leaf_id full) (take mid (leaf_keys full))
                              (take mid (leaf_values full)) (Some fr));
               LeafNode (Leaf fr (drop mid (leaf_keys full))
                              (drop mid (leaf_values full)) (leaf_next full))]) as Hhalves.
    { rewrite !Forall_cons, !leaves_paired_leaf. cbn [leaf_keys leaf_values].
      rewrite !length_take, !length_drop, Hc'. by repeat split. }
    destruct (drop mid (leaf_keys full) !! 0) as [k0|]; cbn [state_of fst].
    + rewrite py_insert_app_S.
      apply (replace_children [] keys _ A B _ (LeafNode full) Hp Hhalves).
      cbn [map concat app]. rewrite !pairs_leaf, app_nil_r. unfold leaf_pairs.
      cbn [leaf_keys leaf_values]. by rewrite zip_take_drop.
    + apply Forall_cons in Hhalves as [Hleft _].
      apply (replace_children [] keys _ A B [_] (LeafNode full) Hp);
        [by apply Forall_singleton|].
      cbn [map concat app]. rewrite !pairs_leaf, app_nil_r. unfold leaf_pairs.
      cbn [leaf_keys leaf_values]. rewrite <- (zip_take_drop mid (leaf_keys full)).
      intros p Hp'. apply elem_of_app. by left.
  - rewrite leaves_paired_inner in Hc'. rewrite insert_middle.
    assert (Forall leaves_paired (take mid fchildren) ∧
            Forall leaves_paired (drop mid fchildren)) as [Htake Hdrop].
    { by rewrite <- (take_drop mid fchildren), Forall_app in Hc'. }
    destruct (py_pop (take mid fkeys)) as [[fkeys' promoted_key]|e];
      cbn [state_of fst].
    + rewrite insert_middle, py_insert_app_S.
      apply (replace_children [] keys _ A B [_; _] (InnerNode fkeys fchildren) Hp).
      { rewrite !Forall_cons, !leaves_paired_inner. by repeat split. }
      cbn [map concat app]. rewrite !pairs_inner, app_nil_r.
      by rewrite <- concat_app, <- map_app, take_drop.
    + apply (replace_children [] keys _ A B [_] (InnerNode fkeys fchildren) Hp).
      { rewrite !Forall_cons, !leaves_paired_inner. by repeat split. }
      cbn [map concat app]. rewrite !pairs_inner, app_nil_r.
      rewrite <- (take_drop mid fchildren) at 2. rewrite map_app, concat_app.
      intros p Hp'. apply elem_of_app. by left.
Qed.

Lemma into_child_any (X : list (K * V))
    (f : node → nat → outcome (node * nat) unit) (n : node) (fr j : nat) :
  leaves_paired n →
  (∀ c fr', leaves_paired c →
            leaves_paired (state_of (f c fr')).1 ∧
            pairs (state_of (f c fr')).1 ⊆ X ++ pairs c) →
  leaves_paired (state_of (into_child f n fr j)).1 ∧
  pairs (state_of (into_child f n fr j)).1 ⊆ X ++ pairs n.
Proof.
  intros Hn Hf. unfold into_child.
  destruct (node_children n !! j) as [cj|] eqn:Hc.
  2:{ split; [done|]. intros p Hp. apply elem_of_app. by right. }
  destruct (inner_of_child _ _ _ Hc) as (keys & A & B & -> & <-).
  cbn [node_children node_keys].
  pose proof Hn as Hc'. rewrite leaves_paired_inner, Forall_app, Forall_cons in Hc'.
  destruct Hc' as (_ & Hc' & _). destruct (Hf cj fr Hc') as [Hpaired Hsub].
  assert (∀ cj', leaves_paired cj' → pairs cj' ⊆ X ++ pairs cj →
            leaves_paired (InnerNode keys (<[length A := cj']> (A ++ cj :: B))) ∧
            pairs (InnerNode keys (<[length A := cj']> (A ++ cj :: B))) ⊆
              X ++ pairs (InnerNode keys (A ++ cj :: B))) as Hput.
  { intros cj' H1 H2. rewrite insert_middle.
    apply (replace_children X keys keys A B [cj'] cj Hn); [by apply Forall_singleton|].
    cbn [map concat]. by rewrite app_nil_r. }
  destruct (f cj fr) as [[] [cj' fr']|e [cj' fr']]; cbn [state_of fst] in *; by apply Hput.
Qed.

Lemma insert_non_full_any fuel (n : node) (fr : nat) k v :
  leaves_paired n →
  leaves_paired (state_of (_insert_non_full fuel n fr k v)).1 ∧
  pairs (state_of (_insert_non_full fuel n fr k v)).1 ⊆ [(k, v)] ++ pairs n.
Proof.
  revert n fr. induction fuel as [|fuel IH]; intros n fr Hn.
  { split; [done|]. intros p Hp. by right. }
  assert (leaves_paired n ∧ pairs n ⊆ [(k, v)] ++ pairs n) as Hsame.
  { split; [done|]. intros p Hp. by right. }
  cbn [_insert_non_full]. destruct n as [l|keys children].
  - destruct (bisect_left (leaf_keys l) k) as [i|e]; [|done].
    cbn [state_of fst]. apply leaves_paired_leaf in Hn. split.
    + apply leaves_paired_leaf. cbn [leaf_keys leaf_values]. unfold py_insert.
      rewrite !length_app. cbn [length]. by rewrite !length_take, !length_drop, Hn.
    + rewrite !pairs_leaf. unfold leaf_pairs. cbn [leaf_keys leaf_values app].
      by apply zip_py_insert.
  - destruct (bisect_left keys k) as [i|e]; [|done].
    destruct (children !! i) as [c|]; [|done].
    destruct (is_full c).
    + pose proof (split_child_any (InnerNode keys children) i fr Hn) as [Hp1 Hs1].
      destruct (_split_child (InnerNode keys children) i fr) as [[] [n1 fr1]|e [n1 fr1]];
        cbn [state_of fst] in *.
      2:{ split; [done|]. intros p Hp. right. by apply Hs1. }
      assert (leaves_paired n1 ∧ pairs n1 ⊆ [(k, v)] ++ pairs (InnerNode keys children))
        as Hsame1.
      { split; [done|]. intros p Hp. right. by apply Hs1. }
      destruct (py_get (node_keys n1) i ≫= py_gt k) as [b|e]; [|done].
      destruct (into_child_any [(k, v)] (λ cj fr1, _insert_non_full fuel cj fr1 k v)
                  n1 fr1 (if b then i + 1 else i) Hp1) as [Hp2 Hs2].
      { intros c' fr' Hc'. by apply IH. }
      split; [done|]. intros p Hp. apply Hs2 in Hp.
      apply elem_of_app in Hp as [Hp|Hp]; [by apply elem_of_app; left|].
      apply elem_of_app. right. by apply Hs1.
    + apply (into_child_any [(k, v)] (λ cj fr1, _insert_non_full fuel cj fr1 k v)); [done|].
      intros c' fr' Hc'. by apply IH.
Qed.

Lemma insert_any (t : BPlusTree K V) k v :
  leaves_paired (root t) →
  leaves_paired (root (state_of (insert t k v))) ∧
  pairs (root (state_of (insert t k v))) ⊆ (k, v) :: pairs (root t).
Proof.
  intros Ht.
  assert (∀ r fr, leaves_paired r → pairs r ⊆ pairs (root t) →
            leaves_paired (root (state_of (insert_at_root r fr k v))) ∧
            pairs (root (state_of (insert_at_root r fr k v))) ⊆ (k, v) :: pairs (root t))
    as Hroot.
  { intros r fr Hr Hsub. unfold insert_at_root.
    pose proof (insert_non_full_any (S (height r)) r fr k v Hr) as [Hp Hs].
    destruct (_insert_non_full _ r fr k v) as [[] [r' fr']|e [r' fr']];
      cbn [state_of fst root] in *; (split; [done|]);
      intros p [Hp'|Hp']%Hs%elem_of_app; [|right; by apply Hsub| |right; by apply Hsub];
      apply list_elem_of_singleton in Hp' as ->; by left. }
  unfold insert. destruct (is_full (root t)); [|by apply Hroot].
  assert (leaves_paired (InnerNode [] [root t])) as Hnew.
  { apply leaves_paired_inner. by constructor. }
  pose proof (split_child_any (InnerNode [] [root t]) 0 (fresh t) Hnew) as [Hp Hs].
  rewrite pairs_inner in Hs. cbn [map concat] in Hs. rewrite app_nil_r in Hs.
  destruct (_split_child _ 0 (fresh t)) as [[] [new_root fr]|e [new_root fr]];
    cbn [state_of fst root] in *; [by apply Hroot|].
  destruct (node_children new_root !! 0) as [c0|] eqn:Hc0; cbn [default].
  2:{ split; [done|]. intros p Hp'. by right. }
  destruct (inner_of_child _ _ _ Hc0) as (keys & A & B & -> & HA).
  apply leaves_paired_inner in Hp. rewrite Forall_app, Forall_cons in Hp.
  split; [by destruct Hp as (_ & ? & _)|].
  intros p Hp'. right. apply Hs. rewrite pairs_inner, map_app, concat_app.
  apply elem_of_app. right. cbn [map concat]. apply elem_of_app. by left.
Qed.
End AnyInsert.

(** ** The buckets of an index *)

Lemma bucket_alter (bk : list (list row)) (existing : nat) (r : row) (ref : nat) :
  existing < length bk →
  bucket (alter (λ b, b ++ [r]) existing bk) ref =
  if decide (ref = existing) then bucket bk ref ++ [r] else bucket bk ref.
Proof.
  intros Hlt. unfold bucket. case_decide as Href.
  - subst ref. rewrite list_lookup_alter_eq.
    destruct (lookup_lt_is_Some_2 bk existing Hlt) as [b ->]. done.
  - by rewrite list_lookup_alter_ne.
Qed.

Lemma bucket_snoc_empty (bk : list (list row)) (ref : nat) :
  bucket (bk ++ [[]]) ref = bucket bk ref.
Proof.
  unfold bucket. destruct (decide (ref < length bk)) as [Hl|Hl].
  - by rewrite lookup_app_l.
  - rewrite lookup_app_r, (lookup_ge_None_2 bk) by lia.
    by destruct (ref - length bk) as [|[|]].
Qed.

Lemma bucket_beyond (bk : list (list row)) (ref : nat) :
  length bk ≤ ref → bucket bk ref = [].
Proof. intros Hle. unfold bucket. by rewrite lookup_ge_None_2. Qed.

(** The bucket [add_row] appends the row to: the one [search] found, if
    it holds a row, and else a new one. *)
Lemma add_row_state tr bk value r :
  state_of (add_row tr bk value r) = (tr, bk) ∨
  ∃ existing bk',
    state_of (add_row tr bk value r) = (state_of (insert tr value existing), bk') ∧
    existing < length bk' ∧ length bk ≤ length bk' ∧
    (∀ ref, bucket bk' ref =
            if decide (ref = existing) then bucket bk ref ++ [r] else bucket bk ref) ∧
    ((search tr value = Ok (Some existing) ∧ bucket bk existing ≠ []) ∨
     existing = length bk).
Proof.
  unfold add_row. destruct (search tr value) as [found|e] eqn:Hs; [|by left]. right.
  assert (∃ existing bk1,
            match found with
            | Some ref => match bucket bk ref with
                          | [] => (length bk, bk ++ [[]])
                          | _ :: _ => (ref, bk)
                          end
            | None => (length bk, bk ++ [[]])
            end = (existing, bk1) ∧
            existing < length bk1 ∧ length bk ≤ length bk1 ∧
            (∀ ref, bucket bk1 ref = bucket bk ref) ∧
            ((found = Some existing ∧ bucket bk existing ≠ []) ∨ existing = length bk))
    as (existing & bk1 & -> & Hlt & Hle & Hsame & Hcase).
  { assert (length bk < length (bk ++ [[]])) as Hnew by (rewrite length_app; cbn; lia).
    destruct found as [ref|].
    - destruct (bucket bk ref) as [|r1 b] eqn:Hb.
      + eexists _, _. split; [done|].
        split; [done|]. split; [lia|]. split; [apply bucket_snoc_empty|by right].
      + eexists _, _. split; [done|].
        split; [|split; [done|split; [done|left; by rewrite Hb]]].
        unfold bucket in Hb. destruct (bk !! ref) eqn:Hl; [|done].
        by eapply lookup_lt_Some.
    - eexists _, _. split; [done|].
      split; [done|]. split; [lia|]. split; [apply bucket_snoc_empty|by right]. }
  exists existing, (alter (λ b, b ++ [r]) existing bk1).
  split; [by destruct (insert tr value existing) as [[] tr'|e tr']|].
  rewrite length_alter. split; [done|]. split; [done|]. split.
  - intros ref. rewrite bucket_alter by done. by rewrite Hsame.
  - destruct Hcase as [[-> Hne]| ->]; [by left|by right].
Qed.

Lemma filed_under_eq col k r k' :
  filed_under col k r → scalar_eq k k' = true → filed_under col k' r.
Proof.
  intros (v & Hv & Hk) Heq. exists v. split; [done|]. right.
  destruct Hk as [->|Hk]; [done|]. by eapply scalar_eq_trans.
Qed.

Lemma add_row_ok col tr bk value r :
  index_ok col tr bk → dict_get col r = Some value →
  index_ok col (state_of (add_row tr bk value r)).1 (state_of (add_row tr bk value r)).2.
Proof.
  intros [Hpaired Hrefs Hrows] Hv.
  destruct (add_row_state tr bk value r)
    as [->|(existing & bk' & -> & Hlt & Hle & Hbucket & Hcase)]; [done|].
  cbn [fst snd]. destruct (insert_any tr value existing Hpaired) as [Hpaired' Hsub].
  assert (filed_under col value r) as Hnew by (exists value; by split; [|left]).
  split; [done| |].
  - intros k ref [[= -> ->]|Hold]%Hsub%elem_of_cons; [done|].
    apply Hrefs in Hold. lia.
  - intros k ref r' Hpair Hr'. rewrite Hbucket in Hr'.
    apply Hsub, elem_of_cons in Hpair.
    case_decide as Href.
    2:{ destruct Hpair as [[= -> ->]|Hold]; [done|]. by eapply Hrows. }
    subst ref. destruct Hcase as [[Hfound Hne]| ->].
    2:{ rewrite (bucket_beyond bk (length bk)) in Hr' by done.
        apply list_elem_of_singleton in Hr' as ->.
        destruct Hpair as [[= ->]|Hold]; [done|]. apply Hrefs in Hold. lia. }
    apply search_found in Hfound as (k1 & Hk1 & Heq1). cbn in Heq1.
    assert (scalar_eq value k1 = true) as Heq1' by by apply scalar_eq_sym.
    apply elem_of_app in Hr' as [Hr'| ->%list_elem_of_singleton].
    + destruct Hpair as [[= ->]|Hold]; [|by eapply Hrows].
      eapply filed_under_eq; [by eapply (Hrows k1)|done].
    + destruct Hpair as [[= ->]|Hold]; [done|].
      destruct (bucket bk existing) as [|r1 b] eqn:Hb; [done|].
      assert (r1 ∈ bucket bk existing) as Hr1 by (rewrite Hb; by left).
      pose proof (Hrows k1 existing r1 Hk1 Hr1) as (v1 & Hv1 & Hk1').
      pose proof (Hrows k existing r1 Hold Hr1) as (v1' & Hv1' & Hk').
      rewrite Hv1 in Hv1'. injection Hv1' as <-.
      assert (scalar_eq v1 k1 = true) as Hv1k1.
      { destruct Hk1' as [->|?]; [by eapply scalar_eq_trans|done]. }
      assert (scalar_eq value v1 = true) as Hvalue.
      { eapply scalar_eq_trans; [done|]. by apply scalar_eq_sym. }
      exists value. split; [done|]. right.
      destruct Hk' as [<-|Hk']; [done|]. by eapply scalar_eq_trans.
Qed.

Lemma index_ok_empty col : index_ok col empty_tree [].
Proof.
  split.
  - unfold leaves_paired. cbn. by constructor.
  - by intros k ref ?%elem_of_nil.
  - by intros k ref r ?%elem_of_nil.
Qed.

Lemma scan_rows_ok col tr bk rs tr' bk' :
  index_ok col tr bk → scan_rows tr bk col rs = Ok (tr', bk') → index_ok col tr' bk'.
Proof.
  revert tr bk. induction rs as [|r rs IH]; intros tr bk Hok; cbn.
  { by intros [= <- <-]. }
  destruct (dict_get col r) as [value|] eqn:Hv; [|by apply IH].
  pose proof (add_row_ok col tr bk value r Hok Hv) as Hok'.
  destruct (add_row tr bk value r) as [[] [tr1 bk1]|]; [|done]. by apply IH.
Qed.

Lemma create_index_ok e table_name column_name index_name :
  Forall (λ p, index_ok (idx_column p.2) (tree p.2) (buckets p.2)) (indexes e) →
  Forall (λ p, index_ok (idx_column p.2) (tree p.2) (buckets p.2))
         (indexes (state_of (_create_index e table_name column_name index_name))).
Proof.
  intros He. unfold _create_index.
  destruct (match dict_get table_name (tables e) with Some _ => _ | None => _ end)
    as [[tr bk]|] eqn:Hbuilt; [|done].
  cbn [state_of indexes set_indexes]. apply dict_set_Forall; [|done].
  cbn [snd idx_column tree buckets].
  destruct (dict_get table_name (tables e)) as [table|].
  - by eapply scan_rows_ok; [apply index_ok_empty|].
  - injection Hbuilt as <- <-. apply index_ok_empty.
Qed.

Lemma create_table_columns_ok e table_name defs pk :
  Forall (λ p, index_ok (idx_column p.2) (tree p.2) (buckets p.2)) (indexes e) →
  Forall (λ p, index_ok (idx_column p.2) (tree p.2) (buckets p.2))
         (indexes (state_of (create_table_columns e table_name defs pk))).
Proof.
  revert e pk. induction defs as [|c defs IH]; intros e pk He; [done|].
  cbn [create_table_columns].
  pose proof (create_index_ok e table_name (col_name c) None He) as H1.
  destruct (is_primary c).
  - destruct (_create_index e table_name (col_name c) None) as [[] e1|ex e1]; [|done].
    pose proof (create_index_ok e1 table_name (col_name c) None H1) as H2.
    destruct (is_unique c); [|by apply IH].
    destruct (_create_index e1 table_name (col_name c) None) as [[] e2|ex e2]; [|done].
    by apply IH.
  - destruct (is_unique c); [|by apply IH].
    destruct (_create_index e table_name (col_name c) None) as [[] e2|ex e2]; [|done].
    by apply IH.
Qed.

Lemma update_indexes_ok ix table_name r :
  Forall (λ p, index_ok (idx_column p.2) (tree p.2) (buckets p.2)) ix →
  Forall (λ p, index_ok (idx_column p.2) (tree p.2) (buckets p.2))
         (state_of (update_indexes ix table_name r)).
Proof.
  induction 1 as [|[index_key index_data] ix Hhead Htail IH]; [done|].
  cbn [update_indexes].
  assert (∀ d, index_ok (idx_column d) (tree d) (buckets d) →
    Forall (λ p, index_ok (idx_column p.2) (tree p.2) (buckets p.2))
      (state_of
         match update_indexes ix table_name r with
         | Done _ ix'' => Done tt ((index_key, d) :: ix'')
         | Raised ex0 ix'' => Raised ex0 ((index_key, d) :: ix'')
         end)) as Hrest.
  { intros d Hd. destruct (update_indexes ix table_name r); by constructor. }
  destruct (String.eqb _ _); [|by apply Hrest].
  destruct (dict_get _ r) as [value|] eqn:Hv; [|by apply Hrest].
  pose proof (add_row_ok _ _ _ value r Hhead Hv) as Hok. cbn [snd] in Hok.
  destruct (add_row _ _ value r) as [[] [tr bk]|e [tr bk]]; cbn [state_of fst snd] in Hok.
  - by apply Hrest.
  - by constructor.
Qed.

Lemma execute_ok (e : PaymentRDBMS) (now : string) (st : statement) :
  Forall (λ p, index_ok (idx_column p.2) (tree p.2) (buckets p.2)) (indexes e) →
  Forall (λ p, index_ok (idx_column p.2) (tree p.2) (buckets p.2))
         (indexes (state_of (execute e now st))).
Proof.
  intros He.
  destruct st as [table_name defs|index_name table_name column_name|table_name cols values];
    cbn [execute].
  - unfold _create_table.
    pose proof (create_table_columns_ok e table_name defs None He) as Hcols.
    destruct (create_table_columns _ _ _ _) as [pk e1|ex1 e1]; [|done].
    by destruct (append _ _ _ _ _).
  - unfold _create_index_sql.
    pose proof (create_index_ok e table_name column_name (Some index_name) He) as Hix.
    by destruct (_create_index _ _ _ _).
  - unfold _insert. destruct (dict_get table_name (tables e)) as [table|]; [|done].
    destruct (auto_key table cols) as [row0 table1].
    destruct (find_duplicate _ _ _); [done|]. cbn [indexes set_tables].
    pose proof (update_indexes_ok (indexes e) table_name (fill_row row0 cols values) He)
      as Hix.
    destruct (update_indexes _ _ _) as [[] ix|ex' ix]; [|done].
    by destruct (append _ _ _ _ _).
Qed.

Lemma run_ok (now : string) (sts : list statement) :
  Forall (λ p, index_ok (idx_column p.2) (tree p.2) (buckets p.2))
         (indexes (run empty_engine now sts)).
Proof.
  induction sts as [|st sts IH] using rev_ind; [by constructor|].
  rewrite run_snoc. by apply execute_ok.
Qed.

(** Every index of an engine answers with matching rows only.  For an
    engine that starts without files, after any sequence of
    [CREATE TABLE], [CREATE INDEX] and [INSERT] statements, those that
    raised among them, the bucket that a lookup of a value in any
    registered index returns holds only rows whose value under the column
    of the index equals the value looked up. *)
Theorem index_lookup_is_sound (now : string) (sts : list statement)
    (key : string) (idx : Index) (value : scalar) (ref : nat) (r : row) :
  dict_get key (indexes (run empty_engine now sts)) = Some idx →
  search (tree idx) value = Ok (Some ref) →
  r ∈ bucket (buckets idx) ref →
  holds r (idx_column idx) value = true.
Proof.
  intros Hidx Hsearch Hr.
  pose proof (dict_get_Forall _ _ _ _ (run_ok now sts) Hidx) as [_ _ Hrows].
  cbn [snd] in Hrows.
  apply search_found in Hsearch as (k & Hk & Heq). cbn in Heq.
  destruct (Hrows k ref r Hk Hr) as (v & Hv & Hfiled).
  unfold holds. rewrite Hv. destruct Hfiled as [->|Hvk]; [done|].
  by eapply scalar_eq_trans.
Qed.

Lemma index_lookup_is_sound_witness :
  ∃ idx ref,
    dict_get "customers_email_idx" (indexes (run empty_engine "09:01" four_customers)) = Some idx ∧
    search (tree idx) (VText "bob@example.com") = Ok (Some ref) ∧
    ∀ r, r ∈ bucket (buckets idx) ref →
         holds r (idx_column idx) (VText "bob@example.com") = true.
Proof.
  destruct (dict_get "customers_email_idx" (indexes (run empty_engine "09:01" four_customers))) as [idx|] eqn:Hidx.
  2:{ exfalso. revert Hidx. vm_compute. discriminate. }
  destruct (search (tree idx) (VText "bob@example.com")) as [[ref|]|ex] eqn:Hs.
  - exists idx, ref. split; [reflexivity|]. split; [exact Hs|]. intros r Hr.
    exact (index_lookup_is_sound "09:01" four_customers _ idx _ ref r Hidx Hs Hr).
  - exfalso. revert Hidx Hs. vm_compute. intros [= <-]. vm_compute. discriminate.
  - exfalso. revert Hidx Hs. vm_compute. intros [= <-]. vm_compute. discriminate.
Defined.

(** A [WHERE] filter returns matching rows only.  For an engine that
    starts without files, after any sequence of [CREATE TABLE],
    [CREATE INDEX] and [INSERT] statements, every row that the filter on
    a column returns holds the value under that column, whether the
    filter went through an index or through the scan, provided the index
    registered under the name the filter looks up, if there is one, is an
    index on that column. *)
Theorem where_filter_is_sound (now : string) (sts : list statement)
    (table : Table) (rs : list row) (col : string) (value : scalar) (out : list row) :
  (∀ idx, dict_get (default_index_key (name table) col)
            (indexes (run empty_engine now sts)) = Some idx → idx_column idx = col) →
  _filter_rows (run empty_engine now sts) table rs col value = Ok out →
  ∀ r, r ∈ out → holds r col value = true.
Proof.
  intros Hcol. unfold _filter_rows.
  destruct (dict_get _ (indexes _)) as [idx|] eqn:Hidx.
  - intros (found & Hsearch & [= <-])%bind_Ok r Hr.
    destruct found as [ref|]; [|by apply elem_of_nil in Hr].
    rewrite <- (Hcol idx eq_refl).
    pose proof (dict_get_Forall _ _ _ _ (run_ok now sts) Hidx) as [_ _ Hrows].
    cbn [snd] in Hrows.
    apply search_found in Hsearch as (k & Hk & Heq). cbn in Heq.
    destruct (Hrows k ref r Hk Hr) as (v & Hv & Hfiled).
    unfold holds. rewrite Hv. destruct Hfiled as [->|Hvk]; [done|].
    by eapply scalar_eq_trans.
  - intros [= <-] r Hr. unfold table_scan in Hr.
    by apply list_elem_of_filter in Hr as [? _].
Qed.

Lemma where_filter_is_sound_witness :
  ∃ out, _filter_rows (run empty_engine "09:01" four_customers) sample_customers
           (rows sample_customers) "email" (VText "bob@example.com") = Ok out ∧
         out = [customer 2 "bob@example.com"] ∧
         ∀ r, r ∈ out → holds r "email" (VText "bob@example.com") = true.
Proof.
  destruct (_filter_rows (run empty_engine "09:01" four_customers) sample_customers
              (rows sample_customers) "email" (VText "bob@example.com"))
    as [out|ex] eqn:Hf.
  2:{ exfalso. revert Hf. vm_compute. discriminate. }
  exists out. split; [reflexivity|]. split.
  { revert Hf. vm_compute. intros [= <-]. reflexivity. }
  apply (where_filter_is_sound "09:01" four_customers sample_customers
           (rows sample_customers) "email" (VText "bob@example.com") out); [|exact Hf].
  intros idx. vm_compute. intros [= <-]. reflexivity.
Defined.

